(** * YouTube-summarizer: transcript normalizer, fetch pipeline and
      extractive summarizer

    A shallow embedding of [utils/youtube_utils.py] ([clean_transcript],
    [get_transcript], [parse_vtt_content], [get_transcript_ytdlp],
    [get_transcript_direct_api]), of [utils/summarizer.py]
    ([summarize_text], [summarize_with_api]) and of the handlers of
    [app.py].

    Python strings are sequences of Unicode code points: a character is
    the number of its code point ([N]) and a [str] is a [list N].  The
    parts of Python's Unicode database that the code consults and that
    are not fixed by ASCII ([str.lower], the decimal digits of [\d], the
    alphanumerics of [\w] and [str.isalnum] above code point 127) are
    fields of a record [unicode_db] that every function takes as an
    argument; [ascii_db] is the database restricted to ASCII, exact on
    ASCII text.

    The code reports its progress with [print].  Whether the standard
    output can encode a message, and the message of the exception when
    it cannot, are the fields of a record [stdout] that the functions
    which print take as an argument. *)

From Stdlib Require Import Ascii String DecimalString.
From stdpp Require Import base decidable option numbers list sorting gmap.

Local Open Scope N_scope.
Local Open Scope list_scope.

(** ** Characters and strings *)

Abbreviation char := N (only parsing).
Abbreviation pystr := (list N) (only parsing).

(** An ASCII literal as a Python string. *)
Definition py (s : string) : pystr :=
  map N_of_ascii (list_ascii_of_string s).

Definition LT : char := 60.      (* '<' *)
Definition GT : char := 62.      (* '>' *)
Definition SPACE : char := 32.   (* ' ' *)
Definition DOT : char := 46.     (* '.' *)
Definition COLON : char := 58.   (* ':' *)
Definition CROSS : char := 10060. (* U+274C, the failure marker's first character *)

(** [str.isspace] of one character, which is also the class [\s] of
    [re] on [str] patterns and the set that [str.split()] and
    [str.strip()] use. *)
Definition isspace (c : char) : bool :=
  ((9 <=? c) && (c <=? 13)) || ((28 <=? c) && (c <=? 32))
  || (c =? 133) || (c =? 160) || (c =? 5760)
  || ((8192 <=? c) && (c <=? 8202))
  || (c =? 8232) || (c =? 8233) || (c =? 8239) || (c =? 8287) || (c =? 12288).

(** The class [[.!?]]. *)
Definition is_terminator (c : char) : bool :=
  (c =? 46) || (c =? 33) || (c =? 63).

Definition is_dot (c : char) : bool := c =? 46.

Record unicode_db := {
  str_lower : pystr -> pystr;       (* str.lower() *)
  decimal_above_ascii : char -> bool; (* category Nd, consulted above 127 *)
  alnum_above_ascii : char -> bool    (* str.isalnum of a character above 127 *)
}.

Definition ascii_lower_char (c : char) : char :=
  if (65 <=? c) && (c <=? 90) then c + 32 else c.

Definition ascii_db : unicode_db := {|
  str_lower := map ascii_lower_char;
  decimal_above_ascii := fun _ => false;
  alnum_above_ascii := fun _ => false
|}.

(** The class [\d]. *)
Definition is_digit (U : unicode_db) (c : char) : bool :=
  if c <? 128 then (48 <=? c) && (c <=? 57) else decimal_above_ascii U c.

(** ** String primitives of Python used by the code *)

(** [sep.join(parts)]. *)
Fixpoint join (sep : pystr) (parts : list pystr) : pystr :=
  match parts with
  | [] => []
  | [p] => p
  | p :: rest => p ++ sep ++ join sep rest
  end.

(** The fields of [s] between single separator characters: [n]
    separators give [n + 1] fields, empty ones included. *)
Fixpoint fields (p : char -> bool) (s : pystr) : list pystr :=
  match s with
  | [] => [[]]
  | c :: r =>
      if p c then [] :: fields p r
      else match fields p r with
           | f :: fs => (c :: f) :: fs
           | [] => [[c]]
           end
  end.

Definition nonempty (s : pystr) : bool :=
  match s with [] => false | _ => true end.

(** [s.split()]: the maximal runs of non-whitespace characters. *)
Definition str_split (s : pystr) : list pystr :=
  filter (fun f => nonempty f = true) (fields isspace s).

(** [s.strip()]. *)
Fixpoint lstrip (s : pystr) : pystr :=
  match s with
  | [] => []
  | c :: r => if isspace c then lstrip r else s
  end.

Definition str_strip (s : pystr) : pystr :=
  rev (lstrip (rev (lstrip s))).

(** [re.sub(X+, rep, s)] for a character class [X] and a one-character
    replacement: every maximal run of [X] becomes one [rep]. *)
Fixpoint sub_runs (p : char -> bool) (rep : char) (in_run : bool) (s : pystr) : pystr :=
  match s with
  | [] => []
  | c :: r =>
      if p c then
        if in_run then sub_runs p rep true r else rep :: sub_runs p rep true r
      else c :: sub_runs p rep false r
  end.

(** [re.split(X+, s)] for a character class [X]: the pieces between the
    maximal runs of [X], empty leading and trailing pieces included. *)
Fixpoint split_runs (p : char -> bool) (in_run : bool) (s : pystr) : list pystr :=
  match s with
  | [] => [[]]
  | c :: r =>
      if p c then
        if in_run then split_runs p true r else [] :: split_runs p true r
      else match split_runs p false r with
           | f :: fs => (c :: f) :: fs
           | [] => [[c]]
           end
  end.

(** Index of the first [c] in [s] ([str.find] of one character). *)
Fixpoint find_char (c : char) (s : pystr) : option nat :=
  match s with
  | [] => None
  | d :: r => if d =? c then Some 0%nat else S <$> find_char c r
  end.

(** A match of [<[^>]+>] starting at a ['<'] whose remainder is [r]:
    the number of characters of [r] that the match covers. *)
Definition tag_match (r : pystr) : option nat :=
  match find_char GT r with
  | Some (S k) => Some (S (S k))
  | _ => None
  end.

(** Leftmost, non-overlapping replacement by the empty string, as
    [re.sub(pattern, '', s)] does it for a pattern that starts with
    ['<']: [skip] counts the characters of the current match still to
    drop; [m r] is the length of the match after a ['<'] followed by [r]. *)
Fixpoint sub_at_lt (m : pystr -> option nat) (skip : nat) (s : pystr) : pystr :=
  match s with
  | [] => []
  | c :: r =>
      match skip with
      | S k => sub_at_lt m k r
      | O =>
          if c =? LT then
            match m r with
            | Some n => sub_at_lt m n r
            | None => c :: sub_at_lt m 0 r
            end
          else c :: sub_at_lt m 0 r
      end
  end.

(** re.sub(r'<[^>]+>', '', s) *)
Definition sub_tags (s : pystr) : pystr := sub_at_lt tag_match 0 s.

(** Greedy [\d+] : the number of leading digits. *)
Fixpoint digits_prefix (U : unicode_db) (s : pystr) : nat :=
  match s with
  | c :: r => if is_digit U c then S (digits_prefix U r) else 0
  | [] => 0
  end.

(** A match of [<\d{2}:\d{2}:\d{2}\.\d+>] after its ['<']. *)
Definition timestamp_match (U : unicode_db) (r : pystr) : option nat :=
  match r with
  | h1 :: h2 :: c1 :: m1 :: m2 :: c2 :: s1 :: s2 :: d :: frac =>
      if is_digit U h1 && is_digit U h2 && (c1 =? COLON)
         && is_digit U m1 && is_digit U m2 && (c2 =? COLON)
         && is_digit U s1 && is_digit U s2 && (d =? DOT)
      then
        let n := digits_prefix U frac in
        match n, drop n frac with
        | S _, g :: _ => if g =? GT then Some (9 + n + 1)%nat else None
        | _, _ => None
        end
      else None
  | _ => None
  end.

(** re.sub(r'<\d{2}:\d{2}:\d{2}\.\d+>', '', s) *)
Definition sub_timestamps (U : unicode_db) (s : pystr) : pystr :=
  sub_at_lt (timestamp_match U) 0 s.

(** re.sub(r'\s+', ' ', s).strip() *)
Definition collapse_ws (s : pystr) : pystr :=
  str_strip (sub_runs isspace SPACE false s).

(** ** [clean_transcript] *)

(** The loop over [enumerate(words)]: a word is skipped when its
    lower-cased form equals that of the word before it in [words]. *)
Fixpoint dedup_words (U : unicode_db) (prev : option pystr) (words : list pystr)
  : list pystr :=
  match words with
  | [] => []
  | w :: rest =>
      match prev with
      | Some p =>
          if decide (str_lower U w = str_lower U p)
          then dedup_words U (Some w) rest
          else w :: dedup_words U (Some w) rest
      | None => w :: dedup_words U (Some w) rest
      end
  end.

(** The loop over [sentences], threading [unique_sentences]. *)
Definition add_unique (unique_sentences : list pystr) (sentence : pystr) : list pystr :=
  let sentence := str_strip sentence in
  if nonempty sentence && negb (bool_decide (sentence ∈ unique_sentences))
  then unique_sentences ++ [sentence]
  else unique_sentences.

Definition clean_transcript (U : unicode_db) (transcript : pystr) : pystr :=
  match transcript with
  | [] => transcript
  | _ =>
      let transcript := sub_tags transcript in
      let transcript := sub_timestamps U transcript in
      let words := str_split transcript in
      let cleaned_words := dedup_words U None words in
      let cleaned_transcript := join (py " ") cleaned_words in
      let cleaned_transcript := collapse_ws cleaned_transcript in
      let sentences := split_runs is_terminator false cleaned_transcript in
      let unique_sentences := fold_left add_unique sentences [] in
      let final_transcript := join (py ". ") unique_sentences in
      let final_transcript := collapse_ws final_transcript in
      let final_transcript := sub_runs is_dot DOT false final_transcript in
      final_transcript
  end.


(** ** Exceptions *)

(** A Python computation either returns a value or raises an exception,
    of which the code only ever reads [str(e)]. *)
Inductive result (A : Type) : Type :=
  | Ok (a : A)
  | Raise (msg : pystr).
Arguments Ok {A} a.
Arguments Raise {A} msg.

#[export] Instance result_ret : MRet result := fun _ a => Ok a.
#[export] Instance result_bind : MBind result := fun _ _ f m =>
  match m with
  | Ok a => f a
  | Raise e => Raise e
  end.

(** [l[i]] for a non-negative [i]. *)
Definition getitem {A} (l : list A) (i : nat) : result A :=
  match l !! i with
  | Some x => Ok x
  | None => Raise (py "list index out of range")
  end.

(** ** More string primitives *)

(** [s.startswith(pre)]. *)
Fixpoint startswith (pre s : pystr) : bool :=
  match pre, s with
  | [], _ => true
  | a :: pre', b :: s' => (a =? b) && startswith pre' s'
  | _ :: _, [] => false
  end.

(** [sub in s]. *)
Fixpoint contains (sub s : pystr) : bool :=
  startswith sub s ||
  match s with
  | [] => false
  | _ :: r => contains sub r
  end.

(** [s.split(sep)] for a non-empty [sep]: the pieces between the
    non-overlapping occurrences of [sep], found from the left; [skip]
    counts the characters of the current occurrence still to drop. *)
Fixpoint split_sep (sep : pystr) (skip : nat) (s : pystr) : list pystr :=
  match s with
  | [] => [[]]
  | c :: r =>
      match skip with
      | S k => split_sep sep k r
      | O =>
          if startswith sep s then [] :: split_sep sep (length sep - 1) r
          else match split_sep sep 0 r with
               | f :: fs => (c :: f) :: fs
               | [] => [[c]]
               end
      end
  end.

Definition str_split_on (sep s : pystr) : list pystr := split_sep sep 0 s.

(** ** [get_transcript] *)

Definition failed (text : string) : pystr := CROSS :: SPACE :: py text.

Definition INVALID_URL_FORMAT : pystr :=
  failed "Invalid YouTube URL format. Please use a valid YouTube URL.".
Definition INVALID_VIDEO_ID : pystr :=
  failed "Invalid video ID extracted from URL.".
Definition ALL_METHODS_FAILED : pystr :=
  failed "All transcript methods failed. This video may not have accessible transcripts.".

(** The [if]/[elif] chain that extracts the video ID; [None] is the
    [else] branch. *)
Definition extract_video_id (video_url : pystr) : result (option pystr) :=
  if contains (py "v=") video_url then
    rest ← getitem (str_split_on (py "v=") video_url) 1;
    video_id ← getitem (str_split_on (py "&") rest) 0;
    mret (Some video_id)
  else if contains (py "youtu.be/") video_url then
    rest ← getitem (str_split_on (py "youtu.be/") video_url) 1;
    video_id ← getitem (str_split_on (py "?") rest) 0;
    mret (Some video_id)
  else if contains (py "youtube.com/embed/") video_url then
    rest ← getitem (str_split_on (py "youtube.com/embed/") video_url) 1;
    video_id ← getitem (str_split_on (py "?") rest) 0;
    mret (Some video_id)
  else mret None.

(** An acquisition strategy: its name and what calling it with
    [(video_id, video_url)] gives.  The three strategies of the code do
    network I/O; what they return or raise is a parameter. *)
Record method := {
  method_name : pystr;
  method_func : pystr -> pystr -> result pystr
}.

Record strategies := {
  get_transcript_ytdlp : pystr -> pystr -> result pystr;
  get_transcript_direct_api : pystr -> pystr -> result pystr;
  get_transcript_web_scraping : pystr -> pystr -> result pystr
}.

Definition methods (net : strategies) : list method :=
  [ {| method_name := py "yt-dlp Method"; method_func := get_transcript_ytdlp net |};
    {| method_name := py "Direct API Method"; method_func := get_transcript_direct_api net |};
    {| method_name := py "Web Scraping Method"; method_func := get_transcript_web_scraping net |} ].

(** The messages of progress go to standard output.  [print(text)]
    raises [UnicodeEncodeError] when [text] has a character that the
    encoding of [sys.stdout] lacks.  Every encoding in use has the
    ASCII characters; which others the stream can take, and the message
    of the exception, belong to the environment. *)
Record stdout := {
  encodes : char -> bool;
  (* str(e) of the exception raised for a text *)
  encode_error : pystr -> pystr
}.

Definition printable (O : stdout) (text : pystr) : bool :=
  forallb (fun c => (c <? 128) || encodes O c) text.

Definition print (O : stdout) (text : pystr) : result unit :=
  if printable O text then Ok () else Raise (encode_error O text).

(** [str(n)] of an integer. *)
Definition str_of_nat (n : nat) : pystr :=
  py (NilZero.string_of_uint (Nat.to_uint n)).

Definition str_of_int (z : Z) : pystr :=
  py (NilZero.string_of_int (Z.to_int z)).

Definition CHECK : char := 9989. (* U+2705, the first character of the success messages *)

(** The body of the inner [try] for one strategy: [Some] is the value
    that the function returns from inside the loop, [None] means that
    the loop goes on.  The second component tells whether the strategy
    was invoked. *)
Definition try_method (U : unicode_db) (O : stdout) (m : method)
    (video_id video_url : pystr) : result (option pystr) * bool :=
  match print O (py "Trying " ++ method_name m ++ py "...") with
  | Raise e => (Raise e, false)
  | Ok _ =>
      (result ← method_func m video_id video_url;
       if negb (startswith [CROSS] result) then
         print O (CHECK :: py " " ++ method_name m ++ py " successful!");;
         let cleaned_result := clean_transcript U result in
         print O (py "Cleaned transcript length: "
                    ++ str_of_nat (length cleaned_result) ++ py " characters");;
         mret (Some cleaned_result)
       else
         print O (CROSS :: py " " ++ method_name m ++ py " failed: " ++ result);;
         mret None,
       true)
  end.

(** The [for method_name, method_func in methods] loop.  An exception
    of the inner [try] is printed by its handler and the loop goes on;
    an exception of that [print] leaves the loop.  The second component
    lists, in call order, the names of the strategies that were
    invoked; [Ok None] means that the loop ran to its end. *)
Fixpoint try_methods (U : unicode_db) (O : stdout) (ms : list method)
    (video_id video_url : pystr) : result (option pystr) * list pystr :=
  match ms with
  | [] => (Ok None, [])
  | m :: rest =>
      let '(attempt, invoked) := try_method U O m video_id video_url in
      let called := if invoked then [method_name m] else [] in
      let continue :=
        let '(r, calls) := try_methods U O rest video_id video_url in
        (r, called ++ calls) in
      match attempt with
      | Ok (Some cleaned_result) => (Ok (Some cleaned_result), called)
      | Ok None => continue
      | Raise e =>
          match print O (CROSS :: py " " ++ method_name m ++ py " error: " ++ e) with
          | Ok _ => continue
          | Raise e' => (Raise e', called)
          end
      end
  end.

(** What [get_transcript_direct_api] makes of the [<text>] nodes of a
    response that parsed: the nodes with a non-empty text, each
    stripped, joined by single spaces; [None] when there is none, and
    the loop goes on to the next language code. *)
Definition direct_api_transcript (texts : list pystr) : option pystr :=
  let transcript_parts :=
    map str_strip (filter (λ text, nonempty text = true) texts) in
  match transcript_parts with
  | [] => None
  | _ => Some (join (py " ") transcript_parts)
  end.

(** Lines 68 to 97: the validation of the ID, and the loop over the
    strategies. *)
Definition fetch_with_id (U : unicode_db) (O : stdout) (net : strategies)
    (video_id video_url : pystr) : result pystr * list pystr :=
  if negb (nonempty video_id) || negb (length video_id =? 11)%nat
  then (Ok INVALID_VIDEO_ID, [])
  else
    match print O (py "Attempting to fetch transcript for video ID: " ++ video_id) with
    | Raise e => (Raise e, [])
    | Ok _ =>
        match try_methods U O (methods net) video_id video_url with
        | (Ok (Some cleaned_result), calls) => (Ok cleaned_result, calls)
        | (Ok None, calls) => (Ok ALL_METHODS_FAILED, calls)
        | (Raise e, calls) => (Raise e, calls)
        end
    end.

(** The body of the outer [try]: what it returns or raises, and the
    strategies invoked. *)
Definition get_transcript_body (U : unicode_db) (O : stdout) (net : strategies)
    (video_url : pystr) : result pystr * list pystr :=
  let video_url := str_strip video_url in
  match extract_video_id video_url with
  | Ok (Some video_id) => fetch_with_id U O net video_id video_url
  | Ok None => (Ok INVALID_URL_FORMAT, [])
  | Raise e => (Raise e, [])
  end.

Definition UNEXPECTED_ERROR : pystr := failed "Unexpected error: ".

(** [get_transcript(video_url)]: the returned string, or the exception
    of the [print] in the outer handler, and the strategies invoked on
    the way. *)
Definition get_transcript (U : unicode_db) (O : stdout) (net : strategies)
    (video_url : pystr) : result pystr * list pystr :=
  match get_transcript_body U O net video_url with
  | (Ok r, calls) => (Ok r, calls)
  | (Raise e, calls) =>
      match print O (py "Unexpected error: " ++ e) with
      | Ok _ => (Ok (UNEXPECTED_ERROR ++ e), calls)
      | Raise e' => (Raise e', calls)
      end
  end.

(** ** [summarize_text] *)

(** What the NLTK installation does when the code calls into it.  NLTK
    and its data files are not part of the repository. *)
Record nltk_env := {
  (* nltk.data.find(path) returns (true) or raises LookupError (false) *)
  data_find : pystr -> bool;
  (* nltk.download(package, quiet=True) raises an Exception *)
  download_raises : pystr -> bool;
  sent_tokenize : pystr -> result (list pystr);
  word_tokenize : pystr -> result (list pystr);
  (* stopwords.words('english') *)
  stopwords_words : result (list pystr);
  (* WordNetLemmatizer() *)
  WordNetLemmatizer : result unit;
  (* lemmatizer.lemmatize(word) *)
  lemmatize : pystr -> result pystr
}.

Definition required_packages : list pystr :=
  [py "punkt"; py "stopwords"; py "wordnet"; py "punkt_tab"].

(** [ensure_nltk_data()]: [False] exactly when, for some required
    package, [find] raises [LookupError] and the download raises too.
    The second lookup of [punkt_tab] only prints. *)
Definition ensure_nltk_data (E : nltk_env) : bool :=
  forallb (fun package =>
             data_find E (py "tokenizers/" ++ package)
             || negb (download_raises E package))
          required_packages.

Definition NLTK_UNAVAILABLE : pystr :=
  failed "NLTK data not available. Please check your internet connection and try again.".
Definition EMPTY_TRANSCRIPT : pystr := failed "Empty transcript provided.".
Definition NO_SENTENCES : pystr := failed "No valid sentences found in transcript.".
Definition NO_MEANINGFUL_WORDS : pystr := failed "No meaningful words found for summarization.".
Definition GENERATION_FAILED : pystr := failed "Failed to generate summary.".

(** The built-in stopword list of the fallback branch. *)
Definition fallback_stop_words : list pystr :=
  map py ["the"; "a"; "an"; "and"; "or"; "but"; "in"; "on"; "at"; "to";
          "for"; "of"; "with"; "by"]%string.

Definition is_ascii_alnum (c : char) : bool :=
  ((48 <=? c) && (c <=? 57)) || ((65 <=? c) && (c <=? 90))
  || ((97 <=? c) && (c <=? 122)).

(** [str.isalnum] of one character. *)
Definition is_alnum (U : unicode_db) (c : char) : bool :=
  if c <? 128 then is_ascii_alnum c else alnum_above_ascii U c.

(** The class [\w]. *)
Definition is_word_char (U : unicode_db) (c : char) : bool :=
  is_alnum U c || (c =? 95).

(** [word.isalnum()]. *)
Definition isalnum (U : unicode_db) (word : pystr) : bool :=
  nonempty word && forallb (is_alnum U) word.

(** re.findall(r'\b\w+\b', s): the maximal runs of word characters. *)
Definition findall_words (U : unicode_db) (s : pystr) : list pystr :=
  filter (fun f => nonempty f = true) (fields (fun c => negb (is_word_char U c)) s).

(** Sentence splitting: [sent_tokenize], or the regular-expression
    fallback when it raises. *)
Definition split_sentences (E : nltk_env) (transcript : pystr) : list pystr :=
  match sent_tokenize E transcript with
  | Ok sentences => sentences
  | Raise _ =>
      map str_strip
          (filter (fun s => nonempty (str_strip s) = true)
                  (split_runs is_terminator false transcript))
  end.

(** [stop_words] and [lemmatizer] ([None] in the fallback branch). *)
Definition load_resources (E : nltk_env) : list pystr * bool :=
  match stopwords_words E, WordNetLemmatizer E with
  | Ok stop_words, Ok _ => (stop_words, true)
  | _, _ => (fallback_stop_words, false)
  end.

Fixpoint mapM {A B} (f : A -> result B) (l : list A) : result (list B) :=
  match l with
  | [] => mret []
  | x :: r => y ← f x; ys ← mapM f r; mret (y :: ys)
  end.

(** [word_tokenize(sentence.lower())], or the regular-expression
    fallback when it raises. *)
Definition tokenize_words (U : unicode_db) (E : nltk_env) (sentence : pystr)
  : list pystr :=
  match word_tokenize E (str_lower U sentence) with
  | Ok words => words
  | Raise _ => findall_words U (str_lower U sentence)
  end.

(** The condition of the two list comprehensions. *)
Definition keep_word (U : unicode_db) (stop_words : list pystr) (word : pystr) : bool :=
  isalnum U word && negb (bool_decide (word ∈ stop_words))
  && (2 <? length word)%nat.

(** The words of one sentence that count: tokenized, filtered and, with
    a lemmatizer, lemmatized.  Both loops of the code compute it in the
    same way. *)
Definition content_words (U : unicode_db) (E : nltk_env)
    (stop_words : list pystr) (lemmatizer : bool) (sentence : pystr)
  : result (list pystr) :=
  let words := tokenize_words U E sentence in
  let kept := filter (fun word => keep_word U stop_words word = true) words in
  if lemmatizer then mapM (lemmatize E) kept else mret kept.

(** [Counter.update(words)] and [Counter[word]]. *)
Definition counter_update (word_freq : gmap pystr nat) (words : list pystr)
  : gmap pystr nat :=
  foldl (fun m w => <[w := Datatypes.S (default 0%nat (m !! w))]> m) word_freq words.

Definition counter_get (word_freq : gmap pystr nat) (word : pystr) : nat :=
  default 0%nat (word_freq !! word).

(** The first loop over [sentences]. *)
Fixpoint word_frequencies (U : unicode_db) (E : nltk_env)
    (stop_words : list pystr) (lemmatizer : bool)
    (word_freq : gmap pystr nat) (sentences : list pystr)
  : result (gmap pystr nat) :=
  match sentences with
  | [] => mret word_freq
  | sentence :: rest =>
      words ← content_words U E stop_words lemmatizer sentence;
      word_frequencies U E stop_words lemmatizer (counter_update word_freq words) rest
  end.

(** A [dict] keeps its keys in insertion order; assigning to a key that
    is present keeps its place. *)
Fixpoint dict_set {V} (d : list (pystr * V)) (k : pystr) (v : V) : list (pystr * V) :=
  match d with
  | [] => [(k, v)]
  | (k', v') :: r =>
      if decide (k' = k) then (k, v) :: r else (k', v') :: dict_set r k v
  end.

(** The second loop over [sentences]. *)
Fixpoint sentence_scores (U : unicode_db) (E : nltk_env)
    (stop_words : list pystr) (lemmatizer : bool) (word_freq : gmap pystr nat)
    (scores : list (pystr * nat)) (sentences : list pystr)
  : result (list (pystr * nat)) :=
  match sentences with
  | [] => mret scores
  | sentence :: rest =>
      words ← content_words U E stop_words lemmatizer sentence;
      let score := foldr Nat.add 0%nat (map (counter_get word_freq) words) in
      sentence_scores U E stop_words lemmatizer word_freq
                      (dict_set scores sentence score) rest
  end.

(** [sorted(l, key=key, reverse=reverse)] for integer keys: the stable
    sort, which keeps elements of equal key in their order in [l], also
    with [reverse=True]. *)
Fixpoint sorted_insert {A} (key : A -> nat) (reverse : bool) (x : A) (l : list A)
  : list A :=
  match l with
  | [] => [x]
  | y :: r =>
      if (if reverse then key x <? key y else key y <? key x)%nat
      then y :: sorted_insert key reverse x r
      else x :: l
  end.

Definition sorted {A} (key : A -> nat) (reverse : bool) (l : list A) : list A :=
  foldr (sorted_insert key reverse) [] l.

(** [l[:n]]. *)
Definition slice_to {A} (n : Z) (l : list A) : list A :=
  if (0 <=? n)%Z then take (Z.to_nat n) l
  else take (length l - Z.to_nat (- n)) l.

(** [l.index(x)]; the code calls it only with elements of [l]. *)
Fixpoint list_index (x : pystr) (l : list pystr) : nat :=
  match l with
  | [] => 0
  | y :: r => if decide (y = x) then 0 else Datatypes.S (list_index x r)
  end.

(** The two [sorted] calls. *)
Definition top_sentences (sentences : list pystr) (scores : list (pystr * nat))
    (max_sentences : Z) : list (pystr * nat) :=
  let top := slice_to max_sentences (sorted snd true scores) in
  sorted (fun x => list_index (fst x) sentences) false top.

Definition summarize_body (U : unicode_db) (E : nltk_env)
    (transcript : pystr) (max_sentences : Z) : result pystr :=
  if negb (ensure_nltk_data E) then mret NLTK_UNAVAILABLE else
  let transcript := collapse_ws transcript in
  if negb (nonempty transcript) then mret EMPTY_TRANSCRIPT else
  let sentences := split_sentences E transcript in
  if (length sentences =? 0)%nat then mret NO_SENTENCES else
  if (Z.of_nat (length sentences) <=? max_sentences)%Z then mret transcript else
  let '(stop_words, lemmatizer) := load_resources E in
  word_freq ← word_frequencies U E stop_words lemmatizer ∅ sentences;
  if bool_decide (word_freq = ∅) then mret NO_MEANINGFUL_WORDS else
  scores ← sentence_scores U E stop_words lemmatizer word_freq [] sentences;
  let top := top_sentences sentences scores max_sentences in
  let summary := join (py " ") (map fst top) in
  if negb (nonempty (str_strip summary)) then mret GENERATION_FAILED else
  mret summary.

(** [summarize_text(transcript, max_sentences)]. *)
Definition summarize_text (U : unicode_db) (E : nltk_env)
    (transcript : pystr) (max_sentences : Z) : pystr :=
  match summarize_body U E transcript max_sentences with
  | Ok r => r
  | Raise e => failed "Summarization error: " ++ e
  end.

(** An installation without NLTK data: every lookup fails, downloads
    return without raising, and every call into NLTK raises. *)
Definition no_nltk : nltk_env := {|
  data_find := fun _ => false;
  download_raises := fun _ => false;
  sent_tokenize := fun _ => Raise (py "Resource punkt not found.");
  word_tokenize := fun _ => Raise (py "Resource punkt not found.");
  stopwords_words := Raise (py "Resource stopwords not found.");
  WordNetLemmatizer := Ok ();
  lemmatize := fun _ => Raise (py "Resource wordnet not found.")
|}.

(** ** Responses *)

(** A response of [requests], as far as the code reads it. *)
Record response := {
  status_code : Z;
  text : pystr
}.

(** ** [parse_vtt_content] *)

Definition NEWLINE : char := 10.          (* '\n' *)
Definition CARRIAGE_RETURN : char := 13.  (* '\r' *)

Definition NO_VTT_CONTENT : pystr := failed "No transcript content found in VTT.".

(** [re.match(r'^\d+:\d+:\d+', line)] finds a match: [line] starts with
    three runs of digits separated by colons.  A colon is no digit, so
    each [\d+] can only stop at the end of its run. *)
Definition clock_match (U : unicode_db) (line : pystr) : bool :=
  let n1 := digits_prefix U line in
  match n1, drop n1 line with
  | Datatypes.S _, c1 :: r1 =>
      (c1 =? COLON)
      && let n2 := digits_prefix U r1 in
         match n2, drop n2 r1 with
         | Datatypes.S _, c2 :: r2 => (c2 =? COLON) && (0 <? digits_prefix U r2)%nat
         | _, _ => false
         end
  | _, _ => false
  end.

(** [line.isdigit()]: [line] is non-empty and each character is a
    decimal digit or has the Unicode property Numeric_Type=Digit; which
    characters above ASCII have that property is told by
    [other_digit]. *)
Definition isdigit (U : unicode_db) (other_digit : char -> bool) (line : pystr) : bool :=
  nonempty line
  && forallb (fun c => is_digit U c || ((128 <=? c) && other_digit c)) line.

(** The condition under which a stripped line counts as text. *)
Definition is_text_line (U : unicode_db) (other_digit : char -> bool) (line : pystr)
  : bool :=
  nonempty line
  && negb (startswith (py "WEBVTT") line)
  && negb (startswith (py "-->") line)
  && negb (clock_match U line)
  && negb (isdigit U other_digit line).

(** The body of the loop over [lines], threading [transcript_parts]. *)
Definition add_part (U : unicode_db) (other_digit : char -> bool)
    (transcript_parts : list pystr) (line : pystr) : list pystr :=
  let line := str_strip line in
  if is_text_line U other_digit line then
    let cleaned_line := clean_transcript U line in
    if nonempty cleaned_line then transcript_parts ++ [cleaned_line]
    else transcript_parts
  else transcript_parts.

(** [parse_vtt_content(vtt_content)].  No call of its body raises on a
    string, so the handler of the [try] has nothing to catch. *)
Definition parse_vtt_content (U : unicode_db) (other_digit : char -> bool)
    (vtt_content : pystr) : pystr :=
  let lines := str_split_on [NEWLINE] vtt_content in
  let transcript_parts := fold_left (add_part U other_digit) lines [] in
  match transcript_parts with
  | [] => NO_VTT_CONTENT
  | _ => join (py " ") transcript_parts
  end.

(** ** The acquisition strategies *)

(** The strategies are written in a module of their own: their names
    are those of the fields of [strategies]. *)
Module Strategy.

(** *** [get_transcript_direct_api] *)

(** The network and the XML parser, as the strategy sees them:
    [requests.get(url, timeout=10)], and [ET.fromstring(text)] followed
    by [root.findall('.//text')], which gives the [text] attribute of
    each [<text>] element, [None] for an element without text.  The
    strategy requests each URL at most once. *)
Record web := {
  requests_get : pystr -> result response;
  xml_text_nodes : pystr -> result (list (option pystr))
}.

Definition DIRECT_API_FAILED : pystr := failed "Direct API method failed.".

Definition languages : list pystr := map py ["en"; "en-US"; "en-GB"; "auto"]%string.

Definition timedtext_url (video_id lang : pystr) : pystr :=
  py "https://www.youtube.com/api/timedtext?v=" ++ video_id ++ py "&lang=" ++ lang.

(** The [for lang in languages] loop: a parse error and every other
    exception go on to the next language.  The second component lists
    the URLs requested, in order. *)
Fixpoint try_languages (W : web) (video_id : pystr) (langs : list pystr)
  : option pystr * list pystr :=
  match langs with
  | [] => (None, [])
  | lang :: rest =>
      let url := timedtext_url video_id lang in
      let continue :=
        let '(r, requested) := try_languages W video_id rest in
        (r, url :: requested) in
      match requests_get W url with
      | Ok response =>
          if (status_code response =? 200)%Z && nonempty (str_strip (text response))
          then
            match xml_text_nodes W (text response) with
            | Ok texts =>
                match direct_api_transcript (map (default []) texts) with
                | Some full_transcript => (Some full_transcript, [url])
                | None => continue
                end
            | Raise _ => continue
            end
          else continue
      | Raise _ => continue
      end
  end.

(** [get_transcript_direct_api(video_id, video_url)]: the returned
    string and the URLs requested.  Nothing escapes the inner [try], so
    the outer handler has nothing to catch. *)
Definition get_transcript_direct_api (W : web) (video_id video_url : pystr)
  : pystr * list pystr :=
  match try_languages W video_id languages with
  | (Some full_transcript, requested) => (full_transcript, requested)
  | (None, requested) => (DIRECT_API_FAILED, requested)
  end.

(** *** [get_transcript_ytdlp] *)

(** An exception raised in the body of [get_transcript_ytdlp]: the
    code tells an [ImportError] from the others and reads the
    message. *)
Record exception := {
  is_import_error : bool;
  message : pystr
}.

(** An entry of a subtitle list: [sub.get('ext')] and [sub['url']],
    [None] for a missing key. *)
Record subtitle := {
  ext : option pystr;
  url : option pystr
}.

(** What the code reads of the dictionary that [extract_info] returns:
    the items of [info['subtitles']] and of
    [info['automatic_captions']], in the order of the dictionary,
    [None] for a missing key. *)
Record video_info := {
  subtitles : option (list (pystr * list subtitle));
  automatic_captions : option (list (pystr * list subtitle))
}.

(** [import yt_dlp]; [YoutubeDL(ydl_opts)] with
    [extract_info(video_url, download=False)]; and
    [requests.get(subtitle_url, timeout=10)], whose outcome may depend
    on the requests made before it. *)
Record ytdlp_env := {
  import_yt_dlp : option exception;
  extract_info : pystr -> video_info + exception;
  subtitle_get : list pystr -> pystr -> response + exception
}.

Definition NO_SUBTITLES : pystr := failed "No subtitles found with yt-dlp.".
Definition YTDLP_NOT_INSTALLED : pystr :=
  failed "yt-dlp not installed. Please install with: pip install yt-dlp".

Definition english : list pystr := map py ["en"; "en-US"; "en-GB"]%string.

(** [KeyError('url')], whose [str] is the key in quotes. *)
Definition KeyError_url : exception :=
  {| is_import_error := false; message := [39] ++ py "url" ++ [39] |}.

(** How a loop ends: it runs to its end, the function returns from
    inside it, or an exception leaves it. *)
Inductive flow :=
  | Next
  | Return (r : pystr)
  | Throw (e : exception).

(** The loop over the entries of one language; [requested] lists the
    URLs requested so far. *)
Fixpoint try_entries (U : unicode_db) (other_digit : char -> bool) (Y : ytdlp_env)
    (entries : list subtitle) (requested : list pystr) : flow * list pystr :=
  match entries with
  | [] => (Next, requested)
  | sub :: rest =>
      if bool_decide (ext sub = Some (py "vtt")) then
        match url sub with
        | None => (Throw KeyError_url, requested)
        | Some subtitle_url =>
            match subtitle_get Y requested subtitle_url with
            | inl response =>
                if (status_code response =? 200)%Z
                then (Return (parse_vtt_content U other_digit (text response)),
                      requested ++ [subtitle_url])
                else try_entries U other_digit Y rest (requested ++ [subtitle_url])
            | inr e => (Throw e, requested ++ [subtitle_url])
            end
        end
      else try_entries U other_digit Y rest requested
  end.

(** The loop over the items of [info['subtitles']] or of
    [info['automatic_captions']]. *)
Fixpoint try_items (U : unicode_db) (other_digit : char -> bool) (Y : ytdlp_env)
    (items : list (pystr * list subtitle)) (requested : list pystr)
  : flow * list pystr :=
  match items with
  | [] => (Next, requested)
  | (lang_code, entries) :: rest =>
      if bool_decide (lang_code ∈ english) then
        match try_entries U other_digit Y entries requested with
        | (Next, requested) => try_items U other_digit Y rest requested
        | stop => stop
        end
      else try_items U other_digit Y rest requested
  end.

(** One of the two [if key in info] blocks. *)
Definition try_key (U : unicode_db) (other_digit : char -> bool) (Y : ytdlp_env)
    (value : option (list (pystr * list subtitle))) (requested : list pystr)
  : flow * list pystr :=
  match value with
  | Some items => try_items U other_digit Y items requested
  | None => (Next, requested)
  end.

(** The body of the [try]. *)
Definition get_transcript_ytdlp_body (U : unicode_db) (other_digit : char -> bool)
    (Y : ytdlp_env) (video_url : pystr) : flow * list pystr :=
  match import_yt_dlp Y with
  | Some e => (Throw e, [])
  | None =>
      match extract_info Y video_url with
      | inr e => (Throw e, [])
      | inl info =>
          match try_key U other_digit Y (subtitles info) [] with
          | (Next, requested) =>
              try_key U other_digit Y (automatic_captions info) requested
          | stop => stop
          end
      end
  end.

(** [get_transcript_ytdlp(video_id, video_url)]: the returned string
    and the URLs requested. *)
Definition get_transcript_ytdlp (U : unicode_db) (other_digit : char -> bool)
    (Y : ytdlp_env) (video_id video_url : pystr) : pystr * list pystr :=
  match get_transcript_ytdlp_body U other_digit Y video_url with
  | (Return r, requested) => (r, requested)
  | (Next, requested) => (NO_SUBTITLES, requested)
  | (Throw e, requested) =>
      (if is_import_error e then YTDLP_NOT_INSTALLED
       else failed "yt-dlp error: " ++ message e, requested)
  end.

End Strategy.

(** ** [summarize_with_api] *)

(** An exception raised in the inner [try] of [summarize_with_api], by
    the class that selects its handler. *)
Inductive request_exception :=
  | RequestTimeout                  (* requests.exceptions.Timeout *)
  | RequestException (msg : pystr)  (* another requests.exceptions.RequestException *)
  | OtherException (msg : pystr).   (* any other Exception *)

(** The environment of [summarize_with_api]: the imports and
    [load_dotenv()] at the head of its [try]; the variable
    [OPENROUTER_API_KEY]; what [requests.post] comes to for a key, a
    model and a transcript, which determine the request; and the reads
    of the JSON body of a response. *)
Record api_env := {
  load_dotenv : result unit;
  getenv : option pystr;
  requests_post : pystr -> pystr -> pystr -> response + request_exception;
  (* result = response.json(); 'choices' in result and len(result['choices']) > 0 *)
  json_has_choices : response -> bool + request_exception;
  (* result['choices'][0]['message']['content'] *)
  first_choice_content : response -> pystr + request_exception
}.

Definition API_KEY_NOT_FOUND : pystr :=
  failed "API key not found. Please set OPENROUTER_API_KEY in your .env file".
Definition ALL_MODELS_FAILED : pystr :=
  failed "All API models failed. Please check your API key and try again.".

Definition models : list pystr :=
  map py ["anthropic/claude-3-5-sonnet-20241022";
          "anthropic/claude-3-sonnet-20240229";
          "openai/gpt-4o";
          "openai/gpt-3.5-turbo"]%string.

(** [print(text)] inside the inner [try], followed by [k]: an exception
    of [print] is not one of [requests]. *)
Definition after_print {A} (O : stdout) (text : pystr) (k : A + request_exception)
  : A + request_exception :=
  match print O text with
  | Ok _ => k
  | Raise e => inr (OtherException e)
  end.

(** The body of the inner [try] for one model: [Some] is the value that
    the function returns from inside the loop, [None] means [continue].
    The second component tells whether the request was sent. *)
Definition try_model (O : stdout) (A : api_env) (API_KEY transcript model : pystr)
  : (option pystr + request_exception) * bool :=
  match print O (py "Trying model: " ++ model) with
  | Raise e => (inr (OtherException e), false)
  | Ok _ =>
      (match requests_post A API_KEY model transcript with
       | inr e => inr e
       | inl response =>
           if (status_code response =? 200)%Z then
             match json_has_choices A response with
             | inr e => inr e
             | inl true =>
                 after_print O (CHECK :: py " Success with model: " ++ model)
                   match first_choice_content A response with
                   | inl content => inl (Some content)
                   | inr e => inr e
                   end
             | inl false =>
                 after_print O
                   (CROSS :: py " Unexpected response format for model: " ++ model)
                   (inl None)
             end
           else if (status_code response =? 404)%Z then
             after_print O (CROSS :: py " Model not found: " ++ model) (inl None)
           else
             after_print O
               (CROSS :: py " API Error " ++ str_of_int (status_code response)
                  ++ py " for model " ++ model ++ py ": " ++ text response)
               (inl None)
       end,
       true)
  end.

(** What the three handlers of the inner [try] print. *)
Definition handler_message (model : pystr) (e : request_exception) : pystr :=
  match e with
  | RequestTimeout => CROSS :: py " Timeout for model: " ++ model
  | RequestException msg =>
      CROSS :: py " Request error for model " ++ model ++ py ": " ++ msg
  | OtherException msg =>
      CROSS :: py " Error with model " ++ model ++ py ": " ++ msg
  end.

(** The [for model in models] loop.  An exception of the inner [try] is
    printed by its handler and the loop goes on; an exception of that
    [print] leaves the loop.  The second component lists the models
    requested, in order. *)
Fixpoint try_models (O : stdout) (A : api_env) (API_KEY transcript : pystr)
    (ms : list pystr) : result (option pystr) * list pystr :=
  match ms with
  | [] => (Ok None, [])
  | model :: rest =>
      let '(attempt, sent) := try_model O A API_KEY transcript model in
      let requested := if sent then [model] else [] in
      let continue :=
        let '(r, later) := try_models O A API_KEY transcript rest in
        (r, requested ++ later) in
      match attempt with
      | inl (Some content) => (Ok (Some content), requested)
      | inl None => continue
      | inr e =>
          match print O (handler_message model e) with
          | Ok _ => continue
          | Raise e' => (Raise e', requested)
          end
      end
  end.

Definition API_SUMMARIZATION_ERROR : pystr := failed "API summarization error: ".

(** [summarize_with_api(transcript)]: the returned string and the
    models requested on the way.  The outer handler prints nothing, so
    the function always returns. *)
Definition summarize_with_api (O : stdout) (A : api_env) (transcript : pystr)
  : pystr * list pystr :=
  match load_dotenv A with
  | Raise e => (API_SUMMARIZATION_ERROR ++ e, [])
  | Ok _ =>
      match getenv A with
      | None => (API_KEY_NOT_FOUND, [])
      | Some API_KEY =>
          if negb (nonempty API_KEY) then (API_KEY_NOT_FOUND, [])
          else if negb (nonempty (str_strip transcript)) then (EMPTY_TRANSCRIPT, [])
          else match try_models O A API_KEY transcript models with
               | (Ok (Some content), requested) => (content, requested)
               | (Ok None, requested) => (ALL_MODELS_FAILED, requested)
               | (Raise e, requested) => (API_SUMMARIZATION_ERROR ++ e, requested)
               end
      end
  end.

(** ** The application *)

(** [st.session_state]. *)
Record session_state := {
  transcript : pystr;
  summary : pystr
}.

Definition initial_state : session_state := {| transcript := []; summary := [] |}.

(** The handler of the "Fetch Transcript" button.  An exception of
    [get_transcript] ends the run of the script and leaves the state as
    it is. *)
Definition fetch_transcript (U : unicode_db) (O : stdout) (net : strategies)
    (video_url : pystr) (state : session_state) : session_state :=
  if nonempty (str_strip video_url) then
    match (get_transcript U O net video_url).1 with
    | Ok transcript_result =>
        if startswith [CROSS] transcript_result then state
        else {| transcript := transcript_result; summary := summary state |}
    | Raise _ => state
    end
  else state.

(** The handler of the "Save Transcript" button. *)
Definition save_transcript (U : unicode_db) (manual_transcript : pystr)
    (state : session_state) : session_state :=
  if nonempty (str_strip manual_transcript) then
    {| transcript := clean_transcript U manual_transcript; summary := summary state |}
  else state.

(** The handler of the "Generate AI Summary" button, which is rendered
    only while the stored transcript is non-empty; the second component
    lists the models requested. *)
Definition generate_summary (O : stdout) (A : api_env) (state : session_state)
  : session_state * list pystr :=
  if nonempty (transcript state) then
    let '(summary_result, requested) := summarize_with_api O A (transcript state) in
    if startswith [CROSS] summary_result then (state, requested)
    else ({| transcript := transcript state; summary := summary_result |}, requested)
  else (state, []).

(** What the user does, with the environment in which it happens.  The
    script stops before it renders the widgets when no API key is set;
    the handlers are modelled for every environment, which covers the
    runs that get to them. *)
Inductive event :=
  | FetchTranscript (O : stdout) (net : strategies) (video_url : pystr)
  | SaveTranscript (manual_transcript : pystr)
  | GenerateSummary (O : stdout) (A : api_env).

Definition handle (U : unicode_db) (state : session_state) (e : event) : session_state :=
  match e with
  | FetchTranscript out net video_url => fetch_transcript U out net video_url state
  | SaveTranscript manual_transcript => save_transcript U manual_transcript state
  | GenerateSummary out A => (generate_summary out A state).1
  end.

(** The session after a sequence of events, from the initial state. *)
Definition session (U : unicode_db) (events : list event) : session_state :=
  fold_left (handle U) events initial_state.

(** * Vocabulary of the properties *)

(** ** The fetch pipeline *)

(** A strategy fails on [(video_id, video_url)] when it raises or
    returns a string that starts with the failure marker. *)
Definition strategy_fails (video_id video_url : pystr) (m : method) : Prop :=
  match method_func m video_id video_url with
  | Ok result => startswith [CROSS] result = true
  | Raise _ => True
  end.

(** The standard output takes every character. *)
Definition encodes_all (O : stdout) : Prop := ∀ c, encodes O c = true.

(** The two markers that report an invalid URL. *)
Definition invalid_url_marker (r : pystr) : Prop :=
  r = INVALID_URL_FORMAT ∨ r = INVALID_VIDEO_ID.

(** ** The summarizer *)

(** The distinct elements of [l], in the order of their first
    occurrence, after those of [seen]. *)
Definition distinct_after (seen l : list pystr) : list pystr :=
  foldl (λ acc s, if bool_decide (s ∈ acc) then acc else acc ++ [s]) seen l.

(** The run of [summarize_text] reaches the selection: the data check
    passes, the collapsed transcript is non-empty and splits into
    [sentences], more than [max_sentences], the frequency map is
    non-empty and the second loop ends with [scores]. *)
Definition reaches_selection (U : unicode_db) (E : nltk_env)
    (transcript : pystr) (max_sentences : Z)
    (sentences : list pystr) (scores : list (pystr * nat)) : Prop :=
  ensure_nltk_data E = true
  ∧ collapse_ws transcript ≠ []
  ∧ split_sentences E (collapse_ws transcript) = sentences
  ∧ (max_sentences < Z.of_nat (length sentences))%Z
  ∧ ∃ word_freq,
      word_frequencies U E (load_resources E).1 (load_resources E).2 ∅ sentences
      = Ok word_freq
      ∧ word_freq ≠ ∅
      ∧ sentence_scores U E (load_resources E).1 (load_resources E).2 word_freq []
                        sentences = Ok scores.

(** ** The shape of the normalized text *)

(** The non-empty fields: [str_split] is [chunks isspace]. *)
Definition chunks (p : char → bool) (s : pystr) : list pystr :=
  filter (λ f, nonempty f = true) (fields p s).

(** A non-empty run of characters outside the class [p]. *)
Definition run_outside (p : char → bool) (w : pystr) : Prop :=
  w ≠ [] ∧ Forall (λ c, p c = false) w.

Definition starts_outside (p : char → bool) (s : pystr) : Prop :=
  match s with
  | [] => True
  | c :: _ => p c = false
  end.

Definition ends_outside (p : char → bool) (s : pystr) : Prop :=
  starts_outside p (rev s).

(** Neither the first nor the last character is whitespace. *)
Definition trimmed (s : pystr) : Prop :=
  starts_outside isspace s ∧ ends_outside isspace s.

(** What [re.sub(r'\s+', ' ', s)] leaves of the whitespace before the
    first word. *)
Definition leading_space (b : bool) (s : pystr) : pystr :=
  if b then [] else
    match s with
    | c :: _ => if isspace c then [SPACE] else []
    | [] => []
    end.

(** No two characters of the class [p] are adjacent. *)
Fixpoint isolated (p : char → bool) (s : pystr) : Prop :=
  match s with
  | [] => True
  | c :: r => (p c = true → starts_outside p r) ∧ isolated p r
  end.

(** Whitespace occurs only as single spaces. *)
Definition single_spaced (s : pystr) : Prop :=
  isolated isspace s ∧ Forall (λ c, isspace c = true → c = SPACE) s.

(** Whitespace and sentence terminators separate the atoms of a text;
    no step after the tag removal looks inside an atom. *)
Definition is_sep (c : char) : bool := isspace c || is_terminator c.

Definition atoms (s : pystr) : list pystr := chunks is_sep s.

(** A word that holds exactly one atom: in the normalized text a word
    is an atom, or the last atom of a sentence with the period after
    it. *)
Definition one_atom (w : pystr) : Prop := length (atoms w) = 1%nat.

(** A sentence as the normalizer emits it: non-empty, trimmed,
    single-spaced and without a terminator. *)
Definition clean_sentence (u : pystr) : Prop :=
  u ≠ [] ∧ trimmed u ∧ single_spaced u ∧ Forall (λ c, is_terminator c = false) u.

(** The steps of [clean_transcript] after the two tag substitutions. *)
Definition clean_tail (U : unicode_db) (transcript : pystr) : pystr :=
  let words := str_split transcript in
  let cleaned_words := dedup_words U None words in
  let cleaned_transcript := collapse_ws (join (py " ") cleaned_words) in
  let sentences := split_runs is_terminator false cleaned_transcript in
  let unique_sentences := fold_left add_unique sentences [] in
  sub_runs is_dot DOT false (collapse_ws (join (py ". ") unique_sentences)).

(** ** Tags *)

Definition starts_gt (r : pystr) : Prop :=
  match r with
  | c :: _ => c = GT
  | [] => False
  end.

(** No ['<'] of [s] starts a match of [<[^>]+>]: each is directly
    followed by ['>'] or has no ['>'] after it, neither in [s] nor,
    when [later] holds, beyond the end of [s]. *)
Fixpoint tagless (later : Prop) (s : pystr) : Prop :=
  match s with
  | [] => True
  | c :: r => (c = LT → starts_gt r ∨ ((GT ∉ r) ∧ (¬ later))) ∧ tagless later r
  end.

Definition tag_free (s : pystr) : Prop := tagless False s.

(** The same condition on the list of atoms of a text. *)
Fixpoint tagless_atoms (later : Prop) (l : list pystr) : Prop :=
  match l with
  | [] => True
  | a :: rest => tagless (later ∨ GT ∈ concat rest) a ∧ tagless_atoms later rest
  end.

(** ** Example runs *)

(** A standard output in UTF-8 takes every character. *)
Definition utf8 : stdout := {|
  encodes := fun _ => true;
  encode_error := fun _ => []
|}.

(** What [str(e)] is when the first character of the text is U+274C
    and the encoding is Latin-1. *)
Definition cannot_encode_cross : pystr :=
  py "'latin-1' codec can't encode character '\u274c' in position 0: ordinal not in range(256)".

(** A standard output in Latin-1 takes the characters up to U+00FF.
    In the runs below the texts it cannot take start with U+274C. *)
Definition latin1 : stdout := {|
  encodes := fun c => c <? 256;
  encode_error := fun _ => cannot_encode_cross
|}.

(** Every timedtext request gets a 200 whose only text node holds one
    space. *)
Definition blank_text_node : Strategy.web := {|
  Strategy.requests_get := fun _ =>
    Ok {| status_code := 200;
          text := py "<transcript><text> </text></transcript>" |};
  Strategy.xml_text_nodes := fun _ => Ok [Some (py " ")]
|}.

(** A run in which the first strategy fails, the second is the direct
    API strategy on [blank_text_node], and the third would have
    returned a transcript. *)
Definition empty_direct_api : strategies := {|
  get_transcript_ytdlp := fun _ _ => Ok (failed "No subtitles found with yt-dlp.");
  get_transcript_direct_api := fun video_id video_url =>
    Ok (Strategy.get_transcript_direct_api blank_text_node video_id video_url).1;
  get_transcript_web_scraping := fun _ _ => Ok (py "A transcript of the video.")
|}.

(** Two strategies return failure markers and one raises. *)
Definition failing_strategies : strategies := {|
  get_transcript_ytdlp := fun _ _ => Ok (failed "No subtitles found with yt-dlp.");
  get_transcript_direct_api := fun _ _ => Raise (py "Connection timed out");
  get_transcript_web_scraping := fun _ _ => Ok (failed "Web scraping method failed.")
|}.

(** Six sentences, four of them distinct; without NLTK data the scores
    are 5 for ["cat"], 15 for ["cat cat cat"], 32 for
    ["dog dog dog dog"] and 4 for ["eel eel"]. *)
Definition pets : pystr :=
  py "cat. cat cat cat! dog dog dog dog? cat. eel eel. dog dog dog dog".

Definition pets_sentences : list pystr :=
  map py ["cat"; "cat cat cat"; "dog dog dog dog"; "cat"; "eel eel";
          "dog dog dog dog"]%string.

Definition pets_scores : list (pystr * nat) :=
  [(py "cat", 5); (py "cat cat cat", 15); (py "dog dog dog dog", 32);
   (py "eel eel", 4)]%nat.

(** ** Further example runs and vocabulary *)

(** The first two strategies fail and the third returns text with
    markup, a repeated word and an exclamation mark. *)
Definition scraping_succeeds : strategies := {|
  get_transcript_ytdlp := fun _ _ => Ok (failed "No subtitles found with yt-dlp.");
  get_transcript_direct_api := fun _ _ => Raise (py "Connection timed out");
  get_transcript_web_scraping := fun _ _ =>
    Ok (py "<c>Markup</c> and and a repeated word. One more sentence!")
|}.

(** The first strategy returns text with a tag and an empty pair of
    angle brackets. *)
Definition angle_brackets_result : strategies := {|
  get_transcript_ytdlp := fun _ _ => Ok (py "a <i>b</i> <> c");
  get_transcript_direct_api := fun _ _ => Ok (failed "Direct API method failed.");
  get_transcript_web_scraping := fun _ _ => Ok (failed "Web scraping method failed.")
|}.

Definition AMP : char := 38.       (* '&' *)
Definition EQUALS : char := 61.    (* '=' *)
Definition QUESTION : char := 63.  (* '?' *)

(** A part of the parsed transcript: non-empty, trimmed and
    single-spaced. *)
Definition clean_part (p : pystr) : Prop :=
  p ≠ [] ∧ trimmed p ∧ single_spaced p.

(** The timing line of a cue. *)
Definition cue_timing : pystr := py "00:00:01.000 --> 00:00:04.000".

(** ** The acquisition strategies *)

(** The request for [lang] brings no transcript: it raises, or its
    response is no 200, is blank, does not parse, or has no text node
    with text. *)
Definition language_fails (W : Strategy.web) (video_id lang : pystr) : Prop :=
  match Strategy.requests_get W (Strategy.timedtext_url video_id lang) with
  | Ok response =>
      status_code response ≠ 200%Z
      ∨ str_strip (text response) = []
      ∨ match Strategy.xml_text_nodes W (text response) with
        | Ok texts => direct_api_transcript (map (default []) texts) = None
        | Raise _ => True
        end
  | Raise _ => True
  end.

(** [u] is the URL of a VTT entry that [info] lists under an English
    language code. *)
Definition english_vtt_url (info : Strategy.video_info) (u : pystr) : Prop :=
  ∃ items lang_code entries sub,
    (Strategy.subtitles info = Some items
     ∨ Strategy.automatic_captions info = Some items)
    ∧ (lang_code, entries) ∈ items
    ∧ lang_code ∈ Strategy.english
    ∧ sub ∈ entries
    ∧ Strategy.ext sub = Some (py "vtt")
    ∧ Strategy.url sub = Some u.

(** Captions are served for British English only, after the American
    ones were not found. *)
Definition british_captions : Strategy.web := {|
  Strategy.requests_get := fun url =>
    if bool_decide (url = Strategy.timedtext_url (py "abcdefghijk") (py "en-GB"))
    then Ok {| status_code := 200;
               text := py "<transcript><text> Good day </text></transcript>" |}
    else Ok {| status_code := 404; text := [] |};
  Strategy.xml_text_nodes := fun _ => Ok [Some (py " Good day ")]
|}.

(** A video with Spanish subtitles, English subtitles in two formats,
    and English automatic captions; the subtitle server answers
    [body] to every request. *)
Definition two_languages (body : pystr) : Strategy.ytdlp_env := {|
  Strategy.import_yt_dlp := None;
  Strategy.extract_info := fun _ => inl {|
    Strategy.subtitles := Some [
      (py "es", [ {| Strategy.ext := Some (py "vtt");
                     Strategy.url := Some (py "https://subs.example/es.vtt") |} ]);
      (py "en", [ {| Strategy.ext := Some (py "json3");
                     Strategy.url := Some (py "https://subs.example/en.json3") |};
                  {| Strategy.ext := Some (py "vtt");
                     Strategy.url := Some (py "https://subs.example/en.vtt") |} ]) ];
    Strategy.automatic_captions := Some [
      (py "en", [ {| Strategy.ext := Some (py "vtt");
                     Strategy.url := Some (py "https://subs.example/auto.vtt") |} ]) ]
  |};
  Strategy.subtitle_get := fun _ _ => inl {| status_code := 200; text := body |}
|}.

(** ** The summarizer, further *)

(** The number of occurrences of [w] in [l]. *)
Definition occurrences (w : pystr) (l : list pystr) : nat :=
  length (filter (λ x, x = w) l).

(** The order of the selection: a higher score first and, among equal
    scores, the sentence that occurs first in [sentences]. *)
Definition precedes (sentences : list pystr) (a b : pystr * nat) : Prop :=
  (b.2 < a.2)%nat
  ∨ (a.2 = b.2 ∧ (list_index a.1 sentences < list_index b.1 sentences)%nat).

(** The words of a sentence that pass the filter of the two list
    comprehensions, before lemmatization. *)
Definition kept_words (U : unicode_db) (E : nltk_env) (stop_words : list pystr)
    (sentence : pystr) : list pystr :=
  filter (λ word, keep_word U stop_words word = true) (tokenize_words U E sentence).

(** The sentence consists of stopwords only: every alphanumeric token
    is a stopword.  A tokenizer may give punctuation as tokens of its
    own. *)
Definition only_stopwords (U : unicode_db) (E : nltk_env) (stop_words : list pystr)
    (sentence : pystr) : Prop :=
  Forall (λ word, isalnum U word = true → word ∈ stop_words)
         (tokenize_words U E sentence).

(** An installation with its data whose tokenizers know one transcript:
    the sentence tokenizer keeps the period with its sentence and the
    word tokenizer gives it as a token of its own. *)
Definition period_tokens : nltk_env := {|
  data_find := fun _ => true;
  download_raises := fun _ => false;
  sent_tokenize := fun transcript =>
    if decide (transcript = py "the a. an and or.")
    then Ok [py "the a."; py "an and or."]
    else Raise (py "Resource punkt not found.");
  word_tokenize := fun sentence => Ok (findall_words ascii_db sentence ++ [py "."]);
  stopwords_words := Ok fallback_stop_words;
  WordNetLemmatizer := Ok ();
  lemmatize := fun word => Ok word
|}.

Definition lemmatizes (E : nltk_env) (word : pystr) : Prop :=
  ∃ lemma, lemmatize E word = Ok lemma.

(** An installation whose stopword list loads and whose lemmatizer is
    constructed, but raises when it is used: the WordNet corpus is
    missing.  The tokenizers raise, so the regular-expression fallbacks
    split sentences and words. *)
Definition missing_wordnet : nltk_env := {|
  data_find := fun _ => false;
  download_raises := fun _ => false;
  sent_tokenize := fun _ => Raise (py "Resource punkt not found.");
  word_tokenize := fun _ => Raise (py "Resource punkt not found.");
  stopwords_words := Ok fallback_stop_words;
  WordNetLemmatizer := Ok ();
  lemmatize := fun _ => Raise (py "Resource wordnet not found.")
|}.

(** ** The API summarizer and the application *)

(** The request for [model] brings no summary: it raises, or its
    response is no 200, or has no first choice, or the content of the
    first choice cannot be read. *)
Definition model_fails (A : api_env) (API_KEY transcript model : pystr) : Prop :=
  match requests_post A API_KEY model transcript with
  | inl response =>
      status_code response ≠ 200%Z
      ∨ json_has_choices A response ≠ inl true
      ∨ ∀ content, first_choice_content A response ≠ inl content
  | inr _ => True
  end.

(** An API that does not know the first two models and answers for the
    third. *)
Definition third_model_answers : api_env := {|
  load_dotenv := Ok ();
  getenv := Some (py "sk-or-v1-0123");
  requests_post := fun _ model _ =>
    if bool_decide (model = py "openai/gpt-4o")
    then inl {| status_code := 200; text := py "{}" |}
    else inl {| status_code := 404; text := py "Not Found" |};
  json_has_choices := fun _ => inl true;
  first_choice_content := fun _ => inl (py "The video is about cats.")
|}.

(** An API that times out on every request. *)
Definition api_times_out : api_env := {|
  load_dotenv := Ok ();
  getenv := Some (py "sk-or-v1-0123");
  requests_post := fun _ _ _ => inr RequestTimeout;
  json_has_choices := fun _ => inl false;
  first_choice_content := fun _ => inr (OtherException (py "'choices'"))
|}.

(** No API key is set. *)
Definition no_api_key : api_env := {|
  load_dotenv := Ok ();
  getenv := None;
  requests_post := fun _ _ _ => inr RequestTimeout;
  json_has_choices := fun _ => inl false;
  first_choice_content := fun _ => inr (OtherException (py "'choices'"))
|}.

(** * Properties *)

(** ** Substring tests *)

Lemma startswith_spec pre s :
  startswith pre s = true ↔ ∃ post, s = pre ++ post.
Proof.
  revert s. induction pre as [|a pre IH]; intros s; simpl.
  - split; [intros _; by exists s | done].
  - destruct s as [|b s]; simpl.
    + split; [done | intros [post H]; discriminate].
    + rewrite andb_true_iff, N.eqb_eq, IH. split.
      * intros [-> [post ->]]. by exists post.
      * intros [post H]. injection H as -> ->. eauto.
Qed.

Lemma contains_spec sub s :
  contains sub s = true ↔ ∃ pre post, s = pre ++ sub ++ post.
Proof.
  induction s as [|c s IH].
  - simpl. rewrite orb_false_r, startswith_spec. split.
    + intros [post H]. by exists [], post.
    + intros (pre & post & H). symmetry in H.
      apply app_eq_nil in H as [-> H]. exists post. done.
  - cbn [contains]. rewrite orb_true_iff, startswith_spec, IH. split.
    + intros [[post H] | (pre & post & H)].
      * by exists [], post.
      * exists (c :: pre), post. by rewrite H.
    + intros (pre & post & H). destruct pre as [|d pre].
      * left. by exists post.
      * right. injection H as -> ->. eauto.
Qed.

Lemma contains_rev sub s : contains (rev sub) (rev s) = contains sub s.
Proof.
  apply eq_true_iff_eq. rewrite !contains_spec. split.
  - intros (pre & post & H). exists (rev post), (rev pre).
    apply (f_equal (@rev N)) in H.
    rewrite rev_involutive in H. rewrite H.
    by rewrite !rev_app_distr, rev_involutive, <- app_assoc.
  - intros (pre & post & ->). exists (rev post), (rev pre).
    by rewrite !rev_app_distr, <- app_assoc.
Qed.

Lemma contains_lstrip sub s :
  match sub with a :: _ => isspace a = false | [] => False end →
  contains sub (lstrip s) = contains sub s.
Proof.
  intros Hsub. induction s as [|c s IH]; [done|].
  cbn [lstrip]. destruct (isspace c) eqn:Hc; [|done].
  rewrite IH. cbn [contains].
  destruct sub as [|a sub]; [done|]. simpl.
  destruct (N.eqb_spec a c) as [->|]; [congruence | done].
Qed.

(** Stripping a URL neither adds nor removes an occurrence of a
    substring that starts and ends with a non-whitespace character. *)
Lemma contains_strip sub s :
  match sub with a :: _ => isspace a = false | [] => False end →
  match rev sub with a :: _ => isspace a = false | [] => False end →
  contains sub (str_strip s) = contains sub s.
Proof.
  intros H1 H2. unfold str_strip.
  rewrite <- contains_rev, rev_involutive, contains_lstrip by done.
  rewrite <- (rev_involutive sub), contains_rev, rev_involutive.
  by apply contains_lstrip.
Qed.

(** ** The video ID *)

Lemma split_sep_nonempty sep skip s : split_sep sep skip s ≠ [].
Proof.
  revert skip. induction s as [|c s IH]; intros skip; [done|].
  simpl. destruct skip; [|apply IH].
  destruct (startswith sep (c :: s)); [done|].
  specialize (IH 0%nat). by destruct (split_sep sep 0 s).
Qed.

Lemma split_sep_two sep skip s :
  sep ≠ [] → contains sep (drop skip s) = true →
  (2 ≤ length (split_sep sep skip s))%nat.
Proof.
  intros Hsep. revert skip. induction s as [|c s IH]; intros skip H.
  - rewrite drop_nil in H. simpl in H. by destruct sep.
  - cbn [split_sep]. destruct skip as [|k]; [|by apply IH].
    destruct (startswith sep (c :: s)) eqn:Hst.
    + pose proof (split_sep_nonempty sep (length sep - 1) s).
      destruct (split_sep sep (length sep - 1) s); [done | simpl; lia].
    + rewrite drop_0 in H. cbn [contains] in H. rewrite Hst in H.
      specialize (IH 0%nat H).
      destruct (split_sep sep 0 s); simpl in *; lia.
Qed.

Lemma getitem_split_sep sep s :
  sep ≠ [] → contains sep s = true →
  ∃ rest first,
    getitem (str_split_on sep s) 1 = Ok rest
    ∧ str_split_on sep s !! 0%nat = Some first.
Proof.
  intros Hsep H. pose proof (split_sep_two sep 0 s Hsep H) as Hlen.
  unfold getitem, str_split_on.
  destruct (split_sep sep 0 s) as [|a [|b l]]; simpl in *; try lia.
  by exists b, a.
Qed.

Lemma getitem_first sep s : ∃ first, getitem (str_split_on sep s) 0 = Ok first.
Proof.
  unfold getitem, str_split_on. pose proof (split_sep_nonempty sep 0 s).
  destruct (split_sep sep 0 s) as [|a l]; [done|]. by exists a.
Qed.

(** No index of the extraction is out of range: the outer [except] is
    never reached from here. *)
Lemma extract_video_id_returns video_url :
  ∃ extracted, extract_video_id video_url = Ok extracted.
Proof.
  unfold extract_video_id.
  destruct (contains (py "v=") video_url) eqn:H1.
  { destruct (getitem_split_sep (py "v=") video_url) as (rest & ? & -> & _); [done..|].
    destruct (getitem_first (py "&") rest) as [v Hv].
    cbn [mbind result_bind]. rewrite Hv. by eexists. }
  destruct (contains (py "youtu.be/") video_url) eqn:H2.
  { destruct (getitem_split_sep (py "youtu.be/") video_url) as (rest & ? & -> & _); [done..|].
    destruct (getitem_first (py "?") rest) as [v Hv].
    cbn [mbind result_bind]. rewrite Hv. by eexists. }
  destruct (contains (py "youtube.com/embed/") video_url) eqn:H3.
  { destruct (getitem_split_sep (py "youtube.com/embed/") video_url)
      as (rest & ? & -> & _); [done..|].
    destruct (getitem_first (py "?") rest) as [v Hv].
    cbn [mbind result_bind]. rewrite Hv. by eexists. }
  by eexists.
Qed.

(** ** Standard output *)

Lemma printable_all O text : encodes_all O → printable O text = true.
Proof.
  intros HO. unfold printable. induction text as [|c text IH]; [done|].
  cbn [forallb]. by rewrite HO, orb_true_r, IH.
Qed.

Lemma print_all O text : encodes_all O → print O text = Ok ().
Proof. intros HO. unfold print. by rewrite printable_all. Qed.

Lemma print_raises O text e : print O text = Raise e → printable O text = false.
Proof. unfold print. by destruct (printable O text). Qed.

(** ** The fetch pipeline *)

(** With a standard output that takes every message, a failing
    strategy has been invoked and the loop goes on. *)
Lemma try_methods_fail_step U O m rest video_id video_url :
  encodes_all O → strategy_fails video_id video_url m →
  try_methods U O (m :: rest) video_id video_url
  = let '(r, calls) := try_methods U O rest video_id video_url in
    (r, method_name m :: calls).
Proof.
  intros HO Hm. cbn [try_methods]. unfold try_method, strategy_fails in *.
  rewrite (print_all O) by done.
  destruct (try_methods U O rest video_id video_url) as [r calls].
  destruct (method_func m video_id video_url) as [result|e]; cbn [mbind result_bind].
  - rewrite Hm. cbn [negb]. rewrite (print_all O) by done. done.
  - rewrite (print_all O) by done. done.
Qed.

Lemma try_methods_all_fail U O ms video_id video_url :
  encodes_all O →
  Forall (strategy_fails video_id video_url) ms →
  try_methods U O ms video_id video_url = (Ok None, map method_name ms).
Proof.
  intros HO. induction 1 as [|m ms Hm _ IH]; [done|].
  by rewrite try_methods_fail_step, IH.
Qed.

Lemma try_methods_first_success U O pre m post video_id video_url r :
  encodes_all O →
  Forall (strategy_fails video_id video_url) pre →
  method_func m video_id video_url = Ok r →
  startswith [CROSS] r = false →
  try_methods U O (pre ++ m :: post) video_id video_url
  = (Ok (Some (clean_transcript U r)), map method_name pre ++ [method_name m]).
Proof.
  intros HO Hpre Hm Hr. induction Hpre as [|m' pre Hm' _ IH]; cbn [app map].
  - cbn [try_methods]. unfold try_method. rewrite (print_all O), Hm by done.
    cbn [mbind result_bind]. rewrite Hr. cbn [negb].
    rewrite (print_all O) by done. cbn [mbind result_bind].
    rewrite (print_all O) by done. done.
  - by rewrite try_methods_fail_step, IH.
Qed.

Lemma get_transcript_valid_id U O net video_url video_id :
  encodes_all O →
  extract_video_id (str_strip video_url) = Ok (Some video_id) →
  length video_id = 11%nat →
  get_transcript_body U O net video_url
  = match try_methods U O (methods net) video_id (str_strip video_url) with
    | (Ok (Some cleaned_result), calls) => (Ok cleaned_result, calls)
    | (Ok None, calls) => (Ok ALL_METHODS_FAILED, calls)
    | (Raise e, calls) => (Raise e, calls)
    end.
Proof.
  intros HO Hid Hlen. unfold get_transcript_body, fetch_with_id. rewrite Hid, Hlen.
  destruct video_id; [done|]. cbn [nonempty negb orb Nat.eqb].
  by rewrite (print_all O) by done.
Qed.

(** C1: a timedtext response whose only text node holds one space
    passes the test [if text.text], is stripped afterwards, and the
    direct API strategy returns the empty string.  The pipeline tests
    a result by its failure-marker prefix only: it returns the empty
    string as the transcript after two strategies and never invokes
    the third.  The sibling path [parse_vtt_content] reports a
    subtitle file whose only text line is one space as a failure. *)
Theorem empty_result_not_failure :
  Strategy.get_transcript_direct_api blank_text_node
    (py "abcdefghijk") (py "https://youtu.be/abcdefghijk")
  = ([], [Strategy.timedtext_url (py "abcdefghijk") (py "en")])
  ∧ get_transcript ascii_db utf8 empty_direct_api (py "https://youtu.be/abcdefghijk")
    = (Ok [], [py "yt-dlp Method"; py "Direct API Method"])
  ∧ parse_vtt_content ascii_db (λ _, false) (py "WEBVTT" ++ [NEWLINE; SPACE])
    = NO_VTT_CONTENT.
Proof. by vm_compute. Qed.

(** C6: with a standard output in Latin-1, the message about the first
    strategy's failure cannot be printed, nor can the message of the
    handler: the loop is left after one strategy and the result is the
    unexpected-error marker, not the all-methods-failed marker. *)
Theorem failure_message_ends_loop :
  Forall (strategy_fails (py "abcdefghijk")
            (py "https://www.youtube.com/watch?v=abcdefghijk&t=10"))
         (methods failing_strategies)
  ∧ get_transcript ascii_db latin1 failing_strategies
      (py "https://www.youtube.com/watch?v=abcdefghijk&t=10")
    = (Ok (UNEXPECTED_ERROR ++ cannot_encode_cross), [py "yt-dlp Method"])
  ∧ UNEXPECTED_ERROR ++ cannot_encode_cross ≠ ALL_METHODS_FAILED.
Proof. split; [by repeat constructor | by vm_compute]. Qed.

(** With a standard output that takes every message the loop runs to
    its end: when the URL yields an 11-character video ID and every
    strategy fails, by returning a failure marker or by raising, the
    body of [get_transcript] raises nothing, every strategy has been
    invoked, in order, and the result is the all-methods-failed
    marker. *)
Lemma all_strategies_fail U O net video_url video_id :
  encodes_all O →
  extract_video_id (str_strip video_url) = Ok (Some video_id) →
  length video_id = 11%nat →
  Forall (strategy_fails video_id (str_strip video_url)) (methods net) →
  get_transcript_body U O net video_url
  = (Ok ALL_METHODS_FAILED, map method_name (methods net))
  ∧ get_transcript U O net video_url
    = (Ok ALL_METHODS_FAILED,
       [py "yt-dlp Method"; py "Direct API Method"; py "Web Scraping Method"]).
Proof.
  intros HO Hid Hlen Hall. unfold get_transcript.
  rewrite (get_transcript_valid_id _ _ _ _ _ HO Hid Hlen).
  by rewrite (try_methods_all_fail _ _ _ _ _ HO Hall).
Qed.

(** C7: a URL that contains none of ["v="], ["youtu.be/"] and
    ["youtube.com/embed/"], or whose extracted ID is not 11 characters
    long, gets an invalid-URL marker, and no strategy is invoked. *)
Theorem invalid_url_no_strategy U O net video_url :
  (contains (py "v=") video_url = false
   ∧ contains (py "youtu.be/") video_url = false
   ∧ contains (py "youtube.com/embed/") video_url = false)
  ∨ (∃ video_id, extract_video_id (str_strip video_url) = Ok (Some video_id)
                 ∧ length video_id ≠ 11%nat) →
  ∃ r, get_transcript U O net video_url = (Ok r, []) ∧ invalid_url_marker r.
Proof.
  intros [(H1 & H2 & H3) | (video_id & Hid & Hlen)].
  - exists INVALID_URL_FORMAT. split; [|by left].
    unfold get_transcript, get_transcript_body, extract_video_id.
    rewrite !contains_strip by done. by rewrite H1, H2, H3.
  - exists INVALID_VIDEO_ID. split; [|by right].
    unfold get_transcript, get_transcript_body, fetch_with_id. rewrite Hid.
    destruct (Nat.eqb_spec (length video_id) 11) as [|_]; [done|].
    by rewrite orb_true_r.
Qed.

Lemma invalid_url_no_strategy_witness :
  (∃ r, get_transcript ascii_db latin1 failing_strategies (py "https://example.com/watch")
        = (Ok r, []) ∧ invalid_url_marker r)
  ∧ (∃ r, get_transcript ascii_db latin1 failing_strategies (py "https://youtu.be/short")
          = (Ok r, []) ∧ invalid_url_marker r).
Proof.
  split.
  - apply (invalid_url_no_strategy ascii_db latin1 failing_strategies
             (py "https://example.com/watch")).
    left. repeat split; reflexivity.
  - apply (invalid_url_no_strategy ascii_db latin1 failing_strategies
             (py "https://youtu.be/short")).
    right. exists (py "short"). split; [reflexivity | simpl; lia].
Defined.

(** ** The summarizer: early returns *)

Lemma nonempty_true s : s ≠ [] → nonempty s = true.
Proof. by destruct s. Qed.

(** C8, counterexample: without NLTK's sentence tokenizer the
    transcript ["..."] is non-empty after whitespace collapse and splits
    into no sentence at all, which is at most 10; the result is the
    no-sentences marker, not the transcript. *)
Lemma zero_sentences_not_verbatim :
  collapse_ws (py "...") = py "..."
  ∧ split_sentences no_nltk (collapse_ws (py "...")) = []
  ∧ summarize_text ascii_db no_nltk (py "...") 10 = NO_SENTENCES
  ∧ summarize_text ascii_db no_nltk (py "...") 10 ≠ collapse_ws (py "...").
Proof. by vm_compute. Qed.

(** C8, amended: when the NLTK data check passes and the transcript,
    non-empty after whitespace collapse, splits into at least one and at
    most [max_sentences] sentences, the result is the
    whitespace-collapsed transcript. *)
Theorem short_transcript_verbatim U E transcript max_sentences :
  ensure_nltk_data E = true →
  collapse_ws transcript ≠ [] →
  split_sentences E (collapse_ws transcript) ≠ [] →
  (Z.of_nat (length (split_sentences E (collapse_ws transcript))) ≤ max_sentences)%Z →
  summarize_text U E transcript max_sentences = collapse_ws transcript.
Proof.
  intros Hdata Ht Hsome Hmax. unfold summarize_text, summarize_body.
  rewrite Hdata, (nonempty_true _ Ht). cbn [negb].
  destruct (split_sentences E (collapse_ws transcript)) as [|s l] eqn:Hs; [done|].
  cbn [length Nat.eqb] in *.
  by destruct (Z.leb_spec (Z.of_nat (Datatypes.S (length l))) max_sentences); [|lia].
Qed.

Lemma short_transcript_verbatim_witness :
  summarize_text ascii_db no_nltk (py "The  cat sat. The dog ran.") 10
  = py "The cat sat. The dog ran.".
Proof.
  apply (short_transcript_verbatim ascii_db no_nltk
           (py "The  cat sat. The dog ran.") 10).
  - reflexivity.
  - by vm_compute.
  - by vm_compute.
  - by vm_compute.
Defined.

Lemma counter_update_empty word_freq words :
  counter_update word_freq words = ∅ → word_freq = ∅ ∧ words = [].
Proof.
  revert word_freq. induction words as [|w words IH]; intros word_freq H; [done|].
  unfold counter_update in *. cbn [foldl] in H.
  destruct (IH _ H) as [Hins _]. by apply insert_non_empty in Hins.
Qed.

Lemma mapM_nil {A B} (f : A → result B) l : mapM f l = Ok [] → l = [].
Proof.
  destruct l as [|x l]; [done|]. cbn [mapM].
  destruct (f x); [|done]. cbn [mbind result_bind]. by destruct (mapM f l).
Qed.

(** A sentence adds nothing to the frequency map exactly when the
    filter keeps none of its tokens. *)
Lemma content_words_nil U E stop_words lemmatizer sentence :
  content_words U E stop_words lemmatizer sentence = Ok []
  ↔ kept_words U E stop_words sentence = [].
Proof.
  unfold content_words. fold (kept_words U E stop_words sentence). split.
  - destruct lemmatizer; [apply mapM_nil | by intros [= ->]].
  - intros ->. by destruct lemmatizer.
Qed.

(** The first loop ends with an empty frequency map exactly when it
    started with one and the filter keeps no token of any sentence. *)
Lemma word_frequencies_empty U E stop_words lemmatizer word_freq sentences :
  word_frequencies U E stop_words lemmatizer word_freq sentences = Ok ∅
  ↔ word_freq = ∅ ∧ Forall (λ s, kept_words U E stop_words s = []) sentences.
Proof.
  revert word_freq. induction sentences as [|s l IH]; intros word_freq;
    cbn [word_frequencies].
  - split; [intros [= ->]; by split | by intros [-> _]].
  - rewrite Forall_cons, <- (content_words_nil U E stop_words lemmatizer s).
    destruct (content_words U E stop_words lemmatizer s) as [ws|e];
      cbn [mbind result_bind]; [|split; [done | by intros (_ & ? & _)]].
    rewrite IH. split.
    + intros [[-> ->]%counter_update_empty Hl]. done.
    + intros (-> & [= ->] & Hl). done.
Qed.

(** The filter keeps no token of a sentence that consists of stopwords
    only. *)
Lemma only_stopwords_filtered U E stop_words sentence :
  only_stopwords U E stop_words sentence → kept_words U E stop_words sentence = [].
Proof.
  unfold only_stopwords, kept_words.
  induction 1 as [|w ws Hw _ IH]; [done|].
  rewrite filter_cons_False; [done|]. unfold keep_word.
  destruct (isalnum U w); [|done].
  rewrite (bool_decide_eq_true_2 _ (Hw eq_refl)). done.
Qed.

(** C2, counterexample: ["the a an and or"] consists of stopwords only,
    is one sentence, and with the default [max_sentences] of 10 comes
    back unchanged instead of the no-meaningful-words marker. *)
Lemma all_stopwords_returned_verbatim :
  Forall (λ s, Forall (λ w, w ∈ (load_resources no_nltk).1)
                 (tokenize_words ascii_db no_nltk s))
         (split_sentences no_nltk (collapse_ws (py "the a an and or")))
  ∧ summarize_text ascii_db no_nltk (py "the a an and or") 10
    = py "the a an and or"
  ∧ summarize_text ascii_db no_nltk (py "the a an and or") 10
    ≠ NO_MEANINGFUL_WORDS.
Proof.
  split; [|by vm_compute].
  apply (bool_decide_unpack _). by vm_compute.
Qed.

(** C2, amended: when the NLTK data check passes and the transcript,
    not blank, has more sentences than [max_sentences], at least one:
    a transcript that consists of stopwords only ends the first loop
    with an empty frequency map; the frequency map ends empty exactly
    when the filter keeps no token of any sentence; and the case where
    it ends empty is reported by the no-meaningful-words marker. *)
Theorem all_stopwords_no_meaningful_words U E transcript max_sentences :
  ensure_nltk_data E = true →
  collapse_ws transcript ≠ [] →
  split_sentences E (collapse_ws transcript) ≠ [] →
  (max_sentences < Z.of_nat (length (split_sentences E (collapse_ws transcript))))%Z →
  let sentences := split_sentences E (collapse_ws transcript) in
  let stop_words := (load_resources E).1 in
  let word_freq :=
    word_frequencies U E stop_words (load_resources E).2 ∅ sentences in
  (Forall (only_stopwords U E stop_words) sentences → word_freq = Ok ∅)
  ∧ (word_freq = Ok ∅ ↔ Forall (λ s, kept_words U E stop_words s = []) sentences)
  ∧ (word_freq = Ok ∅ →
     summarize_text U E transcript max_sentences = NO_MEANINGFUL_WORDS).
Proof.
  intros Hdata Ht Hsome Hmax. cbn zeta. split_and!.
  - intros Hstop. apply word_frequencies_empty. split; [done|].
    eapply Forall_impl; [exact Hstop|]. apply only_stopwords_filtered.
  - rewrite word_frequencies_empty. split; [by intros [_ ?] | by split].
  - intros Hfreq. unfold summarize_text, summarize_body.
    rewrite Hdata, (nonempty_true _ Ht). cbn [negb].
    destruct (split_sentences E (collapse_ws transcript)) as [|s l] eqn:Hs; [done|].
    cbn [length Nat.eqb] in *.
    destruct (Z.leb_spec (Z.of_nat (Datatypes.S (length l))) max_sentences); [lia|].
    destruct (load_resources E) as [stop_words lemmatizer]. cbn [fst snd] in Hfreq.
    rewrite Hfreq. cbn [mbind result_bind]. by rewrite bool_decide_eq_true_2.
Qed.

Lemma all_stopwords_no_meaningful_words_witness :
  summarize_text ascii_db period_tokens (py "the a. an and or.") 1
  = NO_MEANINGFUL_WORDS.
Proof.
  destruct (all_stopwords_no_meaningful_words ascii_db period_tokens
              (py "the a. an and or.") 1) as (Hstop & _ & Hmarker).
  - reflexivity.
  - by vm_compute.
  - by vm_compute.
  - by vm_compute.
  - apply Hmarker, Hstop. apply (bool_decide_unpack _). by vm_compute.
Defined.

(** ** The stable sort *)

Section sorted.
Context {A : Type} (key : A → nat).

Lemma sorted_insert_perm reverse x l : sorted_insert key reverse x l ≡ₚ x :: l.
Proof.
  induction l as [|y l IH]; [done|]. cbn [sorted_insert].
  destruct (if reverse then _ else _); [|done].
  rewrite IH. apply Permutation_swap.
Qed.

Lemma sorted_perm reverse l : sorted key reverse l ≡ₚ l.
Proof.
  induction l as [|x l IH]; [done|]. unfold sorted in *. cbn [foldr].
  by rewrite sorted_insert_perm, IH.
Qed.

Lemma sorted_insert_ascending x l :
  StronglySorted (λ a b, key a ≤ key b)%nat l →
  StronglySorted (λ a b, key a ≤ key b)%nat (sorted_insert key false x l).
Proof.
  induction 1 as [|y l Hl IH Hy]; cbn [sorted_insert].
  - repeat constructor.
  - destruct (Nat.ltb_spec (key y) (key x)) as [Hlt|Hge].
    + constructor; [done|].
      rewrite sorted_insert_perm. constructor; [lia | done].
    + constructor; [by constructor|].
      constructor; [done|].
      eapply Forall_impl; [exact Hy|]. intros z Hz. simpl in Hz. lia.
Qed.

Lemma sorted_ascending l :
  StronglySorted (λ a b, key a ≤ key b)%nat (sorted key false l).
Proof.
  induction l as [|x l IH]; [constructor|].
  unfold sorted in *. cbn [foldr]. by apply sorted_insert_ascending.
Qed.

Lemma ascending_strict l :
  NoDup (map key l) →
  StronglySorted (λ a b, key a ≤ key b)%nat l →
  StronglySorted (λ a b, key a < key b)%nat l.
Proof.
  intros Hnd Hs. induction Hs as [|x l Hl IH Hx]; [constructor|].
  cbn [map] in Hnd. apply NoDup_cons in Hnd as [Hnotin Hnd].
  constructor; [by apply IH|].
  rewrite Forall_forall in Hx |- *. intros y Hy.
  specialize (Hx y Hy).
  assert (key x ≠ key y); [|lia].
  intros Heq. apply Hnotin. rewrite Heq. by apply list_elem_of_fmap_2.
Qed.
End sorted.

(** ** [list.index] *)

Lemma list_index_lookup x l : x ∈ l → l !! list_index x l = Some x.
Proof.
  induction l as [|y l IH]; [by intros ?%elem_of_nil|].
  intros Hx. cbn [list_index]. destruct (decide (y = x)) as [->|Hne]; [done|].
  apply elem_of_cons in Hx as [->|Hx]; [done|]. by apply IH.
Qed.

Lemma list_index_first x l i : (i < list_index x l)%nat → l !! i ≠ Some x.
Proof.
  revert i. induction l as [|y l IH]; intros i Hi; [done|].
  cbn [list_index] in Hi. destruct (decide (y = x)) as [->|Hne]; [lia|].
  destruct i as [|i]; simpl; [congruence|]. apply IH. lia.
Qed.

Lemma list_index_inj x y l : x ∈ l → list_index x l = list_index y l → y ∈ l → x = y.
Proof.
  intros Hx Heq Hy. apply list_index_lookup in Hx, Hy.
  rewrite Heq in Hx. congruence.
Qed.

Lemma list_index_app_l x l1 l2 :
  x ∈ l1 → list_index x (l1 ++ l2) = list_index x l1 ∧ (list_index x l1 < length l1)%nat.
Proof.
  induction l1 as [|y l1 IH]; [by intros ?%elem_of_nil|].
  intros Hx. cbn [app list_index length].
  destruct (decide (y = x)) as [->|Hne]; [split; [done|lia]|].
  apply elem_of_cons in Hx as [->|Hx]; [done|].
  destruct (IH Hx) as [-> ?]. split; [done|lia].
Qed.

Lemma list_index_app_r x l1 l2 :
  x ∉ l1 → list_index x (l1 ++ x :: l2) = length l1.
Proof.
  induction l1 as [|y l1 IH]; intros Hx; cbn [app list_index length].
  - by rewrite decide_True.
  - apply not_elem_of_cons in Hx as [Hne Hx].
    rewrite decide_False by done. by rewrite IH.
Qed.

(** ** The keys of [sentence_scores] *)

Lemma dict_set_keys {V} (d : list (pystr * V)) k v :
  map fst (dict_set d k v)
  = if bool_decide (k ∈ map fst d) then map fst d else map fst d ++ [k].
Proof.
  induction d as [|[k' v'] d IH]; [done|]. cbn [dict_set map fst].
  destruct (decide (k' = k)) as [->|Hne].
  - by rewrite bool_decide_eq_true_2 by left.
  - cbn [map fst]. rewrite IH. case_bool_decide as H1; case_bool_decide as H2; try done.
    + exfalso. apply H2. by right.
    + exfalso. apply elem_of_cons in H2 as [?|?]; [congruence | done].
Qed.

Lemma sentence_scores_keys U E stop_words lemmatizer word_freq scores0 sentences scores :
  sentence_scores U E stop_words lemmatizer word_freq scores0 sentences = Ok scores →
  map fst scores = distinct_after (map fst scores0) sentences.
Proof.
  revert scores0. induction sentences as [|s l IH]; intros scores0 H.
  - by injection H as <-.
  - cbn [sentence_scores] in H.
    destruct (content_words U E stop_words lemmatizer s) as [ws|e]; [|done].
    cbn [mbind result_bind] in H. apply IH in H. rewrite H.
    unfold distinct_after. cbn [foldl]. by rewrite dict_set_keys.
Qed.

Lemma distinct_after_elem_of seen l x :
  x ∈ distinct_after seen l ↔ x ∈ seen ∨ x ∈ l.
Proof.
  revert seen. induction l as [|y l IH]; intros seen.
  - unfold distinct_after. simpl. rewrite elem_of_nil. tauto.
  - unfold distinct_after in *. cbn [foldl]. rewrite IH, elem_of_cons.
    case_bool_decide as Hy.
    + split; [tauto|]. intros [?|[-> |?]]; tauto.
    + rewrite elem_of_app, list_elem_of_singleton. tauto.
Qed.

Lemma distinct_after_NoDup seen l : NoDup seen → NoDup (distinct_after seen l).
Proof.
  revert seen. induction l as [|y l IH]; intros seen Hnd; [done|].
  unfold distinct_after in *. cbn [foldl]. apply IH.
  case_bool_decide as Hy; [done|].
  apply NoDup_app. split_and!; [done| |apply NoDup_singleton].
  intros x Hx ->%list_elem_of_singleton. done.
Qed.

(** The keys are in the order of their first occurrence. *)
Lemma distinct_after_ordered before seen l :
  (∀ x, x ∈ seen ↔ x ∈ before) →
  StronglySorted (λ a b, list_index a (before ++ l) < list_index b (before ++ l))%nat seen →
  StronglySorted (λ a b, list_index a (before ++ l) < list_index b (before ++ l))%nat
                 (distinct_after seen l).
Proof.
  revert before seen. induction l as [|y l IH]; intros before seen Hsame Hs; [done|].
  unfold distinct_after in *. cbn [foldl].
  replace (before ++ y :: l) with ((before ++ [y]) ++ l) in * by by rewrite <- app_assoc.
  apply IH.
  - intros x. case_bool_decide as Hy.
    + rewrite elem_of_app, list_elem_of_singleton, <- Hsame.
      split; [tauto|]. intros [?| ->]; done.
    + rewrite !elem_of_app, Hsame. tauto.
  - case_bool_decide as Hy; [done|].
    apply StronglySorted_app_2; [|done|repeat constructor].
    intros a b Ha ->%list_elem_of_singleton.
    rewrite <- app_assoc. cbn [app].
    rewrite list_index_app_r by by rewrite <- Hsame.
    apply Hsame in Ha. by destruct (list_index_app_l a before (y :: l) Ha) as [-> ?].
Qed.

Lemma distinct_ordered l :
  StronglySorted (λ a b, list_index a l < list_index b l)%nat (distinct_after [] l).
Proof. apply (distinct_after_ordered [] [] l); [done | constructor]. Qed.

(** ** The selection *)

Lemma slice_to_sublist {A} (n : Z) (l : list A) : slice_to n l `sublist_of` l.
Proof. unfold slice_to. destruct (0 <=? n)%Z; apply sublist_take. Qed.

Lemma slice_to_all {A} (n : Z) (l : list A) :
  (Z.of_nat (length l) ≤ n)%Z → slice_to n l = l.
Proof.
  intros Hn. unfold slice_to.
  destruct (Z.leb_spec 0 n); [|lia]. apply take_ge. lia.
Qed.

Section selection.
Context (sentences : list pystr) (scores : list (pystr * nat)) (max_sentences : Z).
Hypothesis Hkeys : map fst scores = distinct_after [] sentences.

Lemma scores_keys_NoDup : NoDup (map fst scores).
Proof. rewrite Hkeys. apply distinct_after_NoDup. constructor. Qed.

Lemma scores_keys_elem_of s : s ∈ map fst scores → s ∈ sentences.
Proof.
  rewrite Hkeys, distinct_after_elem_of. intros [[]%elem_of_nil|]; done.
Qed.

Lemma top_sentences_keys :
  ∃ chosen, chosen `sublist_of` map fst (sorted snd true scores)
            ∧ map fst (top_sentences sentences scores max_sentences) ≡ₚ chosen.
Proof.
  exists (map fst (slice_to max_sentences (sorted snd true scores))). split.
  - apply (fmap_sublist fst), slice_to_sublist.
  - unfold top_sentences. apply (fmap_Permutation fst), sorted_perm.
Qed.

Lemma top_sentences_NoDup :
  NoDup (map fst (top_sentences sentences scores max_sentences)).
Proof.
  destruct top_sentences_keys as (chosen & Hsub & ->).
  eapply sublist_NoDup; [|exact Hsub].
  pose proof (fmap_Permutation fst _ _ (sorted_perm snd true scores)) as Hp.
  apply (NoDup_Permutation_proper _ _ Hp), scores_keys_NoDup.
Qed.

Lemma top_sentences_elem_of s :
  s ∈ map fst (top_sentences sentences scores max_sentences) → s ∈ sentences.
Proof.
  destruct top_sentences_keys as (chosen & Hsub & ->). intros Hs.
  apply scores_keys_elem_of.
  pose proof (fmap_Permutation fst _ _ (sorted_perm snd true scores)) as Hp.
  apply (elem_of_sublist _ _ _ Hs) in Hsub.
  by apply (elem_of_Permutation_proper _ _ _ Hp).
Qed.

(** The selected sentences are in the order of their first
    occurrence in [sentences]. *)
Lemma top_sentences_ordered :
  StronglySorted (λ a b, list_index a sentences < list_index b sentences)%nat
                 (map fst (top_sentences sentences scores max_sentences)).
Proof.
  pose proof top_sentences_NoDup as Hnd.
  pose proof top_sentences_elem_of as Hin.
  unfold top_sentences in *.
  set (top := slice_to max_sentences (sorted snd true scores)) in *.
  set (key := λ x : pystr * nat, list_index x.1 sentences).
  apply (StronglySorted_fmap fst (λ a b, key a < key b)%nat); [done|].
  apply ascending_strict; [|apply sorted_ascending].
  change (NoDup (((λ s, list_index s sentences) ∘ fst) <$> sorted key false top)).
  rewrite list_fmap_compose.
  apply NoDup_fmap_2_strong; [|exact Hnd].
  intros x y Hx Hy Heq. apply (list_index_inj x y sentences); auto.
Qed.

(** With fewer distinct sentences than [max_sentences], all of them
    are selected. *)
Lemma top_sentences_all :
  (Z.of_nat (length (distinct_after [] sentences)) < max_sentences)%Z →
  map fst (top_sentences sentences scores max_sentences)
  = distinct_after [] sentences.
Proof.
  intros Hfew.
  apply (StronglySorted_unique_strong
           (λ a b, list_index a sentences < list_index b sentences)%nat).
  - intros; lia.
  - apply top_sentences_ordered.
  - apply distinct_ordered.
  - unfold top_sentences. rewrite slice_to_all.
    + rewrite <- Hkeys.
      etrans; [apply (fmap_Permutation fst), sorted_perm|].
      apply (fmap_Permutation fst), sorted_perm.
    + rewrite (Permutation_length (sorted_perm snd true scores)).
      rewrite <- (length_fmap fst scores).
      change (fst <$> scores) with (map fst scores). rewrite Hkeys. lia.
Qed.
End selection.

(** ** The summarizer: the selected summary *)

Lemma summarize_text_selected U E transcript max_sentences sentences scores :
  reaches_selection U E transcript max_sentences sentences scores →
  summarize_text U E transcript max_sentences
  = let summary :=
      join (py " ") (map fst (top_sentences sentences scores max_sentences)) in
    if nonempty (str_strip summary) then summary else GENERATION_FAILED.
Proof.
  intros (Hdata & Ht & Hs & Hmax & word_freq & Hfreq & Hne & Hscores).
  unfold summarize_text, summarize_body.
  rewrite Hdata, (nonempty_true _ Ht), Hs. cbn [negb].
  destruct sentences as [|s l].
  { cbn in Hfreq. injection Hfreq as <-. done. }
  cbn [length Nat.eqb] in *.
  destruct (Z.leb_spec (Z.of_nat (Datatypes.S (length l))) max_sentences); [lia|].
  destruct (load_resources E) as [stop_words lemmatizer]. cbn [fst snd] in *.
  rewrite Hfreq. cbn [mbind result_bind].
  rewrite bool_decide_eq_false_2 by done.
  rewrite Hscores. cbn [mbind result_bind].
  by destruct (nonempty _).
Qed.

Lemma reaches_selection_keys U E transcript max_sentences sentences scores :
  reaches_selection U E transcript max_sentences sentences scores →
  map fst scores = distinct_after [] sentences.
Proof.
  intros (_ & _ & _ & _ & word_freq & _ & _ & Hscores).
  by apply sentence_scores_keys in Hscores.
Qed.

(** C5: when a summary is selected (the sentence count exceeds
    [max_sentences]), the result is the selected sentences joined with
    single spaces; [list_index] gives each one's first occurrence in the
    transcript's sentence sequence, and the selected sentences are in
    the strictly increasing order of these positions, whatever their
    scores. *)
Theorem summary_in_transcript_order U E transcript max_sentences sentences scores :
  reaches_selection U E transcript max_sentences sentences scores →
  let top := map fst (top_sentences sentences scores max_sentences) in
  str_strip (join (py " ") top) ≠ [] →
  summarize_text U E transcript max_sentences = join (py " ") top
  ∧ Forall (λ s, sentences !! list_index s sentences = Some s
                 ∧ ∀ i, (i < list_index s sentences)%nat → sentences !! i ≠ Some s)
           top
  ∧ StronglySorted (λ a b, list_index a sentences < list_index b sentences)%nat top.
Proof.
  intros Hrun top Hsummary.
  pose proof (reaches_selection_keys _ _ _ _ _ _ Hrun) as Hkeys.
  split_and!.
  - rewrite (summarize_text_selected _ _ _ _ _ _ Hrun). cbn zeta.
    fold top. by rewrite (nonempty_true _ Hsummary).
  - apply Forall_forall. intros s Hs. split.
    + apply list_index_lookup.
      by apply (top_sentences_elem_of sentences scores max_sentences Hkeys).
    + intros i. apply list_index_first.
  - by apply top_sentences_ordered.
Qed.

(** C10: the scores are keyed by the sentence string, one entry per
    distinct sentence in first-occurrence order; no sentence is selected
    twice; the selection is ordered by first-occurrence index; and with
    fewer distinct sentences than [max_sentences] the summary is made of
    exactly the distinct sentences, fewer than [max_sentences]. *)
Theorem repeated_sentence_scored_once U E transcript max_sentences sentences scores :
  reaches_selection U E transcript max_sentences sentences scores →
  let top := map fst (top_sentences sentences scores max_sentences) in
  map fst scores = distinct_after [] sentences
  ∧ NoDup (map fst scores)
  ∧ NoDup top
  ∧ StronglySorted (λ a b, list_index a sentences < list_index b sentences)%nat top
  ∧ ((Z.of_nat (length (distinct_after [] sentences)) < max_sentences)%Z →
     top = distinct_after [] sentences
     ∧ (Z.of_nat (length top) < max_sentences)%Z
     ∧ (str_strip (join (py " ") top) ≠ [] →
        summarize_text U E transcript max_sentences
        = join (py " ") (distinct_after [] sentences))).
Proof.
  intros Hrun top.
  pose proof (reaches_selection_keys _ _ _ _ _ _ Hrun) as Hkeys.
  split_and!.
  - done.
  - by apply (scores_keys_NoDup sentences).
  - by apply top_sentences_NoDup.
  - by apply top_sentences_ordered.
  - intros Hfew.
    pose proof (top_sentences_all sentences scores max_sentences Hkeys Hfew) as Hall.
    fold top in Hall. split_and!; [done | by rewrite Hall |].
    intros Hsummary. rewrite (summarize_text_selected _ _ _ _ _ _ Hrun). cbn zeta.
    fold top. by rewrite (nonempty_true _ Hsummary), Hall.
Qed.

(** Discharges [reaches_selection] on a concrete run by evaluation. *)
Ltac reaches_by_evaluation :=
  unfold reaches_selection; split_and!;
  [ reflexivity | by vm_compute | by vm_compute | by vm_compute
  | eexists; split_and!; [vm_compute; reflexivity | by vm_compute | by vm_compute] ].

Lemma summary_in_transcript_order_witness :
  summarize_text ascii_db no_nltk pets 2 = py "cat cat cat dog dog dog dog"
  ∧ map fst (top_sentences pets_sentences pets_scores 2)
    = [py "cat cat cat"; py "dog dog dog dog"].
Proof.
  destruct (summary_in_transcript_order ascii_db no_nltk pets 2
              pets_sentences pets_scores) as (Hsummary & _ & _).
  - reaches_by_evaluation.
  - by vm_compute.
  - split; [|by vm_compute]. rewrite Hsummary. by vm_compute.
Defined.

Lemma repeated_sentence_scored_once_witness :
  NoDup (map fst (top_sentences pets_sentences pets_scores 5))
  ∧ summarize_text ascii_db no_nltk pets 5
    = py "cat cat cat cat dog dog dog dog eel eel".
Proof.
  destruct (repeated_sentence_scored_once ascii_db no_nltk pets 5
              pets_sentences pets_scores) as (_ & _ & Hnd & _ & Hfew).
  - reaches_by_evaluation.
  - split; [exact Hnd|].
    destruct Hfew as (_ & _ & Hsummary); [vm_compute; reflexivity|].
    rewrite Hsummary; by vm_compute.
Defined.

(** ** The normalizer on the specification's example *)

(** C3, counterexample: the output has no period after the last
    sentence, so it is not ["Hello world. Goodbye."]. *)
Lemma dedup_example_no_trailing_period :
  clean_transcript ascii_db (py "Hello world. Hello world. Goodbye.")
  ≠ py "Hello world. Goodbye.".
Proof. by vm_compute. Qed.

(** C3, amended: the repeated sentence is dropped, its first occurrence
    kept in place, and the sentences are joined by [". "], which puts no
    period after the last one. *)
Theorem dedup_example :
  clean_transcript ascii_db (py "Hello world. Hello world. Goodbye.")
  = py "Hello world. Goodbye".
Proof. by vm_compute. Qed.

(** ** Runs of characters *)

(** A string is empty, or starts with a separator, or starts with a
    run that reaches its end or a separator. *)
Lemma run_induction (p : char → bool) (P : pystr → Prop) :
  P [] →
  (∀ c s, p c = true → P s → P (c :: s)) →
  (∀ w, run_outside p w → P w) →
  (∀ w c s, run_outside p w → p c = true → P (c :: s) → P (w ++ c :: s)) →
  ∀ s, P s.
Proof.
  intros Hnil Hsep Hrun Hrunsep s.
  cut (∀ u, Forall (λ c, p c = false) u → P (u ++ s)).
  { intros H. apply (H []). constructor. }
  induction s as [|c s IH]; intros u Hu.
  - rewrite app_nil_r. destruct u as [|d u]; [done|]. by apply Hrun.
  - destruct (p c) eqn:Hc.
    + assert (P (c :: s)) as Hcs.
      { apply Hsep; [done|]. apply (IH []). constructor. }
      destruct u as [|d u]; [done|]. by apply Hrunsep.
    + replace (u ++ c :: s) with ((u ++ [c]) ++ s) by by rewrite <- app_assoc.
      apply IH. apply Forall_app. split; [done|]. by repeat constructor.
Qed.

Lemma fields_nonnil p s : fields p s ≠ [].
Proof.
  destruct s as [|c s]; [done|]. simpl.
  destruct (p c); [done|]. by destruct (fields p s).
Qed.

Lemma fields_outside p w : Forall (λ c, p c = false) w → fields p w = [w].
Proof.
  induction 1 as [|c w Hc _ IH]; [done|]. simpl. by rewrite Hc, IH.
Qed.

Lemma fields_app p a c b :
  p c = true → fields p (a ++ c :: b) = fields p a ++ fields p b.
Proof.
  intros Hc. induction a as [|d a IH]; simpl.
  - by rewrite Hc.
  - destruct (p d); [by rewrite IH|]. rewrite IH.
    pose proof (fields_nonnil p a). by destruct (fields p a).
Qed.

Lemma fields_Forall p s : Forall (Forall (λ c, p c = false)) (fields p s).
Proof.
  induction s as [|c s IH]; simpl.
  - by repeat constructor.
  - destruct (p c) eqn:Hc; [by constructor|].
    destruct (fields p s) as [|f fs]; [by repeat constructor|].
    apply Forall_cons in IH as [Hf Hfs]. by repeat constructor.
Qed.

Lemma fields_ext p q s :
  Forall (λ c, p c = q c) s → fields p s = fields q s.
Proof. induction 1 as [|c s Hc _ IH]; [done|]. simpl. by rewrite Hc, IH. Qed.

Ltac to_chunks := change str_split with (chunks isspace) in *.

Lemma chunks_nil p : chunks p [] = [].
Proof. done. Qed.

Lemma chunks_app p a c b :
  p c = true → chunks p (a ++ c :: b) = chunks p a ++ chunks p b.
Proof. intros Hc. unfold chunks. by rewrite fields_app, filter_app. Qed.

Lemma chunks_sep p c s : p c = true → chunks p (c :: s) = chunks p s.
Proof. intros Hc. apply (chunks_app p [] c s Hc). Qed.

Lemma chunks_run p w : run_outside p w → chunks p w = [w].
Proof.
  intros [Hne Hw]. unfold chunks. rewrite fields_outside by done.
  by destruct w.
Qed.

Lemma chunks_run_sep p w c s :
  run_outside p w → p c = true → chunks p (w ++ c :: s) = w :: chunks p s.
Proof. intros Hw Hc. by rewrite chunks_app, chunks_run. Qed.

Lemma chunks_seps p seps s :
  Forall (λ c, p c = true) seps → chunks p (seps ++ s) = chunks p s.
Proof.
  induction 1 as [|c seps Hc _ IH]; [done|]. cbn [app]. by rewrite chunks_sep.
Qed.

Lemma chunks_Forall p s : Forall (run_outside p) (chunks p s).
Proof.
  unfold chunks. apply Forall_forall. intros w [Hw Hin]%list_elem_of_filter.
  split; [by destruct w|].
  pose proof (fields_Forall p s) as H. rewrite Forall_forall in H. by apply H.
Qed.

Lemma chunks_ext p q s :
  Forall (λ c, p c = q c) s → chunks p s = chunks q s.
Proof. intros H. unfold chunks. by rewrite (fields_ext p q s H). Qed.

(** Splitting on a coarser class first does not change the chunks of
    a finer one. *)
Lemma chunks_refine p q s :
  (∀ c, p c = true → q c = true) →
  concat (map (chunks q) (chunks p s)) = chunks q s.
Proof.
  intros Hpq. induction s as [|c s Hc IH|w Hw|w c s Hw Hc IH] using (run_induction p).
  - done.
  - by rewrite !chunks_sep by auto.
  - rewrite (chunks_run p w Hw). simpl. apply app_nil_r.
  - rewrite (chunks_run_sep p w c s Hw Hc). cbn [map concat].
    rewrite chunks_sep in IH by done. rewrite IH.
    by rewrite (chunks_app q), (chunks_sep q) by auto.
Qed.

(** [sep.join] of runs, for a separator made of class characters. *)
Lemma chunks_join_app p sep a b :
  sep ≠ [] → Forall (λ c, p c = true) sep →
  chunks p (a ++ sep ++ b) = chunks p a ++ chunks p b.
Proof.
  intros Hne Hsep. destruct Hsep as [|c sep Hc Hsep]; [done|].
  cbn [app]. by rewrite chunks_app, chunks_seps.
Qed.

Lemma chunks_join p sep l :
  sep ≠ [] → Forall (λ c, p c = true) sep →
  chunks p (join sep l) = concat (map (chunks p) l).
Proof.
  intros Hne Hsep. induction l as [|a l IH]; [done|].
  destruct l as [|b l].
  - simpl. by rewrite app_nil_r.
  - change (join sep (a :: b :: l)) with (a ++ sep ++ join sep (b :: l)).
    by rewrite chunks_join_app, IH.
Qed.

Lemma concat_chunks_runs p (ws : list pystr) :
  Forall (run_outside p) ws → concat (map (chunks p) ws) = ws.
Proof.
  induction 1 as [|w ws Hw _ IH]; [done|].
  cbn [map concat]. by rewrite chunks_run, IH.
Qed.

Lemma chunks_join_runs p sep ws :
  sep ≠ [] → Forall (λ c, p c = true) sep → Forall (run_outside p) ws →
  chunks p (join sep ws) = ws.
Proof. intros. by rewrite chunks_join, concat_chunks_runs. Qed.

(** ** [join] *)

Lemma join_cons sep a b l : join sep (a :: b :: l) = a ++ sep ++ join sep (b :: l).
Proof. done. Qed.

Lemma join_nonnil sep l : l ≠ [] → Forall (λ w, w ≠ []) l → join sep l ≠ [].
Proof.
  intros Hl Hall. destruct Hall as [|a l Ha Hall]; [done|].
  destruct l as [|b l]; [done|]. rewrite join_cons. by destruct a.
Qed.

(** ** [strip] *)

Lemma starts_outside_app p a b :
  a ≠ [] → starts_outside p a → starts_outside p (a ++ b).
Proof. by destruct a. Qed.

Lemma ends_outside_app p a b :
  b ≠ [] → ends_outside p b → ends_outside p (a ++ b).
Proof.
  intros Hb H. unfold ends_outside in *. rewrite rev_app_distr.
  apply starts_outside_app; [|done].
  intros Hrev. apply Hb. by rewrite <- (rev_involutive b), Hrev.
Qed.

Lemma run_outside_starts p w : run_outside p w → starts_outside p w.
Proof. intros [_ H]. by destruct H. Qed.

Lemma run_outside_ends p w : run_outside p w → ends_outside p w.
Proof.
  intros [_ H]. unfold ends_outside.
  assert (Forall (λ c, p c = false) (rev w)) as Hrev.
  { apply Forall_forall. intros c Hc. rewrite Forall_forall in H. apply H.
    apply list_elem_of_In. apply in_rev. by apply list_elem_of_In. }
  by destruct Hrev.
Qed.

Lemma join_starts_outside p sep l :
  Forall (λ w, w ≠ [] ∧ starts_outside p w) l → starts_outside p (join sep l).
Proof.
  intros Hall. destruct Hall as [|a l [Ha1 Ha2] Hall]; [done|].
  destruct l as [|b l]; [done|]. rewrite join_cons. by apply starts_outside_app.
Qed.

Lemma join_ends_outside p sep l :
  Forall (λ w, w ≠ [] ∧ ends_outside p w) l → ends_outside p (join sep l).
Proof.
  induction 1 as [|a l [Ha1 Ha2] Hall IH]; [done|].
  destruct l as [|b l]; [done|]. rewrite join_cons, app_assoc.
  apply ends_outside_app; [|done].
  apply join_nonnil; [done|]. eapply Forall_impl; [exact Hall|]. by intros ? [? _].
Qed.

Lemma lstrip_spaces l s :
  Forall (λ c, isspace c = true) l → lstrip (l ++ s) = lstrip s.
Proof. induction 1 as [|c l Hc _ IH]; [done|]. simpl. by rewrite Hc. Qed.

Lemma lstrip_starts_outside s : starts_outside isspace s → lstrip s = s.
Proof. destruct s as [|c s]; [done|]. simpl. by intros ->. Qed.

(** [strip] finds the trimmed middle of a string between whitespace. *)
Lemma strip_unique l m r :
  Forall (λ c, isspace c = true) l → Forall (λ c, isspace c = true) r →
  trimmed m → str_strip (l ++ m ++ r) = m.
Proof.
  intros Hl Hr [Hm1 Hm2]. unfold str_strip. rewrite (lstrip_spaces l) by done.
  assert (Forall (λ c, isspace c = true) (rev r)) as Hrev.
  { apply Forall_forall. intros c Hc. rewrite Forall_forall in Hr. apply Hr.
    apply list_elem_of_In. apply in_rev. by apply list_elem_of_In. }
  destruct m as [|c m].
  - cbn [app]. rewrite <- (app_nil_r r), (lstrip_spaces r) by done. done.
  - rewrite (lstrip_starts_outside ((c :: m) ++ r)) by exact Hm1.
    rewrite rev_app_distr, (lstrip_spaces (rev r)) by done.
    rewrite lstrip_starts_outside by exact Hm2. apply rev_involutive.
Qed.

Lemma strip_trimmed s : trimmed s → str_strip s = s.
Proof.
  intros H. pose proof (strip_unique [] s []) as Hu.
  cbn [app] in Hu. rewrite app_nil_r in Hu. apply Hu; [constructor..|done].
Qed.

(** ** Replacing runs *)

Lemma sub_runs_outside p rep b w s :
  run_outside p w → sub_runs p rep b (w ++ s) = w ++ sub_runs p rep false s.
Proof.
  intros [Hne Hw]. revert b. induction Hw as [|c w Hc Hw IH]; intros b; [done|].
  cbn [app sub_runs]. rewrite Hc. f_equal.
  destruct w as [|d w]; [done|]. by apply IH.
Qed.

Lemma sub_runs_outside_all p rep b w :
  Forall (λ c, p c = false) w → sub_runs p rep b w = w.
Proof.
  intros Hw. revert b. induction Hw as [|c w Hc Hw IH]; intros b; [done|].
  cbn [sub_runs]. by rewrite Hc, IH.
Qed.

Lemma sub_runs_words s :
  ∀ b, ∃ r, Forall (λ c, isspace c = true) r
            ∧ sub_runs isspace SPACE b s
              = leading_space b s ++ join (py " ") (str_split s) ++ r.
Proof.
  induction s as [|c s Hc IH|w Hw|w c s Hw Hc IH] using (run_induction isspace);
    intros b.
  - exists []. split; [constructor | by destruct b].
  - destruct (IH true) as (r & Hr & Heq). exists r. split; [done|].
    to_chunks. rewrite chunks_sep by done.
    cbn [sub_runs]. rewrite Hc, Heq. unfold leading_space. rewrite Hc.
    by destruct b.
  - exists []. split; [constructor|].
    to_chunks. rewrite (chunks_run _ _ Hw), app_nil_r.
    rewrite sub_runs_outside_all by apply Hw.
    pose proof (run_outside_starts _ _ Hw) as Hs. unfold leading_space.
    destruct w as [|d w]; [by destruct b|]. simpl in Hs. rewrite Hs. by destruct b.
  - destruct (IH false) as (r & Hr & Heq).
    rewrite sub_runs_outside by done. rewrite Heq.
    to_chunks. rewrite (chunks_run_sep _ _ _ _ Hw Hc), chunks_sep by done.
    assert (leading_space b (w ++ c :: s) = []) as ->.
    { pose proof (run_outside_starts _ _ Hw) as Hs. unfold leading_space.
      destruct Hw as [Hne _]. destruct w as [|d w]; [done|].
      simpl in Hs. cbn [app]. rewrite Hs. by destruct b. }
    unfold leading_space. rewrite Hc. cbn [app].
    destruct (chunks isspace s) as [|w' ws] eqn:Hws.
    + exists (SPACE :: r). split; [by constructor|]. done.
    + exists r. split; [done|]. rewrite join_cons. by rewrite <- !app_assoc.
Qed.

Lemma words_trimmed sep (ws : list pystr) :
  Forall (run_outside isspace) ws → trimmed (join sep ws).
Proof.
  intros Hws. split.
  - apply join_starts_outside. eapply Forall_impl; [exact Hws|].
    intros w Hw. split; [apply Hw | by apply run_outside_starts].
  - apply join_ends_outside. eapply Forall_impl; [exact Hws|].
    intros w Hw. split; [apply Hw | by apply run_outside_ends].
Qed.

(** re.sub(r'\s+', ' ', s).strip() is ' '.join(s.split()). *)
Lemma collapse_ws_words s : collapse_ws s = join (py " ") (str_split s).
Proof.
  unfold collapse_ws. destruct (sub_runs_words s false) as (r & Hr & ->).
  apply strip_unique; [|done|].
  - unfold leading_space. destruct s as [|c s]; [constructor|].
    destruct (isspace c); by repeat constructor.
  - apply words_trimmed. apply chunks_Forall.
Qed.

Lemma str_split_join (ws : list pystr) :
  Forall (run_outside isspace) ws → str_split (join (py " ") ws) = ws.
Proof. intros. apply chunks_join_runs; by repeat constructor. Qed.

Lemma collapse_ws_join (ws : list pystr) :
  Forall (run_outside isspace) ws →
  collapse_ws (join (py " ") ws) = join (py " ") ws.
Proof. intros. by rewrite collapse_ws_words, str_split_join. Qed.

(** ** Isolated class characters *)

Lemma isolated_outside p w : Forall (λ c, p c = false) w → isolated p w.
Proof.
  induction 1 as [|c w Hc _ IH]; [done|]. split; [|done]. congruence.
Qed.

Lemma ends_outside_cons p c s : s ≠ [] → ends_outside p (c :: s) → ends_outside p s.
Proof.
  intros Hs. unfold ends_outside. cbn [rev].
  destruct (rev s) as [|d t] eqn:Hrev; [|done].
  exfalso. apply Hs. by rewrite <- (rev_involutive s), Hrev.
Qed.

Lemma isolated_app p a b :
  isolated p a → isolated p b → ends_outside p a ∨ starts_outside p b →
  isolated p (a ++ b).
Proof.
  intros Ha Hb Hab. induction a as [|c a IH]; [done|].
  destruct Ha as [Hc Ha]. cbn [app isolated]. split.
  - intros Hpc. destruct a as [|d a].
    + destruct Hab as [Hend|Hstart]; [|done].
      unfold ends_outside in Hend. simpl in Hend. congruence.
    + by apply Hc.
  - apply IH; [done|]. destruct Hab as [Hend|Hstart]; [|by right].
    destruct a as [|d a]; [by left|]. left. by apply (ends_outside_cons p c).
Qed.

Lemma isolated_app_inv p a b : isolated p (a ++ b) → isolated p a ∧ isolated p b.
Proof.
  induction a as [|c a IH]; [done|]. cbn [app isolated]. intros [Hc Hab].
  destruct (IH Hab) as [Ha Hb]. split; [|done]. split; [|done].
  intros Hpc. specialize (Hc Hpc). by destruct a.
Qed.

Lemma single_spaced_app_inv a b :
  single_spaced (a ++ b) → single_spaced a ∧ single_spaced b.
Proof.
  intros [Hi Hs]. apply isolated_app_inv in Hi as [? ?].
  apply Forall_app in Hs as [? ?]. by repeat split.
Qed.

Lemma single_spaced_app a b :
  single_spaced a → single_spaced b →
  ends_outside isspace a ∨ starts_outside isspace b → single_spaced (a ++ b).
Proof.
  intros [? ?] [? ?] ?. split; [by apply isolated_app | by apply Forall_app].
Qed.

Lemma single_spaced_outside w :
  Forall (λ c, isspace c = false) w → single_spaced w.
Proof.
  intros Hw. split; [by apply isolated_outside|].
  eapply Forall_impl; [exact Hw|]. simpl. congruence.
Qed.

(** A run is replaced by itself when it is one replacement character. *)
Lemma sub_runs_isolated p rep b s :
  isolated p s → Forall (λ c, p c = true → c = rep) s →
  (b = true → starts_outside p s) →
  sub_runs p rep b s = s.
Proof.
  intros Hi Hs. revert b. induction Hs as [|c s Hc Hs IH]; intros b Hb; [done|].
  destruct Hi as [Hci Hi]. cbn [sub_runs]. destruct (p c) eqn:Hpc.
  - destruct b; [specialize (Hb eq_refl); simpl in Hb; congruence|].
    pose proof (Hc eq_refl) as ->. f_equal. apply IH; auto.
  - f_equal. apply IH; [done|]. discriminate.
Qed.

Lemma collapse_ws_fixed s : single_spaced s → trimmed s → collapse_ws s = s.
Proof.
  intros [Hi Hs] Ht. unfold collapse_ws.
  rewrite sub_runs_isolated by done. by apply strip_trimmed.
Qed.

Lemma words_single_spaced (ws : list pystr) :
  Forall (run_outside isspace) ws → single_spaced (join (py " ") ws).
Proof.
  induction 1 as [|w ws Hw Hws IH]; [done|].
  destruct ws as [|w' ws]; [apply single_spaced_outside, Hw|].
  rewrite join_cons. apply single_spaced_app.
  - apply single_spaced_outside, Hw.
  - apply (single_spaced_app (py " ")); [by repeat constructor | done |].
    right. apply join_starts_outside. eapply Forall_impl; [exact Hws|].
    intros v Hv. split; [apply Hv | by apply run_outside_starts].
  - left. by apply run_outside_ends.
Qed.

(** ** Splitting on runs *)

Lemma split_runs_outside_all p b w :
  Forall (λ c, p c = false) w → split_runs p b w = [w].
Proof.
  intros Hw. revert b. induction Hw as [|c w Hc _ IH]; intros b; [done|].
  simpl. by rewrite Hc, IH.
Qed.

Lemma split_runs_sep p c s : p c = true → split_runs p true (c :: s) = split_runs p true s.
Proof. intros Hc. simpl. by rewrite Hc. Qed.

Lemma split_runs_starts_outside p b s :
  starts_outside p s → split_runs p b s = split_runs p false s.
Proof. destruct s as [|c s]; [done|]. simpl. by intros ->. Qed.

(** A piece ends where a run of the class starts. *)
Lemma split_runs_piece p b u c s :
  Forall (λ c, p c = false) u → p c = true → u ≠ [] ∨ b = false →
  split_runs p b (u ++ c :: s) = u :: split_runs p true s.
Proof.
  intros Hu Hc Hb. revert b Hb. induction Hu as [|d u Hd Hu IH]; intros b Hb.
  - destruct Hb as [| ->]; [done|]. simpl. by rewrite Hc.
  - cbn [app split_runs]. rewrite Hd. rewrite (IH false) by by right. done.
Qed.

Lemma split_runs_Forall p b s : Forall (Forall (λ c, p c = false)) (split_runs p b s).
Proof.
  revert b. induction s as [|c s IH]; intros b; simpl.
  - by repeat constructor.
  - destruct (p c) eqn:Hc.
    + destruct b; [apply IH | constructor; [constructor | apply IH]].
    + specialize (IH false). destruct (split_runs p false s) as [|f fs].
      * by repeat constructor.
      * apply Forall_cons in IH as [? ?]. by repeat constructor.
Qed.

Lemma split_runs_chunks p q s :
  (∀ c, p c = true → q c = true) →
  ∀ b, concat (map (chunks q) (split_runs p b s)) = chunks q s.
Proof.
  intros Hpq.
  induction s as [|c s Hc IH|w Hw|w c s Hw Hc IH] using (run_induction p); intros b.
  - done.
  - rewrite (chunks_sep q) by auto. cbn [split_runs]. rewrite Hc.
    destruct b; [apply IH|]. cbn [map concat]. rewrite chunks_nil. apply IH.
  - rewrite split_runs_outside_all by apply Hw. simpl. apply app_nil_r.
  - rewrite split_runs_piece; [|apply Hw|done|left; apply Hw].
    cbn [map concat]. specialize (IH true).
    rewrite split_runs_sep in IH by done. rewrite IH.
    by rewrite (chunks_app q), (chunks_sep q) by auto.
Qed.

Lemma split_runs_single_spaced p s :
  single_spaced s → ∀ b, Forall single_spaced (split_runs p b s).
Proof.
  induction s as [|c s Hc IH|w Hw|w c s Hw Hc IH] using (run_induction p);
    intros Hss b.
  - constructor; [done | constructor].
  - apply (single_spaced_app_inv [c] s) in Hss as [_ Hs].
    cbn [split_runs]. rewrite Hc. destruct b; [by apply IH|].
    constructor; [done | by apply IH].
  - rewrite split_runs_outside_all by apply Hw. constructor; [done | constructor].
  - rewrite split_runs_piece; [|apply Hw|done|left; apply Hw].
    apply single_spaced_app_inv in Hss as [Hw' Hcs].
    constructor; [done|]. specialize (IH Hcs true).
    by rewrite split_runs_sep in IH.
Qed.

(** ** Sentences of the normalized text *)

Lemma is_sep_false c : is_sep c = false → isspace c = false ∧ is_terminator c = false.
Proof. unfold is_sep. by intros [? ?]%orb_false_elim. Qed.

Lemma atom_word w : run_outside is_sep w → run_outside isspace w.
Proof.
  intros [Hne Hw]. split; [done|]. eapply Forall_impl; [exact Hw|].
  intros c Hc. by apply is_sep_false in Hc as [? _].
Qed.

Lemma Forall_join (P : char → Prop) sep (l : list pystr) :
  Forall P sep → Forall (Forall P) l → Forall P (join sep l).
Proof.
  intros Hsep. induction 1 as [|a l Ha Hl IH]; [constructor|].
  destruct l as [|b l]; [done|]. rewrite join_cons.
  apply Forall_app. split; [done|]. apply Forall_app. by split.
Qed.

Lemma atoms_sentence (ws : list pystr) :
  ws ≠ [] → Forall (run_outside is_sep) ws →
  clean_sentence (join (py " ") ws) ∧ atoms (join (py " ") ws) = ws.
Proof.
  intros Hne Hws.
  assert (Forall (run_outside isspace) ws) as Hwords.
  { eapply Forall_impl; [exact Hws|]. apply atom_word. }
  split; [split_and!|].
  - apply join_nonnil; [done|]. eapply Forall_impl; [exact Hws|]. by intros ? [? _].
  - by apply words_trimmed.
  - by apply words_single_spaced.
  - apply Forall_join; [by repeat constructor|].
    eapply Forall_impl; [exact Hws|]. intros w [_ Hw].
    eapply Forall_impl; [exact Hw|]. intros c Hc. by apply is_sep_false in Hc as [_ ?].
  - apply chunks_join_runs; [done | by repeat constructor | done].
Qed.

(** A single-spaced piece without terminators, stripped, is its atoms
    joined by single spaces. *)
Lemma piece_strip f :
  single_spaced f → Forall (λ c, is_terminator c = false) f →
  str_strip f = join (py " ") (atoms f).
Proof.
  intros [Hi Hs] Hterm.
  rewrite <- (sub_runs_isolated isspace SPACE false f) at 1; [|done..].
  change (collapse_ws f = join (py " ") (atoms f)).
  rewrite collapse_ws_words. to_chunks. unfold atoms. f_equal.
  apply chunks_ext. eapply Forall_impl; [exact Hterm|].
  intros c Hc. unfold is_sep. by rewrite Hc, orb_false_r.
Qed.

Lemma piece_sentence f :
  single_spaced f → Forall (λ c, is_terminator c = false) f →
  str_strip f ≠ [] →
  clean_sentence (str_strip f) ∧ atoms (str_strip f) = atoms f.
Proof.
  intros Hss Hterm Hne. rewrite (piece_strip f Hss Hterm) in *.
  apply atoms_sentence; [|apply chunks_Forall].
  intros Hnil. by rewrite Hnil in Hne.
Qed.

Lemma dedup_words_sublist U prev ws : dedup_words U prev ws `sublist_of` ws.
Proof.
  revert prev. induction ws as [|w ws IH]; intros prev; [constructor|].
  cbn [dedup_words]. destruct prev as [p|].
  - destruct (decide _); [apply sublist_cons | apply sublist_skip]; apply IH.
  - apply sublist_skip, IH.
Qed.

Lemma sublist_concat_map {A B} (f : A → list B) l1 l2 :
  l1 `sublist_of` l2 → concat (map f l1) `sublist_of` concat (map f l2).
Proof.
  induction 1 as [|x l1 l2 _ IH|x l1 l2 _ IH]; cbn [map concat].
  - constructor.
  - by apply sublist_app.
  - by apply sublist_inserts_l.
Qed.

(** The loop over the pieces appends, from left to right, the stripped
    pieces that are non-empty and new. *)
Lemma fold_add_unique pieces acc :
  ∃ new, fold_left add_unique pieces acc = acc ++ new
         ∧ new `sublist_of` map str_strip pieces
         ∧ Forall (λ u, u ≠ []) new
         ∧ (NoDup acc → NoDup (acc ++ new)).
Proof.
  revert acc. induction pieces as [|f pieces IH]; intros acc.
  - exists []. rewrite app_nil_r. by repeat split.
  - cbn [fold_left map]. unfold add_unique at 2.
    destruct (nonempty (str_strip f) && negb (bool_decide (str_strip f ∈ acc)))
      eqn:Hadd.
    + apply andb_true_iff in Hadd as [Hne Hnew].
      apply negb_true_iff, bool_decide_eq_false in Hnew.
      destruct (IH (acc ++ [str_strip f])) as (new & -> & Hsub & Hall & Hnd).
      exists (str_strip f :: new). rewrite <- app_assoc. split_and!; [done| | |].
      * by apply sublist_skip.
      * constructor; [by destruct (str_strip f) | done].
      * intros Hacc. change (NoDup (acc ++ [str_strip f] ++ new)).
        rewrite app_assoc. apply Hnd.
        apply NoDup_app. split_and!; [done| |apply NoDup_singleton].
        intros x Hx ->%list_elem_of_singleton. done.
    + destruct (IH acc) as (new & -> & Hsub & Hall & Hnd).
      exists new. split_and!; [done| |done..]. by apply sublist_cons.
Qed.

Lemma sentences_trimmed (us : list pystr) :
  Forall clean_sentence us → trimmed (join (py ". ") us).
Proof.
  intros Hus. split.
  - apply join_starts_outside. eapply Forall_impl; [exact Hus|].
    by intros u (? & [? ?] & _).
  - apply join_ends_outside. eapply Forall_impl; [exact Hus|].
    by intros u (? & [? ?] & _).
Qed.

Lemma sentences_single_spaced (us : list pystr) :
  Forall clean_sentence us → single_spaced (join (py ". ") us).
Proof.
  induction 1 as [|u us Hu Hus IH]; [done|].
  destruct us as [|u' us]; [apply Hu|].
  rewrite join_cons. destruct Hu as (_ & [_ Hend] & Hss & _).
  apply single_spaced_app; [done| |by left].
  apply (single_spaced_app (py ". ")); [|done|].
  - split; [|by repeat constructor]. by repeat split.
  - right. apply (sentences_trimmed (u' :: us) Hus).
Qed.

Lemma terminator_free_dot_free u :
  Forall (λ c, is_terminator c = false) u → Forall (λ c, is_dot c = false) u.
Proof.
  intros H. eapply Forall_impl; [exact H|]. intros c Hc. unfold is_terminator in Hc.
  apply orb_false_elim in Hc as [Hc _]. by apply orb_false_elim in Hc as [? _].
Qed.

Lemma sentences_isolated_dots (us : list pystr) :
  Forall clean_sentence us → isolated is_dot (join (py ". ") us).
Proof.
  induction 1 as [|u us Hu Hus IH]; [done|].
  destruct Hu as (Hne & _ & _ & Hterm%terminator_free_dot_free).
  destruct us as [|u' us]; [by apply isolated_outside|].
  rewrite join_cons. apply isolated_app.
  - by apply isolated_outside.
  - apply (isolated_app is_dot (py ". ")); [by repeat split | done | by left].
  - left. by apply run_outside_ends.
Qed.

(** The last two substitutions of [clean_transcript] change nothing. *)
Lemma sentences_final (us : list pystr) :
  Forall clean_sentence us →
  sub_runs is_dot DOT false (collapse_ws (join (py ". ") us)) = join (py ". ") us.
Proof.
  intros Hus.
  rewrite collapse_ws_fixed
    by (by apply sentences_single_spaced || by apply sentences_trimmed).
  apply sub_runs_isolated; [by apply sentences_isolated_dots| |done].
  apply Forall_forall. intros c _ Hc. by apply N.eqb_eq in Hc.
Qed.

Lemma sublist_Forall {A} (P : A → Prop) l1 l2 :
  l1 `sublist_of` l2 → Forall P l2 → Forall P l1.
Proof.
  intros Hsub Hall. apply Forall_forall. intros x Hx.
  rewrite Forall_forall in Hall. by apply Hall, (elem_of_sublist l1 l2).
Qed.

Lemma piece_atoms f :
  single_spaced f → Forall (λ c, is_terminator c = false) f →
  atoms (str_strip f) = atoms f.
Proof.
  intros Hss Hterm. rewrite (piece_strip f Hss Hterm).
  apply chunks_join_runs; [done | by repeat constructor | apply chunks_Forall].
Qed.

Lemma clean_transcript_unfold U x :
  x ≠ [] → clean_transcript U x = clean_tail U (sub_timestamps U (sub_tags x)).
Proof. by destruct x. Qed.

(** Dropping repeated words drops their atoms and keeps the others in
    order. *)
Lemma dedup_words_atoms U r :
  concat (map atoms (dedup_words U None (str_split r))) `sublist_of` atoms r.
Proof.
  etrans; [apply sublist_concat_map, dedup_words_sublist|].
  unfold atoms. to_chunks. rewrite chunks_refine; [done|].
  intros c Hc. unfold is_sep. by rewrite Hc.
Qed.

(** The normalized text is a list of distinct clean sentences joined
    by [". "], and its atoms are, in order, atoms of the words that the
    word loop keeps. *)
Lemma clean_tail_sentences U r :
  ∃ us, clean_tail U r = join (py ". ") us
        ∧ Forall clean_sentence us ∧ NoDup us
        ∧ concat (map atoms us)
            `sublist_of` concat (map atoms (dedup_words U None (str_split r))).
Proof.
  unfold clean_tail.
  pose proof (chunks_Forall isspace r) as Hwords.
  pose proof (dedup_words_sublist U None (str_split r)) as Hsub.
  set (cw := dedup_words U None (str_split r)) in *.
  assert (Forall (run_outside isspace) cw) as Hcw by by eapply sublist_Forall.
  rewrite collapse_ws_join by done.
  pose proof (split_runs_single_spaced is_terminator _
                (words_single_spaced cw Hcw) false) as Hp1.
  pose proof (split_runs_Forall is_terminator false (join (py " ") cw)) as Hp2.
  assert (∀ c, is_terminator c = true → is_sep c = true) as Hterm
    by (intros c Hc; unfold is_sep; by rewrite Hc, orb_true_r).
  pose proof (split_runs_chunks is_terminator is_sep (join (py " ") cw) Hterm false)
    as Hp3.
  set (pieces := split_runs is_terminator false (join (py " ") cw)) in *.
  destruct (fold_add_unique pieces []) as (us & Hfold & Hus & Hne & Hnd).
  cbn [app] in Hfold, Hnd. rewrite Hfold. exists us.
  assert (Forall clean_sentence us) as Hclean.
  { apply Forall_forall. intros u Hu.
    assert (u ≠ []) as Hu0 by (rewrite Forall_forall in Hne; by apply Hne).
    apply (elem_of_sublist _ _ _ Hu) in Hus.
    apply list_elem_of_fmap in Hus as (f & -> & Hf).
    rewrite Forall_forall in Hp1, Hp2.
    by apply piece_sentence; [apply Hp1 | apply Hp2 |]. }
  split_and!; [by apply sentences_final | done | apply Hnd; constructor |].
  etrans; [apply sublist_concat_map, Hus|].
  replace (map atoms (map str_strip pieces)) with (map atoms pieces).
  - change (concat (map (chunks is_sep) pieces) `sublist_of` concat (map atoms cw)).
    by rewrite Hp3, chunks_join by by repeat constructor.
  - rewrite map_map. apply map_ext_Forall.
    apply Forall_forall. intros f Hf. symmetry.
    rewrite Forall_forall in Hp1, Hp2. apply piece_atoms; auto.
Qed.

(** ** Tags *)

Lemma find_char_None c s : find_char c s = None ↔ c ∉ s.
Proof.
  induction s as [|d s IH]; simpl.
  - split; [intros _; apply not_elem_of_nil | done].
  - rewrite not_elem_of_cons. destruct (N.eqb_spec d c) as [->|Hne].
    + split; [done | by intros [? _]].
    + rewrite fmap_None, IH. split; [by intros; split|by intros [_ ?]].
Qed.

Lemma find_char_zero c s : find_char c s = Some 0%nat ↔ ∃ r, s = c :: r.
Proof.
  destruct s as [|d s]; simpl.
  - split; [done | by intros [? ?]].
  - destruct (N.eqb_spec d c) as [->|Hne].
    + split; [by eexists | done].
    + split; [|intros [? ?]; congruence].
      by destruct (find_char c s).
Qed.

Lemma tag_match_None r : tag_match r = None ↔ starts_gt r ∨ GT ∉ r.
Proof.
  unfold tag_match. destruct (find_char GT r) as [[|k]|] eqn:Hfind.
  - apply find_char_zero in Hfind as [r' ->]. split; [by left | done].
  - split; [done|]. intros [Hgt|Hnone].
    + destruct r as [|c r]; [done|]. simpl in Hgt, Hfind.
      subst c. by rewrite N.eqb_refl in Hfind.
    + apply find_char_None in Hnone. congruence.
  - apply find_char_None in Hfind. split; [by right | done].
Qed.

Lemma sub_at_lt_elem_of m skip s c : c ∈ sub_at_lt m skip s → c ∈ s.
Proof.
  revert skip. induction s as [|d s IH]; intros skip; [done|].
  cbn [sub_at_lt]. destruct skip as [|k].
  - destruct (d =? LT); [destruct (m s)|].
    + intros ?%IH. by right.
    + intros [->|?%IH]%elem_of_cons; [by left | by right].
    + intros [->|?%IH]%elem_of_cons; [by left | by right].
  - intros ?%IH. by right.
Qed.

(** After re.sub(r'<[^>]+>', '', s) no match of the pattern is left. *)
Lemma sub_tags_tag_free s : ∀ skip, tag_free (sub_at_lt tag_match skip s).
Proof.
  unfold tag_free. induction s as [|c s IH]; intros skip; [done|].
  cbn [sub_at_lt]. destruct skip as [|k]; [|apply IH].
  destruct (N.eqb_spec c LT) as [->|Hne].
  - destruct (tag_match s) as [n|] eqn:Hmatch; [apply IH|].
    split; [|apply IH]. intros _.
    apply tag_match_None in Hmatch as [Hgt|Hnone].
    + left. destruct s as [|d s]; [done|]. simpl in Hgt. subst d. done.
    + right. split; [|tauto]. intros Hin. by apply Hnone, (sub_at_lt_elem_of _ _ _ _ Hin).
  - split; [done | apply IH].
Qed.

(** A substitution whose pattern is narrower than [<[^>]+>] finds
    nothing in a tag-free string. *)
Lemma sub_at_lt_fixed m s :
  (∀ r n, m r = Some n → tag_match r ≠ None) →
  tag_free s → sub_at_lt m 0 s = s.
Proof.
  intros Hm. unfold tag_free. induction s as [|c s IH]; intros Hs; [done|].
  destruct Hs as [Hc Hs]. cbn [sub_at_lt].
  destruct (N.eqb_spec c LT) as [->|Hne]; [|by rewrite IH].
  destruct (m s) as [n|] eqn:Hmatch; [|by rewrite IH].
  exfalso. apply (Hm _ _ Hmatch). apply tag_match_None.
  destruct (Hc eq_refl) as [?|[? _]]; auto.
Qed.

Lemma is_digit_GT U : is_digit U GT = false.
Proof. done. Qed.

Lemma timestamp_match_tag U r n :
  timestamp_match U r = Some n → tag_match r ≠ None.
Proof.
  unfold timestamp_match. intros H Hnone.
  destruct r as [|h1 [|h2 [|c1 [|m1 [|m2 [|c2 [|s1 [|s2 [|d frac]]]]]]]]]; try done.
  match type of H with (if ?cond then _ else _) = _ =>
    destruct cond eqn:Hcond; [|done] end.
  repeat (apply andb_true_iff in Hcond as [Hcond ?]).
  destruct (digits_prefix U frac) as [|k]; [done|].
  destruct (drop (Datatypes.S k) frac) as [|g rest] eqn:Hdrop; [done|].
  destruct (N.eqb_spec g GT) as [->|]; [|done].
  apply tag_match_None in Hnone as [Hgt|Hnotin].
  - simpl in Hgt. subst h1. by rewrite is_digit_GT in Hcond.
  - apply Hnotin. do 9 right.
    rewrite <- (take_drop (Datatypes.S k) frac), Hdrop.
    apply elem_of_app. right. by left.
Qed.

Lemma sub_timestamps_tag_free U s : tag_free s → sub_timestamps U s = s.
Proof. apply sub_at_lt_fixed. intros r n. apply timestamp_match_tag. Qed.

Lemma tagless_iff later later' s :
  (later ↔ later') → tagless later s ↔ tagless later' s.
Proof.
  intros H. induction s as [|c s IH]; [done|]. cbn [tagless]. rewrite IH. tauto.
Qed.

Lemma tagless_weaken later later' s :
  (later' → later) → tagless later s → tagless later' s.
Proof.
  intros H. induction s as [|c s IH]; [done|]. cbn [tagless].
  intros [Hc Hs]. split; [|by apply IH]. intros Heq.
  destruct (Hc Heq) as [?|[? ?]]; [by left | right; tauto].
Qed.

(** An atom followed by a separator: the ['>'] that matter to the
    atom's ['<'] are its own and those after the separator. *)
Lemma tagless_sep later a c s :
  c ≠ LT → c ≠ GT →
  tagless later (a ++ c :: s) ↔ tagless (later ∨ GT ∈ s) a ∧ tagless later s.
Proof.
  intros Hlt Hgt. induction a as [|d a IH].
  - cbn [app tagless]. tauto.
  - cbn [app tagless]. rewrite IH.
    assert (GT ≠ c) as Hgt' by congruence.
    assert (starts_gt (a ++ c :: s) ∨ ((GT ∉ a ++ c :: s) ∧ (¬ later))
            ↔ starts_gt a ∨ ((GT ∉ a) ∧ (¬ (later ∨ GT ∈ s)))) as ->; [|tauto].
    rewrite elem_of_app, elem_of_cons. destruct a as [|e a]; simpl.
    + rewrite elem_of_nil. split; [|tauto]. intros [?|[? ?]]; [congruence|].
      right. split; [tauto|]. intros [?|?]; tauto.
    + split; [|tauto]. intros [?|[? ?]]; [by left|]. right.
      split; [tauto|]. intros [?|?]; tauto.
Qed.

Lemma sublist_concat {A} (l1 l2 : list (list A)) :
  l1 `sublist_of` l2 → concat l1 `sublist_of` concat l2.
Proof.
  induction 1 as [|x l1 l2 _ IH|x l1 l2 _ IH]; cbn [concat].
  - constructor.
  - by apply sublist_app.
  - by apply sublist_inserts_l.
Qed.

Lemma tagless_atoms_sublist later l1 l2 :
  l1 `sublist_of` l2 → tagless_atoms later l2 → tagless_atoms later l1.
Proof.
  induction 1 as [|x l1 l2 Hsub IH|x l1 l2 Hsub IH]; cbn [tagless_atoms].
  - done.
  - intros [Hx Hl]. split; [|by apply IH].
    eapply tagless_weaken; [|exact Hx]. intros [?|Hin]; [by left|]. right.
    by apply (elem_of_sublist _ _ _ Hin), sublist_concat.
  - intros [_ Hl]. by apply IH.
Qed.

Lemma is_sep_LT : is_sep LT = false.
Proof. done. Qed.

Lemma is_sep_GT : is_sep GT = false.
Proof. done. Qed.

Lemma atoms_elem_of g s : is_sep g = false → g ∈ s ↔ g ∈ concat (atoms s).
Proof.
  intros Hg. unfold atoms.
  induction s as [|c s Hc IH|w Hw|w c s Hw Hc IH] using (run_induction is_sep).
  - done.
  - rewrite chunks_sep by done. rewrite <- IH, elem_of_cons.
    split; [|tauto]. intros [->|?]; [congruence | done].
  - rewrite chunks_run by done. simpl. by rewrite app_nil_r.
  - rewrite chunks_run_sep by done. cbn [concat].
    rewrite chunks_sep in IH by done. rewrite !elem_of_app, IH. tauto.
Qed.

Lemma tagless_atoms_iff s : ∀ later, tagless later s ↔ tagless_atoms later (atoms s).
Proof.
  unfold atoms.
  induction s as [|c s Hc IH|w Hw|w c s Hw Hc IH] using (run_induction is_sep);
    intros later.
  - done.
  - rewrite chunks_sep by done. rewrite <- IH. cbn [tagless].
    split; [tauto|]. intros Hs. split; [|done].
    intros ->. by rewrite is_sep_LT in Hc.
  - rewrite chunks_run by done. cbn [tagless_atoms concat].
    rewrite (tagless_iff (later ∨ GT ∈ []) later); [tauto|].
    rewrite elem_of_nil. tauto.
  - rewrite chunks_run_sep by done. cbn [tagless_atoms].
    assert (c ≠ LT) as Hlt by (intros ->; by rewrite is_sep_LT in Hc).
    assert (c ≠ GT) as Hgt by (intros ->; by rewrite is_sep_GT in Hc).
    rewrite (tagless_sep later w c s Hlt Hgt).
    specialize (IH later). rewrite chunks_sep in IH by done.
    rewrite <- IH. cbn [tagless].
    rewrite (tagless_iff (later ∨ GT ∈ s) (later ∨ GT ∈ concat (chunks is_sep s))).
    + tauto.
    + pose proof (atoms_elem_of GT s is_sep_GT) as Hin. unfold atoms in Hin. tauto.
Qed.

(** Tag-freedom passes to any text whose atoms are, in order, among
    the atoms of a tag-free text. *)
Lemma tag_free_atoms s s' :
  atoms s' `sublist_of` atoms s → tag_free s → tag_free s'.
Proof.
  unfold tag_free. rewrite !tagless_atoms_iff. apply tagless_atoms_sublist.
Qed.

Lemma clean_tail_tag_free U r : tag_free r → tag_free (clean_tail U r).
Proof.
  destruct (clean_tail_sentences U r) as (us & -> & _ & _ & Hsub).
  apply tag_free_atoms. unfold atoms at 1.
  rewrite chunks_join by by repeat constructor.
  etrans; [exact Hsub|]. apply dedup_words_atoms.
Qed.

Lemma clean_transcript_tag_free U x : tag_free (clean_transcript U x).
Proof.
  destruct x as [|c x]; [done|].
  rewrite clean_transcript_unfold by done.
  pose proof (sub_tags_tag_free (c :: x) 0) as Hfree.
  fold (sub_tags (c :: x)) in Hfree.
  rewrite sub_timestamps_tag_free by done. by apply clean_tail_tag_free.
Qed.

Lemma tagless_suffix later pre s : tagless later (pre ++ s) → tagless later s.
Proof. induction pre as [|c pre IH]; [done|]. intros [_ ?]. by apply IH. Qed.



(** ** Normalizing twice *)

Lemma split_runs_sentences (us : list pystr) :
  Forall clean_sentence us → ∀ pre u rest,
  us = u :: rest → Forall (λ c, is_terminator c = false) pre →
  split_runs is_terminator false (pre ++ join (py ". ") us)
  = (pre ++ u) :: map (cons SPACE) rest.
Proof.
  induction 1 as [|u0 us Hu Hus IH]; intros pre u rest Heq Hpre; [done|].
  injection Heq as -> ->. destruct Hu as (_ & _ & _ & Hterm).
  destruct rest as [|u' rest].
  - cbn [join map]. apply split_runs_outside_all. by apply Forall_app.
  - rewrite join_cons.
    change (py ". " ++ join (py ". ") (u' :: rest))
      with (DOT :: [SPACE] ++ join (py ". ") (u' :: rest)).
    rewrite app_assoc.
    rewrite split_runs_piece; [|by apply Forall_app|done|by right].
    rewrite split_runs_starts_outside by done.
    by rewrite (IH [SPACE] u' rest) by by repeat constructor.
Qed.

Lemma strip_space_sentence u : clean_sentence u → str_strip (SPACE :: u) = u.
Proof.
  intros (_ & Ht & _). pose proof (strip_unique [SPACE] u []) as H.
  rewrite app_nil_r in H. apply H; [by repeat constructor | constructor | done].
Qed.

Lemma fold_add_unique_sentences pieces (us : list pystr) :
  Forall2 (λ f u, str_strip f = u) pieces us →
  Forall clean_sentence us →
  ∀ acc, NoDup (acc ++ us) → fold_left add_unique pieces acc = acc ++ us.
Proof.
  induction 1 as [|f u pieces us Hf _ IH]; intros Hus acc Hnd.
  - by rewrite app_nil_r.
  - apply Forall_cons in Hus as [Hu Hus]. cbn [fold_left].
    unfold add_unique at 2. rewrite Hf.
    assert (u ∉ acc) as Hnew.
    { apply NoDup_app in Hnd as (_ & Hdisj & _). intros Hin.
      apply (Hdisj u Hin). by left. }
    rewrite (nonempty_true u) by apply Hu.
    rewrite bool_decide_eq_false_2 by done. cbn [negb andb].
    rewrite (IH Hus) by by rewrite <- app_assoc.
    by rewrite <- app_assoc.
Qed.

(** The steps after the tag substitutions leave a normalized text
    without immediately repeated words as it is. *)
Lemma clean_tail_fixed U (us : list pystr) :
  Forall clean_sentence us → NoDup us →
  let y := join (py ". ") us in
  dedup_words U None (str_split y) = str_split y →
  clean_tail U y = y.
Proof.
  intros Hus Hnd y Hwords. unfold clean_tail. rewrite Hwords.
  rewrite <- collapse_ws_words.
  assert (collapse_ws y = y) as Hy
    by (apply collapse_ws_fixed;
        [by apply sentences_single_spaced | by apply sentences_trimmed]).
  rewrite !Hy. destruct us as [|u rest].
  { by vm_compute. }
  pose proof (split_runs_sentences (u :: rest) Hus [] u rest eq_refl (Forall_nil_2 _))
    as Hsplit.
  cbn [app] in Hsplit. unfold y. rewrite Hsplit.
  rewrite (fold_add_unique_sentences _ (u :: rest)); [by apply sentences_final| |done..].
  apply Forall_cons in Hus as [Hu Hrest]. constructor.
  - apply strip_trimmed, Hu.
  - clear -Hrest. induction Hrest as [|u' rest Hu' _ IH]; [constructor|].
    cbn [map]. constructor; [by apply strip_space_sentence | done].
Qed.

Lemma sentence_atoms u :
  clean_sentence u →
  u = join (py " ") (atoms u) ∧ atoms u ≠ [] ∧ Forall (run_outside is_sep) (atoms u).
Proof.
  intros (Hne & Ht & Hss & Hterm).
  pose proof (piece_strip u Hss Hterm) as Hu. rewrite strip_trimmed in Hu by done.
  split_and!; [done| |apply chunks_Forall].
  intros Hnil. apply Hne. by rewrite Hu, Hnil.
Qed.

Lemma words_one_atom (ws : list pystr) :
  Forall (run_outside is_sep) ws → Forall one_atom (str_split (join (py " ") ws)).
Proof.
  intros Hws. rewrite str_split_join by (eapply Forall_impl; [exact Hws|apply atom_word]).
  eapply Forall_impl; [exact Hws|]. intros w Hw.
  unfold one_atom, atoms. by rewrite chunks_run.
Qed.

Lemma words_dot_one_atom (ws : list pystr) :
  ws ≠ [] → Forall (run_outside is_sep) ws →
  Forall one_atom (str_split (join (py " ") ws ++ [DOT])).
Proof.
  intros Hne Hws. induction Hws as [|w ws Hw Hws IH]; [done|].
  assert (one_atom w) as Hone by (unfold one_atom, atoms; by rewrite chunks_run).
  destruct ws as [|w' ws].
  - cbn [join]. to_chunks. rewrite chunks_run.
    + constructor; [|constructor]. unfold one_atom, atoms.
      by rewrite (chunks_app is_sep w DOT []), chunks_run.
    + destruct (atom_word w Hw) as [? ?]. split; [by destruct w|].
      apply Forall_app. split; [done | by repeat constructor].
  - rewrite join_cons, <- !app_assoc. to_chunks.
    change (py " " ++ join (py " ") (w' :: ws) ++ [DOT])
      with (SPACE :: (join (py " ") (w' :: ws) ++ [DOT])).
    rewrite chunks_run_sep; [|by apply atom_word|done].
    constructor; [done | by apply IH].
Qed.

Lemma sentences_one_atom (us : list pystr) :
  Forall clean_sentence us → Forall one_atom (str_split (join (py ". ") us)).
Proof.
  induction 1 as [|u us Hu Hus IH]; [constructor|].
  destruct (sentence_atoms u Hu) as (Heq & Hne & Hatoms).
  destruct us as [|u' us].
  - cbn [join]. rewrite Heq. by apply words_one_atom.
  - rewrite join_cons.
    change (u ++ py ". " ++ join (py ". ") (u' :: us))
      with (u ++ [DOT] ++ SPACE :: join (py ". ") (u' :: us)).
    rewrite app_assoc. to_chunks. rewrite chunks_app by done.
    apply Forall_app. split; [|done].
    rewrite Heq. by apply words_dot_one_atom.
Qed.

Lemma one_atom_length (ws : list pystr) :
  Forall one_atom ws → length (concat (map atoms ws)) = length ws.
Proof.
  induction 1 as [|w ws Hw _ IH]; [done|].
  cbn [map concat]. rewrite length_app, IH, Hw. done.
Qed.

Lemma sublist_full {A} (l1 l2 : list A) :
  l1 `sublist_of` l2 → (length l2 ≤ length l1)%nat → l1 = l2.
Proof.
  induction 1 as [|x l1 l2 _ IH|x l1 l2 Hsub _]; cbn [length]; intros Hlen.
  - done.
  - f_equal. apply IH. lia.
  - apply sublist_length in Hsub. lia.
Qed.

(** Conversely, a repeated word makes the second pass lose an atom. *)
Lemma clean_tail_fixed_inv U (us : list pystr) :
  Forall clean_sentence us →
  let y := join (py ". ") us in
  clean_tail U y = y →
  dedup_words U None (str_split y) = str_split y.
Proof.
  intros Hus y Hfixed.
  destruct (clean_tail_sentences U y) as (us' & Heq & _ & _ & Hsub).
  rewrite Hfixed in Heq. apply (f_equal atoms) in Heq. unfold atoms at 2 in Heq.
  rewrite chunks_join in Heq by by repeat constructor.
  change (map (chunks is_sep) us') with (map atoms us') in Heq. rewrite <- Heq in Hsub.
  pose proof (sentences_one_atom us Hus) as Hone. fold y in Hone.
  pose proof (dedup_words_sublist U None (str_split y)) as Hdedup.
  apply sublist_full; [done|].
  apply sublist_length in Hsub.
  rewrite (one_atom_length (dedup_words U None (str_split y))) in Hsub
    by by eapply sublist_Forall.
  rewrite <- (one_atom_length (str_split y) Hone).
  unfold atoms at 1 in Hsub. unfold atoms. to_chunks.
  rewrite chunks_refine; [done|].
  intros c Hc. unfold is_sep. by rewrite Hc.
Qed.

Lemma sub_tags_tag_free_fixed s : tag_free s → sub_tags s = s.
Proof. apply sub_at_lt_fixed. intros r n H. by rewrite H. Qed.

(** C4, counterexample: the second pass drops the repeated word that
    the first pass uncovers by removing the question mark. *)
Lemma not_idempotent :
  clean_transcript ascii_db (py "?a a") = py "a a"
  ∧ clean_transcript ascii_db (clean_transcript ascii_db (py "?a a")) = py "a"
  ∧ clean_transcript ascii_db (clean_transcript ascii_db (py "?a a"))
    ≠ clean_transcript ascii_db (py "?a a").
Proof. by vm_compute. Qed.

(** C4, amended: normalizing a second time changes nothing exactly when
    the normalized text has no word that repeats, up to case, the word
    before it. *)
Theorem idempotent_iff_no_repeated_word U x :
  clean_transcript U (clean_transcript U x) = clean_transcript U x
  ↔ dedup_words U None (str_split (clean_transcript U x))
    = str_split (clean_transcript U x).
Proof.
  pose proof (clean_transcript_tag_free U x) as Hfree.
  destruct x as [|c x]; [done|].
  rewrite (clean_transcript_unfold U (c :: x)) in * by done.
  destruct (clean_tail_sentences U (sub_timestamps U (sub_tags (c :: x))))
    as (us & Hy & Hus & Hnd & _).
  rewrite Hy in *. destruct (join (py ". ") us) as [|d y] eqn:Hjoin; [done|].
  rewrite clean_transcript_unfold by done.
  rewrite (sub_tags_tag_free_fixed _ Hfree), (sub_timestamps_tag_free _ _ Hfree).
  rewrite <- Hjoin in *. split.
  - by apply clean_tail_fixed_inv.
  - by apply clean_tail_fixed.
Qed.

Lemma idempotent_iff_no_repeated_word_witness :
  clean_transcript ascii_db
    (clean_transcript ascii_db (py "Hello world. Hello world. Goodbye."))
  = clean_transcript ascii_db (py "Hello world. Hello world. Goodbye.").
Proof.
  apply (idempotent_iff_no_repeated_word ascii_db
           (py "Hello world. Hello world. Goodbye.")).
  by vm_compute.
Defined.

(** * Further properties *)

(** ** The normalizer's output *)

Lemma clean_transcript_sentences U x :
  ∃ us, clean_transcript U x = join (py ". ") us
        ∧ Forall clean_sentence us ∧ NoDup us
        ∧ concat (map atoms us) `sublist_of` atoms (sub_tags x).
Proof.
  destruct x as [|c x].
  { exists []. split_and!; [done | constructor | constructor | constructor]. }
  rewrite clean_transcript_unfold by done.
  pose proof (sub_tags_tag_free (c :: x) 0) as Hfree.
  fold (sub_tags (c :: x)) in Hfree.
  rewrite sub_timestamps_tag_free by done.
  destruct (clean_tail_sentences U (sub_tags (c :: x))) as (us & ? & ? & ? & Hsub).
  exists us. split_and!; [done..|].
  etrans; [exact Hsub | apply dedup_words_atoms].
Qed.

(** X1: the normalizer's output has no whitespace at either end, and
    every run of whitespace in it is one space: [out.strip()] and
    [re.sub(r'\s+', ' ', out)] both give [out] back. *)
Theorem clean_transcript_whitespace U x :
  str_strip (clean_transcript U x) = clean_transcript U x
  ∧ sub_runs isspace SPACE false (clean_transcript U x) = clean_transcript U x.
Proof.
  destruct (clean_transcript_sentences U x) as (us & -> & Hus & _).
  split.
  - by apply strip_trimmed, sentences_trimmed.
  - destruct (sentences_single_spaced us Hus) as [Hi Hs].
    by apply sub_runs_isolated.
Qed.

Lemma split_at_first (c : char) (u pre post rest : pystr) :
  c ∉ u → pre ++ c :: post = u ++ c :: rest →
  (pre = u ∧ post = rest) ∨ ∃ pre', pre = u ++ c :: pre' ∧ pre' ++ c :: post = rest.
Proof.
  revert pre. induction u as [|d u IH]; intros pre Hc Heq.
  - destruct pre as [|e pre]; cbn [app] in Heq.
    + left. by injection Heq.
    + right. injection Heq as -> <-. by exists pre.
  - apply not_elem_of_cons in Hc as [Hne Hc].
    destruct pre as [|e pre]; cbn [app] in Heq.
    + injection Heq as ? _. congruence.
    + injection Heq as -> Heq. destruct (IH pre Hc Heq) as [[-> ->]|(pre' & -> & <-)].
      * by left.
      * right. by exists pre'.
Qed.

Lemma sentences_period (us : list pystr) :
  Forall clean_sentence us → ∀ pre post,
  join (py ". ") us = pre ++ [DOT] ++ post →
  ∃ c post', post = SPACE :: c :: post' ∧ isspace c = false.
Proof.
  induction 1 as [|u us Hu Hus IH]; intros pre post Heq.
  { by destruct pre. }
  assert (DOT ∉ u) as Hdot.
  { destruct Hu as (_ & _ & _ & Hterm). intros Hin.
    rewrite Forall_forall in Hterm. by specialize (Hterm DOT Hin). }
  destruct us as [|u' us].
  - cbn [join] in Heq. exfalso. apply Hdot. rewrite Heq.
    apply elem_of_app. right. by left.
  - rewrite join_cons in Heq. symmetry in Heq.
    change (py ". " ++ join (py ". ") (u' :: us))
      with (DOT :: SPACE :: join (py ". ") (u' :: us)) in Heq.
    destruct (split_at_first DOT u pre post _ Hdot Heq)
      as [[-> ->]|(pre' & -> & Hrest)].
    + pose proof (sentences_trimmed (u' :: us) Hus) as [Hstart _].
      apply Forall_cons in Hus as [(Hne & _) _].
      destruct (join (py ". ") (u' :: us)) as [|c r] eqn:Hj.
      * destruct us; [done|]. rewrite join_cons in Hj. by destruct u'.
      * by exists c, r.
    + destruct pre' as [|sp pre']; [discriminate|].
      injection Hrest as -> Hrest. by apply (IH pre' post).
Qed.

(** X2: no exclamation or question mark survives normalization, and
    every period of the output is followed by one space and then a
    non-whitespace character; in particular the output never ends with
    a period. *)
Theorem clean_transcript_terminators U x :
  Forall (λ c, c ≠ 33 ∧ c ≠ 63) (clean_transcript U x)
  ∧ ∀ pre post, clean_transcript U x = pre ++ [DOT] ++ post →
                ∃ c post', post = SPACE :: c :: post' ∧ isspace c = false.
Proof.
  destruct (clean_transcript_sentences U x) as (us & -> & Hus & _).
  split; [|by apply sentences_period].
  apply Forall_join; [by repeat constructor|].
  eapply Forall_impl; [exact Hus|]. intros u (_ & _ & _ & Hterm).
  eapply Forall_impl; [exact Hterm|]. intros c Hc. unfold is_terminator in Hc.
  split; intros ->; done.
Qed.

(** X3: splitting the output again at the sentence terminators, as the
    normalizer does, finds no sentence twice, and none empty unless the
    output is empty. *)
Theorem clean_transcript_distinct_sentences U x :
  let resplit :=
    map str_strip (split_runs is_terminator false (clean_transcript U x)) in
  NoDup resplit ∧ (clean_transcript U x ≠ [] → Forall (λ s, s ≠ []) resplit).
Proof.
  destruct (clean_transcript_sentences U x) as (us & -> & Hus & Hnd & _).
  destruct us as [|u rest].
  { split; [by apply NoDup_singleton | done]. }
  pose proof (split_runs_sentences (u :: rest) Hus [] u rest eq_refl (Forall_nil_2 _))
    as Hsplit.
  cbn [app] in Hsplit. cbn zeta. rewrite Hsplit.
  assert (map str_strip (u :: map (cons SPACE) rest) = u :: rest) as ->.
  { apply Forall_cons in Hus as [Hu Hrest]. cbn [map]. f_equal.
    - apply strip_trimmed, Hu.
    - clear -Hrest. induction Hrest as [|u' rest Hu' _ IH]; [done|].
      cbn [map]. by rewrite strip_space_sentence, IH. }
  split; [done|]. intros _. eapply Forall_impl; [exact Hus|]. by intros s (? & _).
Qed.

Lemma clean_transcript_distinct_sentences_witness :
  Forall (λ s, s ≠ [])
         (map str_strip
              (split_runs is_terminator false
                 (clean_transcript ascii_db (py "One two! One two? Three.")))).
Proof.
  destruct (clean_transcript_distinct_sentences ascii_db
              (py "One two! One two? Three.")) as [_ Hne].
  apply Hne. by vm_compute.
Defined.

(** X4: the normalizer neither invents nor reorders text: the atoms of
    its output (the maximal runs of characters that are neither
    whitespace nor [.], [!], [?]) are, in order, atoms of the input
    after the tag removal. *)
Theorem clean_transcript_keeps_order U x :
  atoms (clean_transcript U x) `sublist_of` atoms (sub_tags x).
Proof.
  destruct (clean_transcript_sentences U x) as (us & -> & _ & _ & Hsub).
  unfold atoms at 1. by rewrite chunks_join by by repeat constructor.
Qed.

Lemma clean_transcript_no_atoms U x :
  atoms (sub_tags x) = [] → clean_transcript U x = [].
Proof.
  intros Hnone.
  destruct (clean_transcript_sentences U x) as (us & -> & Hus & _ & Hsub).
  rewrite Hnone in Hsub. apply sublist_nil_r in Hsub.
  destruct Hus as [|u us Hu _]; [done|].
  destruct (sentence_atoms u Hu) as (_ & Hne & _).
  cbn [map concat] in Hsub. apply app_eq_nil in Hsub as [? _]. done.
Qed.

(** X5: an input in which the tag removal leaves only whitespace and
    sentence terminators normalizes to the empty string. *)
Theorem clean_transcript_nothing_left U x :
  atoms (sub_tags x) = [] → clean_transcript U x = [].
Proof. apply clean_transcript_no_atoms. Qed.

Lemma clean_transcript_nothing_left_witness :
  clean_transcript ascii_db (py " <i> ... </i> ?! ") = [].
Proof.
  apply (clean_transcript_nothing_left ascii_db (py " <i> ... </i> ?! ")).
  by vm_compute.
Defined.

Lemma dedup_words_no_repeat U prev ws i w1 w2 :
  dedup_words U prev ws !! i = Some w1 →
  dedup_words U prev ws !! Datatypes.S i = Some w2 →
  str_lower U w1 ≠ str_lower U w2.
Proof.
  assert (∀ ws prev w, head (dedup_words U prev ws) = Some w →
            ∀ p, (∀ q, prev = Some q → str_lower U q = str_lower U p) →
                 prev ≠ None → str_lower U p ≠ str_lower U w) as Hhead.
  { clear. intros ws. induction ws as [|v ws IH]; intros prev w Hw p Hp Hsome; [done|].
    cbn [dedup_words] in Hw. destruct prev as [q|]; [|done].
    specialize (Hp q eq_refl). destruct (decide _) as [Heq|Hne].
    - apply (IH (Some v) w Hw p); [|done]. intros ? [= <-]. congruence.
    - simpl in Hw. injection Hw as <-. congruence. }
  revert prev i. induction ws as [|v ws IH]; intros prev i H1 H2; [done|].
  cbn [dedup_words] in H1, H2.
  assert (∀ i, (v :: dedup_words U (Some v) ws) !! i = Some w1 →
               (v :: dedup_words U (Some v) ws) !! Datatypes.S i = Some w2 →
               str_lower U w1 ≠ str_lower U w2) as Hkept.
  { intros [|j] Hj1 Hj2.
    - simpl in Hj1, Hj2. injection Hj1 as <-.
      apply (Hhead ws (Some v) w2); [|by intros ? [= <-]|done].
      by destruct (dedup_words U (Some v) ws).
    - simpl in Hj1, Hj2. by apply (IH (Some v) j). }
  destruct prev as [p|]; [|by apply (Hkept i)].
  destruct (decide _); [by apply (IH (Some v) i) | by apply (Hkept i)].
Qed.

(** X6: after the word loop no word equals, up to case, the word before
    it. *)
Theorem dedup_words_no_immediate_repeat U words i w1 w2 :
  dedup_words U None words !! i = Some w1 →
  dedup_words U None words !! Datatypes.S i = Some w2 →
  str_lower U w1 ≠ str_lower U w2.
Proof. apply dedup_words_no_repeat. Qed.

Lemma dedup_words_no_immediate_repeat_witness :
  dedup_words ascii_db None (map py ["the"; "THE"; "cat"; "sat"; "sat"]%string)
  = map py ["the"; "cat"; "sat"]%string
  ∧ str_lower ascii_db (py "the") ≠ str_lower ascii_db (py "cat").
Proof.
  split; [by vm_compute|].
  apply (dedup_words_no_immediate_repeat ascii_db
           (map py ["the"; "THE"; "cat"; "sat"; "sat"]%string) 0); reflexivity.
Defined.

(** ** The fetch pipeline, further *)

(** X7: with a standard output that takes every message, the first
    strategy whose result does not start with the failure marker
    decides: when the strategies before it fail, the result is the
    normalization of its text, and no later strategy is invoked. *)
Theorem first_success_returned U O net video_url video_id pre m post r :
  encodes_all O →
  extract_video_id (str_strip video_url) = Ok (Some video_id) →
  length video_id = 11%nat →
  methods net = pre ++ m :: post →
  Forall (strategy_fails video_id (str_strip video_url)) pre →
  method_func m video_id (str_strip video_url) = Ok r →
  startswith [CROSS] r = false →
  get_transcript U O net video_url
  = (Ok (clean_transcript U r), map method_name pre ++ [method_name m]).
Proof.
  intros HO Hid Hlen Hms Hpre Hm Hr. unfold get_transcript.
  rewrite (get_transcript_valid_id _ _ _ _ _ HO Hid Hlen), Hms.
  by rewrite (try_methods_first_success U O pre m post _ _ r HO Hpre Hm Hr).
Qed.

Lemma first_success_returned_witness :
  get_transcript ascii_db utf8 scraping_succeeds (py " https://youtu.be/abcdefghijk ")
  = (Ok (py "Markup and a repeated word. One more sentence"),
     [py "yt-dlp Method"; py "Direct API Method"; py "Web Scraping Method"]).
Proof.
  apply (first_success_returned ascii_db utf8 scraping_succeeds
           (py " https://youtu.be/abcdefghijk ") (py "abcdefghijk")
           [ {| method_name := py "yt-dlp Method";
                method_func := get_transcript_ytdlp scraping_succeeds |};
             {| method_name := py "Direct API Method";
                method_func := get_transcript_direct_api scraping_succeeds |} ]
           {| method_name := py "Web Scraping Method";
              method_func := get_transcript_web_scraping scraping_succeeds |}
           []
           (py "<c>Markup</c> and and a repeated word. One more sentence!")).
  - done.
  - reflexivity.
  - reflexivity.
  - reflexivity.
  - repeat constructor.
  - reflexivity.
  - reflexivity.
Defined.

Lemma tagless_no_lt later s : Forall (λ c, c ≠ LT) s → tagless later s.
Proof. induction 1 as [|c s Hc _ IH]; [done|]. split; [done | exact IH]. Qed.

Lemma tag_free_spans s pre body post :
  tag_free s → s = pre ++ [LT] ++ body ++ [GT] ++ post → GT ∉ body → body = [].
Proof.
  intros Hfree -> Hbody. apply tagless_suffix in Hfree as [Hlt _].
  destruct (Hlt eq_refl) as [Hgt|[Hnone _]].
  - destruct body as [|c body]; [done|]. simpl in Hgt. subst c.
    exfalso. apply Hbody. by left.
  - exfalso. apply Hnone. cbn [app]. apply elem_of_app. right. by left.
Qed.

(** What the inner [try] returns from inside the loop is a normalized
    strategy result; what it raises is raised by the strategy or by a
    [print]. *)
Lemma try_method_cases U O m video_id video_url :
  match (try_method U O m video_id video_url).1 with
  | Ok (Some r) => ∃ text, r = clean_transcript U text
  | Ok None => True
  | Raise e => True
  end.
Proof.
  unfold try_method. destruct (print O _); [|done]. cbn [fst].
  destruct (method_func m video_id video_url) as [result|e]; [|done].
  cbn [mbind result_bind]. destruct (negb _).
  - destruct (print O (CHECK :: _)); cbn [mbind result_bind]; [|done].
    destruct (print O _); cbn [mbind result_bind]; [|done]. by eexists.
  - by destruct (print O _).
Qed.

Lemma try_methods_result U O ms video_id video_url r calls :
  try_methods U O ms video_id video_url = (Ok (Some r), calls) →
  ∃ text, r = clean_transcript U text.
Proof.
  revert calls. induction ms as [|m ms IH]; intros calls H; [done|].
  cbn [try_methods] in H.
  pose proof (try_method_cases U O m video_id video_url) as Hm.
  destruct (try_method U O m video_id video_url) as [attempt invoked].
  cbn [fst] in Hm.
  destruct (try_methods U O ms video_id video_url) as [r' calls'].
  destruct attempt as [[cleaned|]|e].
  - by injection H as <- _.
  - injection H as -> _. by apply (IH calls').
  - destruct (print O _); [|done]. injection H as -> _. by apply (IH calls').
Qed.

(** An exception that leaves the loop is an exception of [print]. *)
Lemma try_methods_raises U O ms video_id video_url e calls :
  try_methods U O ms video_id video_url = (Raise e, calls) →
  ∃ text, print O text = Raise e.
Proof.
  revert calls. induction ms as [|m ms IH]; intros calls H; [done|].
  cbn [try_methods] in H.
  destruct (try_method U O m video_id video_url) as [attempt invoked].
  destruct (try_methods U O ms video_id video_url) as [r' calls'].
  destruct attempt as [[cleaned|]|e0].
  - done.
  - injection H as -> _. by apply (IH calls').
  - destruct (print O (CROSS :: py " " ++ method_name m ++ py " error: " ++ e0))
      as [|e'] eqn:Hp.
    + injection H as -> _. by apply (IH calls').
    + injection H as -> _. by eexists.
Qed.

(** An exception of the body of the outer [try] is an exception of
    [print]: no index of the extraction is out of range, and the
    exceptions of the strategies are caught inside the loop. *)
Lemma get_transcript_body_raises U O net video_url e calls :
  get_transcript_body U O net video_url = (Raise e, calls) →
  ∃ text, print O text = Raise e.
Proof.
  unfold get_transcript_body, fetch_with_id.
  destruct (extract_video_id_returns (str_strip video_url)) as [[video_id|] ->];
    [|done].
  destruct (_ || _); [done|].
  destruct (print O (py "Attempting to fetch transcript for video ID: " ++ video_id))
    as [|e'] eqn:Hp.
  - destruct (try_methods _ _ _ _ _) as [[[r|]|e0] calls0] eqn:Htry; [done..|].
    intros [= <- _]. by apply (try_methods_raises _ _ _ _ _ _ _ Htry).
  - intros [= <- _]. by eexists.
Qed.

(** Whatever the body of [get_transcript] returns is one of its three
    markers or a normalized strategy result. *)
Lemma get_transcript_body_cases U O net video_url r calls :
  get_transcript_body U O net video_url = (Ok r, calls) →
  r = INVALID_URL_FORMAT ∨ r = INVALID_VIDEO_ID ∨ r = ALL_METHODS_FAILED
  ∨ ∃ text, r = clean_transcript U text.
Proof.
  unfold get_transcript_body, fetch_with_id.
  destruct (extract_video_id (str_strip video_url)) as [[video_id|]|e0]; [| |done].
  - destruct (_ || _); [intros [= <- _]; by right; left|].
    destruct (print O _); [|done].
    destruct (try_methods _ _ _ _ _) as [[[r0|]|e0] calls0] eqn:Htry; [| |done].
    + intros [= <- _]. do 3 right. by apply (try_methods_result _ _ _ _ _ _ _ Htry).
    + intros [= <- _]. by right; right; left.
  - intros [= <- _]. by left.
Qed.

(** Besides these, [get_transcript] returns the unexpected-error marker
    with the message of the exception. *)
Lemma get_transcript_cases U O net video_url r calls :
  get_transcript U O net video_url = (Ok r, calls) →
  r = INVALID_URL_FORMAT ∨ r = INVALID_VIDEO_ID ∨ r = ALL_METHODS_FAILED
  ∨ (∃ text, r = clean_transcript U text)
  ∨ ∃ e, r = UNEXPECTED_ERROR ++ e.
Proof.
  unfold get_transcript.
  destruct (get_transcript_body U O net video_url) as [[r0|e] calls0] eqn:Hbody.
  - intros [= <- _].
    destruct (get_transcript_body_cases _ _ _ _ _ _ Hbody) as [?|[?|[?|?]]]; tauto.
  - destruct (print O _); [|done]. intros [= <- _]. do 4 right. by eexists.
Qed.

(** X8: whatever [get_transcript] returns, a transcript or one of its
    three markers, no substring of it matches the angle-bracket pattern
    [<[^>]+>]; only the unexpected-error marker, which carries the
    message of an exception, is left out. *)
Theorem get_transcript_no_tags U O net video_url r calls pre body post :
  get_transcript U O net video_url = (Ok r, calls) →
  startswith UNEXPECTED_ERROR r = false →
  r = pre ++ [LT] ++ body ++ [GT] ++ post →
  GT ∉ body →
  body = [].
Proof.
  intros Hr Hexpected. apply tag_free_spans.
  destruct (get_transcript_cases _ _ _ _ _ _ Hr) as [->|[->|[->|[[text ->]|[e ->]]]]].
  - apply tagless_no_lt. apply (bool_decide_unpack _). by vm_compute.
  - apply tagless_no_lt. apply (bool_decide_unpack _). by vm_compute.
  - apply tagless_no_lt. apply (bool_decide_unpack _). by vm_compute.
  - apply clean_transcript_tag_free.
  - assert (startswith UNEXPECTED_ERROR (UNEXPECTED_ERROR ++ e) = true) as Heq
      by (apply startswith_spec; by exists e).
    congruence.
Qed.

Lemma get_transcript_no_tags_witness :
  get_transcript ascii_db utf8 angle_brackets_result (py "https://youtu.be/abcdefghijk")
  = (Ok (py "a b <> c"), [py "yt-dlp Method"])
  ∧ @nil N = [].
Proof.
  split; [by vm_compute|].
  apply (get_transcript_no_tags ascii_db utf8 angle_brackets_result
           (py "https://youtu.be/abcdefghijk") (py "a b <> c") [py "yt-dlp Method"]
           (py "a b ") [] (py " c")).
  - by vm_compute.
  - by vm_compute.
  - by vm_compute.
  - apply not_elem_of_nil.
Defined.

(** X9: the handler for unexpected errors is entered only when a
    [print] fails: every exception of the body of [get_transcript] is
    the exception of a [print], since the extraction of the video ID
    never indexes out of range and the exceptions of the strategies are
    caught inside the loop; with a standard output that takes every
    message the body returns. *)
Theorem unexpected_error_only_from_print U O net video_url :
  (∀ e calls, get_transcript_body U O net video_url = (Raise e, calls) →
              ∃ text, print O text = Raise e)
  ∧ (encodes_all O →
     ∃ r calls, get_transcript_body U O net video_url = (Ok r, calls)
                ∧ get_transcript U O net video_url = (Ok r, calls)).
Proof.
  split; [intros e calls; apply get_transcript_body_raises|].
  intros HO. unfold get_transcript.
  destruct (get_transcript_body U O net video_url) as [[r|e] calls] eqn:Hbody.
  - by exists r, calls.
  - destruct (get_transcript_body_raises _ _ _ _ _ _ Hbody) as [text Htext].
    by rewrite print_all in Htext.
Qed.

(** ** The shapes of a video URL *)

Lemma split_sep_skip sep a b : split_sep sep (length a) (a ++ b) = split_sep sep 0 b.
Proof. induction a as [|c a IH]; [done|]. exact IH. Qed.

Lemma startswith_app_l sep a b :
  startswith sep (a ++ b) = true → (length sep ≤ length a)%nat →
  startswith sep a = true.
Proof.
  revert a. induction sep as [|c sep IH]; intros a H Hlen; [done|].
  destruct a as [|d a]; [simpl in Hlen; lia|].
  cbn [app startswith] in *. apply andb_true_iff in H as [-> H].
  apply IH; [done | simpl in Hlen; lia].
Qed.

(** [s.split(sep)] cuts at the first occurrence of [sep]. *)
Lemma split_sep_first sep pre rest :
  sep ≠ [] → contains sep (pre ++ removelast sep) = false →
  split_sep sep 0 (pre ++ sep ++ rest) = pre :: split_sep sep 0 rest.
Proof.
  intros Hsep. induction pre as [|d pre IH]; intros Hnone.
  - destruct sep as [|c sep]; [done|]. cbn [app].
    assert (startswith (c :: sep) (c :: sep ++ rest) = true) as Hst
      by (apply startswith_spec; by exists rest).
    cbn [split_sep]. rewrite Hst. f_equal.
    replace (length (c :: sep) - 1)%nat with (length sep) by (simpl; lia).
    apply split_sep_skip.
  - cbn [app contains] in Hnone. apply orb_false_elim in Hnone as [Hhere Hlater].
    cbn [app split_sep].
    assert (startswith sep (d :: pre ++ sep ++ rest) = false) as ->.
    { destruct (startswith sep (d :: pre ++ sep ++ rest)) eqn:Hst; [|done].
      assert (d :: pre ++ sep ++ rest
              = (d :: pre ++ removelast sep) ++ [List.last sep 0] ++ rest) as Heq.
      { cbn [app]. f_equal. rewrite <- app_assoc. f_equal.
        rewrite (app_removelast_last 0 Hsep) at 1. by rewrite <- app_assoc. }
      rewrite Heq in Hst. apply startswith_app_l in Hst; [congruence|].
      pose proof (f_equal length (app_removelast_last 0 Hsep)) as Hlen.
      rewrite length_app in Hlen. cbn [length] in *. rewrite length_app. lia. }
    by rewrite (IH Hlater).
Qed.

Lemma split_sep_none sep s :
  sep ≠ [] → contains sep s = false → split_sep sep 0 s = [s].
Proof.
  intros Hsep. induction s as [|c s IH]; intros Hnone; [done|].
  cbn [contains] in Hnone. apply orb_false_elim in Hnone as [Hhere Hlater].
  cbn [split_sep]. by rewrite Hhere, (IH Hlater).
Qed.

Lemma split_char_first c pre rest :
  c ∉ pre → split_sep [c] 0 (pre ++ c :: rest) = pre :: split_sep [c] 0 rest.
Proof.
  intros Hc. induction pre as [|d pre IH].
  - cbn [app split_sep startswith]. by rewrite N.eqb_refl.
  - apply not_elem_of_cons in Hc as [Hne Hc]. cbn [app split_sep startswith].
    destruct (N.eqb_spec c d) as [->|_]; [done|]. cbn [andb]. by rewrite (IH Hc).
Qed.

Lemma split_char_none c s : c ∉ s → split_sep [c] 0 s = [s].
Proof.
  induction s as [|d s IH]; intros Hc; [done|].
  apply not_elem_of_cons in Hc as [Hne Hc]. cbn [split_sep startswith].
  destruct (N.eqb_spec c d) as [->|_]; [done|]. cbn [andb]. by rewrite (IH Hc).
Qed.

(** The part of a query value up to its first [sep]. *)
Lemma first_field_of_value c id tail :
  c ∉ id → tail = [] ∨ (∃ t, tail = c :: t) →
  ∃ fs, split_sep [c] 0 (id ++ tail) = id :: fs.
Proof.
  intros Hc [->|[t ->]].
  - rewrite app_nil_r, split_char_none by done. by eexists.
  - rewrite split_char_first by done. by eexists.
Qed.

Lemma watch_id_field id t :
  EQUALS ∉ id →
  ∃ F fs, split_sep (py "v=") 0 (id ++ AMP :: t) = (id ++ AMP :: F) :: fs.
Proof.
  intros Heq. induction id as [|c id IH].
  - cbn [app]. pose proof (split_sep_nonempty (py "v=") 0 t) as Hne.
    change (split_sep (py "v=") 0 (AMP :: t))
      with (match split_sep (py "v=") 0 t with
            | f :: fs => (AMP :: f) :: fs
            | [] => [[AMP]]
            end).
    destruct (split_sep (py "v=") 0 t) as [|f fs]; [done|]. by exists f, fs.
  - apply not_elem_of_cons in Heq as [Hne Heq].
    destruct (IH Heq) as (F & fs & HF). cbn [app split_sep].
    assert (startswith (py "v=") (c :: id ++ AMP :: t) = false) as ->.
    { change (py "v=") with [118; EQUALS]. cbn [startswith].
      destruct id as [|d id]; cbn [app].
      - by destruct (118 =? c).
      - apply not_elem_of_cons in Heq as [Hd _].
        destruct (N.eqb_spec EQUALS d) as [Hd'|_]; [congruence|].
        by destruct (118 =? c). }
    rewrite HF. by exists F, fs.
Qed.

Lemma split_v_first pre rest :
  contains (py "v=") pre = false →
  split_sep (py "v=") 0 (pre ++ py "v=" ++ rest) = pre :: split_sep (py "v=") 0 rest.
Proof.
  intros Hnone. induction pre as [|d pre IH].
  - reflexivity.
  - cbn [contains] in Hnone. apply orb_false_elim in Hnone as [Hhere Hlater].
    cbn [app split_sep].
    assert (startswith (py "v=") (d :: pre ++ py "v=" ++ rest) = false) as ->.
    { change (py "v=") with [118; EQUALS] in *. cbn [startswith] in *.
      destruct pre as [|e pre]; cbn [app].
      - by destruct (118 =? d).
      - exact Hhere. }
    by rewrite (IH Hlater).
Qed.

(** The ID of a watch URL: ["v="] first occurs right before an ID that
    contains neither ['='] nor ['&'], and the ID is followed by nothing
    or by ['&']. *)
Lemma watch_url_extracted pre id tail :
  contains (py "v=") pre = false →
  EQUALS ∉ id → AMP ∉ id →
  tail = [] ∨ (∃ t, tail = AMP :: t) →
  extract_video_id (pre ++ py "v=" ++ id ++ tail) = Ok (Some id).
Proof.
  intros Hpre Heq Hamp Htail. unfold extract_video_id.
  assert (contains (py "v=") (pre ++ py "v=" ++ id ++ tail) = true) as ->
    by (apply contains_spec; by exists pre, (id ++ tail)).
  unfold str_split_on. rewrite split_v_first by done.
  assert (∃ F fs, split_sep (py "v=") 0 (id ++ tail) = (id ++ F) :: fs
                  ∧ (F = [] ∨ ∃ t, F = AMP :: t)) as (F & fs & -> & HF).
  { destruct Htail as [->|[t ->]].
    - exists [], []. rewrite app_nil_r. split; [|by left].
      apply split_sep_none; [done|].
      destruct (contains (py "v=") id) eqn:Hc; [|done].
      apply contains_spec in Hc as (a & b & ->). exfalso. apply Heq.
      apply elem_of_app. right. right. by left.
    - destruct (watch_id_field id t Heq) as (F & fs & ->).
      exists (AMP :: F), fs. split; [done|]. right. by eexists. }
  change (getitem (pre :: (id ++ F) :: fs) 1) with (@Ok (list N) (id ++ F)).
  cbn [mbind result_bind]. unfold getitem, str_split_on. change (py "&") with [AMP].
  by destruct (first_field_of_value AMP id F Hamp HF) as [gs ->].
Qed.

(** X10: a watch URL gives its video ID back: when, in the stripped
    URL, ["v="] first occurs right before an ID that contains neither
    ['='] nor ['&'], and the ID is followed by nothing or by ['&'],
    the extracted ID is that ID and [get_transcript] goes on with
    it. *)
Theorem watch_url_video_id U O net video_url pre id tail :
  str_strip video_url = pre ++ py "v=" ++ id ++ tail →
  contains (py "v=") pre = false →
  EQUALS ∉ id → AMP ∉ id →
  tail = [] ∨ (∃ t, tail = AMP :: t) →
  extract_video_id (str_strip video_url) = Ok (Some id)
  ∧ get_transcript_body U O net video_url
    = fetch_with_id U O net id (str_strip video_url).
Proof.
  intros Hurl Hpre Heq Hamp Htail.
  assert (extract_video_id (str_strip video_url) = Ok (Some id)) as Hid
    by (rewrite Hurl; by apply watch_url_extracted).
  split; [done|]. unfold get_transcript_body. by rewrite Hid.
Qed.

Lemma watch_url_video_id_witness :
  extract_video_id
    (str_strip (py "  https://www.youtube.com/watch?v=dQw4w9WgXcQ&t=43s "))
  = Ok (Some (py "dQw4w9WgXcQ"))
  ∧ get_transcript_body ascii_db utf8 failing_strategies
      (py "  https://www.youtube.com/watch?v=dQw4w9WgXcQ&t=43s ")
    = fetch_with_id ascii_db utf8 failing_strategies (py "dQw4w9WgXcQ")
        (str_strip (py "  https://www.youtube.com/watch?v=dQw4w9WgXcQ&t=43s ")).
Proof.
  apply (watch_url_video_id ascii_db utf8 failing_strategies
           (py "  https://www.youtube.com/watch?v=dQw4w9WgXcQ&t=43s ")
           (py "https://www.youtube.com/watch?") (py "dQw4w9WgXcQ") (py "&t=43s")).
  - by vm_compute.
  - reflexivity.
  - apply (bool_decide_unpack _). by vm_compute.
  - apply (bool_decide_unpack _). by vm_compute.
  - right. by exists (py "t=43s").
Defined.

(** The ID of a short link: the URL has no ["v="], its host
    ["youtu.be/"] occurs once, right before an ID without ['?'], and
    the ID is followed by nothing or by ['?']. *)
Lemma short_url_extracted pre id tail :
  contains (py "v=") (pre ++ py "youtu.be/" ++ id ++ tail) = false →
  contains (py "youtu.be/") (pre ++ py "youtu.be") = false →
  contains (py "youtu.be/") (id ++ tail) = false →
  QUESTION ∉ id →
  tail = [] ∨ (∃ t, tail = QUESTION :: t) →
  extract_video_id (pre ++ py "youtu.be/" ++ id ++ tail) = Ok (Some id).
Proof.
  intros Hv Hpre Hafter Hq Htail. unfold extract_video_id. rewrite Hv.
  assert (contains (py "youtu.be/") (pre ++ py "youtu.be/" ++ id ++ tail) = true) as ->
    by (apply contains_spec; by exists pre, (id ++ tail)).
  unfold str_split_on. rewrite (split_sep_first (py "youtu.be/")) by done.
  rewrite (split_sep_none (py "youtu.be/") (id ++ tail)) by done.
  change (getitem [pre; id ++ tail] 1) with (@Ok (list N) (id ++ tail)).
  cbn [mbind result_bind]. unfold getitem, str_split_on. change (py "?") with [QUESTION].
  by destruct (first_field_of_value QUESTION id tail Hq Htail) as [gs ->].
Qed.

(** X11: a short link gives its video ID back: when the stripped URL
    has no ["v="], its host ["youtu.be/"] occurs once, right before an
    ID without ['?'], and the ID is followed by nothing or by ['?'],
    the extracted ID is that ID and [get_transcript] goes on with
    it. *)
Theorem short_url_video_id U O net video_url pre id tail :
  str_strip video_url = pre ++ py "youtu.be/" ++ id ++ tail →
  contains (py "v=") (str_strip video_url) = false →
  contains (py "youtu.be/") (pre ++ py "youtu.be") = false →
  contains (py "youtu.be/") (id ++ tail) = false →
  QUESTION ∉ id →
  tail = [] ∨ (∃ t, tail = QUESTION :: t) →
  extract_video_id (str_strip video_url) = Ok (Some id)
  ∧ get_transcript_body U O net video_url
    = fetch_with_id U O net id (str_strip video_url).
Proof.
  intros Hurl Hv Hpre Hafter Hq Htail.
  assert (extract_video_id (str_strip video_url) = Ok (Some id)) as Hid
    by (rewrite Hurl in *; by apply short_url_extracted).
  split; [done|]. unfold get_transcript_body. by rewrite Hid.
Qed.

Lemma short_url_video_id_witness :
  extract_video_id (str_strip (py "https://youtu.be/dQw4w9WgXcQ?t=43 "))
  = Ok (Some (py "dQw4w9WgXcQ"))
  ∧ get_transcript_body ascii_db utf8 failing_strategies
      (py "https://youtu.be/dQw4w9WgXcQ?t=43 ")
    = fetch_with_id ascii_db utf8 failing_strategies (py "dQw4w9WgXcQ")
        (str_strip (py "https://youtu.be/dQw4w9WgXcQ?t=43 ")).
Proof.
  apply (short_url_video_id ascii_db utf8 failing_strategies
           (py "https://youtu.be/dQw4w9WgXcQ?t=43 ")
           (py "https://") (py "dQw4w9WgXcQ") (py "?t=43")).
  - by vm_compute.
  - by vm_compute.
  - reflexivity.
  - reflexivity.
  - apply (bool_decide_unpack _). by vm_compute.
  - right. by exists (py "t=43").
Defined.

(** ** Parsing a subtitle file *)

Lemma split_char_fields c s : split_sep [c] 0 s = fields (N.eqb c) s.
Proof.
  induction s as [|d s IH]; [done|]. cbn [split_sep startswith fields length Nat.sub].
  rewrite andb_true_r. destruct (c =? d); by rewrite IH.
Qed.

Lemma not_elem_of_eqb (c : char) (l : pystr) :
  c ∉ l → Forall (λ d, (c =? d) = false) l.
Proof.
  intros Hc. apply Forall_forall. intros d Hd. apply N.eqb_neq. by intros <-.
Qed.

Lemma clean_transcript_part U x :
  clean_transcript U x ≠ [] → clean_part (clean_transcript U x).
Proof.
  destruct (clean_transcript_sentences U x) as (us & -> & Hus & _). intros Hne.
  split_and!; [done | by apply sentences_trimmed | by apply sentences_single_spaced].
Qed.

Lemma add_part_parts U D parts line :
  Forall clean_part parts → Forall clean_part (add_part U D parts line).
Proof.
  intros Hparts. unfold add_part. destruct (is_text_line _ _ _); [|done].
  destruct (clean_transcript U (str_strip line)) as [|c r] eqn:Hc; [done|].
  cbn [nonempty]. apply Forall_app. split; [done|]. constructor; [|constructor].
  rewrite <- Hc. apply clean_transcript_part. by rewrite Hc.
Qed.

Lemma fold_add_part_parts U D lines parts :
  Forall clean_part parts → Forall clean_part (fold_left (add_part U D) lines parts).
Proof.
  revert parts. induction lines as [|line lines IH]; intros parts Hparts; [done|].
  cbn [fold_left]. by apply IH, add_part_parts.
Qed.

Lemma parts_single_spaced (parts : list pystr) :
  Forall clean_part parts → single_spaced (join (py " ") parts).
Proof.
  induction 1 as [|p parts Hp Hparts IH]; [done|].
  destruct parts as [|p' parts]; [apply Hp|].
  rewrite join_cons. destruct Hp as (_ & [_ Hend] & Hss).
  apply single_spaced_app; [done| |by left].
  apply (single_spaced_app (py " ")); [|done|].
  - split; [|by repeat constructor]. by repeat split.
  - right. apply join_starts_outside. eapply Forall_impl; [exact Hparts|].
    by intros u (? & [? ?] & _).
Qed.

Lemma parts_trimmed (parts : list pystr) :
  Forall clean_part parts → trimmed (join (py " ") parts).
Proof.
  intros Hparts. split.
  - apply join_starts_outside. eapply Forall_impl; [exact Hparts|].
    by intros u (? & [? ?] & _).
  - apply join_ends_outside. eapply Forall_impl; [exact Hparts|].
    by intros u (? & [? ?] & _).
Qed.

Lemma single_spaced_no_newline s : single_spaced s → NEWLINE ∉ s.
Proof.
  intros [_ Hs] Hin. rewrite Forall_forall in Hs. by specialize (Hs _ Hin eq_refl).
Qed.

(** X12: whatever the subtitle file, the parsed transcript is one
    non-empty line: it is never the empty string, it contains no line
    break, and collapsing its whitespace changes nothing. *)
Theorem parse_vtt_content_one_line U other_digit vtt_content :
  let r := parse_vtt_content U other_digit vtt_content in
  r ≠ [] ∧ (NEWLINE ∉ r) ∧ collapse_ws r = r.
Proof.
  cbn zeta. unfold parse_vtt_content.
  pose proof (fold_add_part_parts U other_digit
                (str_split_on [NEWLINE] vtt_content) [] (Forall_nil_2 _)) as Hparts.
  destruct (fold_left _ _ _) as [|p parts].
  { split_and!; [done | | by vm_compute].
    apply (bool_decide_unpack _). by vm_compute. }
  pose proof (parts_single_spaced _ Hparts) as Hss.
  pose proof (parts_trimmed _ Hparts) as Htr.
  split_and!.
  - apply join_nonnil; [done|]. eapply Forall_impl; [exact Hparts|]. by intros u (? & _).
  - by apply single_spaced_no_newline.
  - by apply collapse_ws_fixed.
Qed.

Lemma lines_app a b :
  str_split_on [NEWLINE] (a ++ [NEWLINE] ++ b)
  = str_split_on [NEWLINE] a ++ str_split_on [NEWLINE] b.
Proof.
  unfold str_split_on. rewrite !split_char_fields.
  apply fields_app, N.eqb_refl.
Qed.

Lemma lines_one line : NEWLINE ∉ line → str_split_on [NEWLINE] line = [line].
Proof.
  intros Hline. unfold str_split_on. rewrite split_char_fields.
  by apply fields_outside, not_elem_of_eqb.
Qed.

(** X13: a line that does not count as text (a blank line, the header,
    a cue number, a cue timing) leaves no trace: the file parses as it
    does without the line. *)
Theorem skipped_line_leaves_no_trace U other_digit a line b :
  NEWLINE ∉ line →
  is_text_line U other_digit (str_strip line) = false →
  parse_vtt_content U other_digit (a ++ [NEWLINE] ++ line ++ [NEWLINE] ++ b)
  = parse_vtt_content U other_digit (a ++ [NEWLINE] ++ b).
Proof.
  intros Hline Hskip. unfold parse_vtt_content.
  rewrite !lines_app, (lines_one line Hline), !fold_left_app. cbn [fold_left].
  assert (∀ parts, add_part U other_digit parts line = parts) as Hsame
    by (intros parts; unfold add_part; by rewrite Hskip).
  by rewrite Hsame.
Qed.

Lemma skipped_line_leaves_no_trace_witness :
  parse_vtt_content ascii_db (λ _, false)
    (py "Hello" ++ [NEWLINE] ++ cue_timing ++ [NEWLINE] ++ py "world")
  = py "Hello world".
Proof.
  rewrite (skipped_line_leaves_no_trace ascii_db (λ _, false)
             (py "Hello") cue_timing (py "world")).
  - by vm_compute.
  - apply (bool_decide_unpack _). by vm_compute.
  - by vm_compute.
Defined.

(** ** Line endings *)

Lemma lstrip_snoc l c :
  isspace c = true →
  lstrip (l ++ [c]) = match lstrip l with [] => [] | m => m ++ [c] end.
Proof.
  intros Hc. induction l as [|d l IH]; cbn [app lstrip].
  - by rewrite Hc.
  - by destruct (isspace d).
Qed.

Lemma str_strip_snoc l c : isspace c = true → str_strip (l ++ [c]) = str_strip l.
Proof.
  intros Hc. unfold str_strip. rewrite lstrip_snoc by done.
  destruct (lstrip l) as [|d m]; [done|].
  rewrite rev_app_distr. cbn [rev app lstrip]. by rewrite Hc.
Qed.

Lemma fold_add_part_strip U D lines1 lines2 parts :
  Forall2 (λ l1 l2, str_strip l1 = str_strip l2) lines1 lines2 →
  fold_left (add_part U D) lines1 parts = fold_left (add_part U D) lines2 parts.
Proof.
  intros H. revert parts. induction H as [|l1 l2 lines1 lines2 Hl _ IH]; intros parts.
  - done.
  - cbn [fold_left]. rewrite IH. f_equal. unfold add_part. by rewrite Hl.
Qed.

Lemma lines_crlf (lines : list pystr) :
  Forall (λ line, NEWLINE ∉ line) lines →
  Forall2 (λ l1 l2, str_strip l1 = str_strip l2)
          (str_split_on [NEWLINE] (join [CARRIAGE_RETURN; NEWLINE] lines))
          (str_split_on [NEWLINE] (join [NEWLINE] lines)).
Proof.
  induction 1 as [|l lines Hl Hlines IH].
  - by repeat constructor.
  - destruct lines as [|l' lines].
    + cbn [join]. rewrite lines_one by done. by repeat constructor.
    + rewrite !join_cons.
      change (l ++ [CARRIAGE_RETURN; NEWLINE] ++ join [CARRIAGE_RETURN; NEWLINE] (l' :: lines))
        with (l ++ [CARRIAGE_RETURN] ++ [NEWLINE]
                ++ join [CARRIAGE_RETURN; NEWLINE] (l' :: lines)).
      rewrite (app_assoc l [CARRIAGE_RETURN]), !lines_app.
      apply Forall2_app; [|exact IH].
      rewrite !lines_one; [|done|].
      * constructor; [|constructor]. by apply str_strip_snoc.
      * intros [Hin|Hin]%elem_of_app; [done|].
        by apply list_elem_of_singleton in Hin.
Qed.

(** X14: the line endings do not matter: a file whose lines end with a
    carriage return and a line break parses as the same lines ending
    with a line break alone. *)
Theorem crlf_line_endings U other_digit (lines : list pystr) :
  Forall (λ line, NEWLINE ∉ line) lines →
  parse_vtt_content U other_digit (join [CARRIAGE_RETURN; NEWLINE] lines)
  = parse_vtt_content U other_digit (join [NEWLINE] lines).
Proof.
  intros Hlines. unfold parse_vtt_content.
  by rewrite (fold_add_part_strip U other_digit _ _ [] (lines_crlf lines Hlines)).
Qed.

Lemma crlf_line_endings_witness :
  parse_vtt_content ascii_db (λ _, false)
    (join [CARRIAGE_RETURN; NEWLINE]
       [py "WEBVTT"; []; py "1"; cue_timing; py "<c>Hello</c> world"])
  = py "Hello world".
Proof.
  rewrite (crlf_line_endings ascii_db (λ _, false)
             [py "WEBVTT"; []; py "1"; cue_timing; py "<c>Hello</c> world"]).
  - by vm_compute.
  - apply (bool_decide_unpack _). by vm_compute.
Defined.

(** ** The direct API strategy *)

Lemma try_languages_first_usable W video_id pre lang post response texts full_transcript :
  Forall (language_fails W video_id) pre →
  Strategy.requests_get W (Strategy.timedtext_url video_id lang) = Ok response →
  status_code response = 200%Z →
  str_strip (text response) ≠ [] →
  Strategy.xml_text_nodes W (text response) = Ok texts →
  direct_api_transcript (map (default []) texts) = Some full_transcript →
  Strategy.try_languages W video_id (pre ++ lang :: post)
  = (Some full_transcript, map (Strategy.timedtext_url video_id) (pre ++ [lang])).
Proof.
  intros Hpre Hget Hok Htext Hxml Hparts.
  induction Hpre as [|l pre Hl _ IH]; cbn [app Strategy.try_languages map].
  - by rewrite Hget, Hok, (nonempty_true _ Htext), Hxml, Hparts.
  - rewrite IH. unfold language_fails in Hl.
    destruct (Strategy.requests_get W (Strategy.timedtext_url video_id l)) as [r|e];
      [|done].
    destruct (Z.eqb_spec (status_code r) 200) as [Hr|_]; [|done].
    destruct Hl as [?|[Hblank|Hnone]]; [done|by rewrite Hblank|].
    destruct (nonempty (str_strip (text r))); [|done]. cbn [andb].
    destruct (Strategy.xml_text_nodes W (text r)) as [ts|e]; [|done].
    by rewrite Hnone.
Qed.

(** X15: the direct API strategy asks for the languages in their fixed
    order and returns the first transcript it gets: when the requests
    for the languages before [lang] bring nothing and the response for
    [lang] is a 200 whose text is not blank, parses, and has a text
    node with text, the result is the stripped texts of its nodes
    joined by spaces, and no language after [lang] is requested. *)
Theorem first_language_returned W video_id video_url pre lang post response texts
    full_transcript :
  Strategy.languages = pre ++ lang :: post →
  Forall (language_fails W video_id) pre →
  Strategy.requests_get W (Strategy.timedtext_url video_id lang) = Ok response →
  status_code response = 200%Z →
  str_strip (text response) ≠ [] →
  Strategy.xml_text_nodes W (text response) = Ok texts →
  direct_api_transcript (map (default []) texts) = Some full_transcript →
  Strategy.get_transcript_direct_api W video_id video_url
  = (full_transcript, map (Strategy.timedtext_url video_id) (pre ++ [lang])).
Proof.
  intros Hlangs Hpre Hget Hok Htext Hxml Hparts.
  unfold Strategy.get_transcript_direct_api. rewrite Hlangs.
  by rewrite (try_languages_first_usable _ _ _ _ _ _ _ _ Hpre Hget Hok Htext Hxml Hparts).
Qed.

Lemma first_language_returned_witness :
  Strategy.get_transcript_direct_api british_captions (py "abcdefghijk")
    (py "https://youtu.be/abcdefghijk")
  = (py "Good day",
     map (Strategy.timedtext_url (py "abcdefghijk")) (map py ["en"; "en-US"; "en-GB"]%string)).
Proof.
  apply (first_language_returned british_captions (py "abcdefghijk")
           (py "https://youtu.be/abcdefghijk")
           (map py ["en"; "en-US"]%string) (py "en-GB") [py "auto"]
           {| status_code := 200;
              text := py "<transcript><text> Good day </text></transcript>" |}
           [Some (py " Good day ")]).
  - reflexivity.
  - constructor; [left; by vm_compute|].
    constructor; [left; by vm_compute|]. constructor.
  - reflexivity.
  - reflexivity.
  - by vm_compute.
  - reflexivity.
  - reflexivity.
Defined.

(** ** The yt-dlp strategy *)

Lemma try_entries_requested U D Y (P : pystr → Prop) entries requested :
  Forall P requested →
  (∀ sub u, sub ∈ entries → Strategy.ext sub = Some (py "vtt") →
            Strategy.url sub = Some u → P u) →
  Forall P (Strategy.try_entries U D Y entries requested).2.
Proof.
  revert requested. induction entries as [|sub rest IH]; intros requested Hreq Hall;
    cbn [Strategy.try_entries]; [done|].
  assert (∀ sub' u, sub' ∈ rest → Strategy.ext sub' = Some (py "vtt") →
                    Strategy.url sub' = Some u → P u) as Hrest
    by (intros sub' u Hin; apply (Hall sub' u); by right).
  case_bool_decide as Hext; [|by apply IH].
  destruct (Strategy.url sub) as [subtitle_url|] eqn:Hurl; [|done].
  assert (Forall P (requested ++ [subtitle_url])) as Hreq'.
  { apply Forall_app. split; [done|]. constructor; [|constructor].
    apply (Hall sub); [by left | done..]. }
  destruct (Strategy.subtitle_get Y requested subtitle_url) as [response|e]; [|done].
  destruct (status_code response =? 200)%Z; [done|]. by apply IH.
Qed.

Lemma try_items_requested U D Y (P : pystr → Prop) items requested :
  Forall P requested →
  (∀ lang_code entries sub u,
     (lang_code, entries) ∈ items → lang_code ∈ Strategy.english → sub ∈ entries →
     Strategy.ext sub = Some (py "vtt") → Strategy.url sub = Some u → P u) →
  Forall P (Strategy.try_items U D Y items requested).2.
Proof.
  revert requested. induction items as [|[lang_code entries] rest IH];
    intros requested Hreq Hall; cbn [Strategy.try_items]; [done|].
  assert (∀ lang_code' entries' sub u,
            (lang_code', entries') ∈ rest → lang_code' ∈ Strategy.english →
            sub ∈ entries' → Strategy.ext sub = Some (py "vtt") →
            Strategy.url sub = Some u → P u) as Hrest
    by (intros l' e' s' u' Hin; apply (Hall l' e' s' u'); by right).
  case_bool_decide as Hlang; [|by apply IH].
  assert (∀ sub u, sub ∈ entries → Strategy.ext sub = Some (py "vtt") →
                   Strategy.url sub = Some u → P u) as Hhere
    by (intros sub u; apply (Hall lang_code entries sub u); [by left | done]).
  pose proof (try_entries_requested U D Y P entries requested Hreq Hhere) as Hentries.
  destruct (Strategy.try_entries U D Y entries requested) as [[|r|e] requested'];
    cbn [snd] in Hentries; [|done..].
  by apply IH.
Qed.

Lemma try_key_requested U D Y (P : pystr → Prop) value requested :
  Forall P requested →
  (∀ items lang_code entries sub u,
     value = Some items →
     (lang_code, entries) ∈ items → lang_code ∈ Strategy.english → sub ∈ entries →
     Strategy.ext sub = Some (py "vtt") → Strategy.url sub = Some u → P u) →
  Forall P (Strategy.try_key U D Y value requested).2.
Proof.
  intros Hreq Hall. destruct value as [items|]; [|done]. cbn [Strategy.try_key].
  apply try_items_requested; [done|]. intros l e s u. by apply (Hall items l e s u).
Qed.

(** X16: the yt-dlp strategy requests nothing but subtitle files in
    the VTT format that the video lists under an English language
    code, as subtitles or as automatic captions; when yt-dlp is
    missing or cannot extract the video's information, it requests
    nothing at all. *)
Theorem ytdlp_requests_english_vtt U other_digit Y video_id video_url :
  let requested := (Strategy.get_transcript_ytdlp U other_digit Y video_id video_url).2 in
  match Strategy.import_yt_dlp Y, Strategy.extract_info Y video_url with
  | None, inl info => Forall (english_vtt_url info) requested
  | _, _ => requested = []
  end.
Proof.
  cbn zeta. unfold Strategy.get_transcript_ytdlp, Strategy.get_transcript_ytdlp_body.
  destruct (Strategy.import_yt_dlp Y) as [e|]; [done|].
  destruct (Strategy.extract_info Y video_url) as [info|e]; [|done].
  pose proof (try_key_requested U other_digit Y (english_vtt_url info)
                (Strategy.subtitles info) [] (Forall_nil_2 _)) as Hsubs.
  assert (Forall (english_vtt_url info)
            (Strategy.try_key U other_digit Y (Strategy.subtitles info) []).2) as H1.
  { apply Hsubs. intros items lang_code entries sub u ?????.
    exists items, lang_code, entries, sub. split_and!; [by left | done..]. }
  destruct (Strategy.try_key U other_digit Y (Strategy.subtitles info) [])
    as [[|r|e] requested]; cbn [snd] in H1; [|done..].
  pose proof (try_key_requested U other_digit Y (english_vtt_url info)
                (Strategy.automatic_captions info) requested H1) as Hauto.
  assert (Forall (english_vtt_url info)
            (Strategy.try_key U other_digit Y (Strategy.automatic_captions info)
               requested).2) as H2.
  { apply Hauto. intros items lang_code entries sub u ?????.
    exists items, lang_code, entries, sub. split_and!; [by right | done..]. }
  by destruct (Strategy.try_key U other_digit Y (Strategy.automatic_captions info)
                 requested) as [[|r|e] requested'].
Qed.

Lemma parse_vtt_content_nonempty U other_digit vtt_content :
  parse_vtt_content U other_digit vtt_content ≠ [].
Proof.
  unfold parse_vtt_content.
  pose proof (fold_add_part_parts U other_digit
                (str_split_on [NEWLINE] vtt_content) [] (Forall_nil_2 _)) as Hparts.
  destruct (fold_left _ _ _) as [|p parts]; [done|].
  apply join_nonnil; [done|]. eapply Forall_impl; [exact Hparts|]. by intros u (? & _).
Qed.

Lemma try_entries_returns U D Y entries requested r requested' :
  Strategy.try_entries U D Y entries requested = (Strategy.Return r, requested') →
  ∃ vtt_content, r = parse_vtt_content U D vtt_content.
Proof.
  revert requested. induction entries as [|sub rest IH]; intros requested;
    cbn [Strategy.try_entries]; [done|].
  case_bool_decide as Hext; [|by apply IH].
  destruct (Strategy.url sub) as [subtitle_url|]; [|done].
  destruct (Strategy.subtitle_get Y requested subtitle_url) as [response|e]; [|done].
  destruct (status_code response =? 200)%Z; [|by apply IH].
  intros [= <- _]. by eexists.
Qed.

Lemma try_items_returns U D Y items requested r requested' :
  Strategy.try_items U D Y items requested = (Strategy.Return r, requested') →
  ∃ vtt_content, r = parse_vtt_content U D vtt_content.
Proof.
  revert requested. induction items as [|[lang_code entries] rest IH];
    intros requested; cbn [Strategy.try_items]; [done|].
  case_bool_decide as Hlang; [|by apply IH].
  destruct (Strategy.try_entries U D Y entries requested) as [[|r0|e] requested0]
    eqn:Hentries; [by apply IH| |done].
  intros [= <- _]. by apply (try_entries_returns _ _ _ _ _ _ _ Hentries).
Qed.

Lemma try_key_returns U D Y value requested r requested' :
  Strategy.try_key U D Y value requested = (Strategy.Return r, requested') →
  ∃ vtt_content, r = parse_vtt_content U D vtt_content.
Proof. destruct value as [items|]; [apply try_items_returns | done]. Qed.

(** X17: the yt-dlp strategy never returns the empty string: its
    result is a failure marker or the non-empty text parsed from a
    subtitle file, so that a subtitle file without text makes the
    strategy fail instead of yielding an empty transcript. *)
Theorem ytdlp_never_empty U other_digit Y video_id video_url :
  let r := (Strategy.get_transcript_ytdlp U other_digit Y video_id video_url).1 in
  r ≠ []
  ∧ (startswith [CROSS] r = true
     ∨ ∃ vtt_content, r = parse_vtt_content U other_digit vtt_content).
Proof.
  cbn zeta. unfold Strategy.get_transcript_ytdlp.
  destruct (Strategy.get_transcript_ytdlp_body U other_digit Y video_url)
    as [[|r|e] requested] eqn:Hbody; cbn [fst].
  - split; [done | by left].
  - assert (∃ vtt_content, r = parse_vtt_content U other_digit vtt_content)
      as [vtt_content ->].
    { unfold Strategy.get_transcript_ytdlp_body in Hbody.
      destruct (Strategy.import_yt_dlp Y); [done|].
      destruct (Strategy.extract_info Y video_url) as [info|]; [|done].
      destruct (Strategy.try_key U other_digit Y (Strategy.subtitles info) [])
        as [[|r1|e1] requested1] eqn:Hsubs.
      - by apply (try_key_returns _ _ _ _ _ _ _ Hbody).
      - injection Hbody as <- _. by apply (try_key_returns _ _ _ _ _ _ _ Hsubs).
      - done. }
    split; [apply parse_vtt_content_nonempty | right; by eexists].
  - destruct (Strategy.is_import_error e); split; done || by left.
Qed.

(** On the example, the Spanish entry and the JSON entry are passed
    over, the English VTT file is requested and parsed, and the
    automatic captions are not requested. *)
Lemma ytdlp_example :
  Strategy.get_transcript_ytdlp ascii_db (λ _, false)
    (two_languages (join [NEWLINE]
                      [py "WEBVTT"; []; py "1"; cue_timing; py "<c>Hello</c> world"]))
    (py "abcdefghijk") (py "https://youtu.be/abcdefghijk")
  = (py "Hello world", [py "https://subs.example/en.vtt"]).
Proof. by vm_compute. Qed.

(** ** The summarizer, further *)

Lemma collapse_ws_blank s : Forall (λ c, isspace c = true) s → collapse_ws s = [].
Proof.
  intros Hs. rewrite collapse_ws_words. to_chunks.
  rewrite <- (app_nil_r s), chunks_seps by done. by rewrite chunks_nil.
Qed.

(** X18: a transcript of whitespace only is reported as empty, whatever
    [max_sentences]. *)
Theorem blank_transcript_reported U E transcript max_sentences :
  ensure_nltk_data E = true →
  Forall (λ c, isspace c = true) transcript →
  summarize_text U E transcript max_sentences = EMPTY_TRANSCRIPT.
Proof.
  intros Hdata Hblank. unfold summarize_text, summarize_body.
  by rewrite Hdata, (collapse_ws_blank _ Hblank).
Qed.

Lemma blank_transcript_reported_witness :
  summarize_text ascii_db no_nltk [SPACE; 10; 9; SPACE] 10 = EMPTY_TRANSCRIPT.
Proof.
  apply (blank_transcript_reported ascii_db no_nltk [SPACE; 10; 9; SPACE] 10).
  - reflexivity.
  - by repeat constructor.
Defined.

Lemma top_sentences_length sentences (scores : list (pystr * nat)) max_sentences :
  length (top_sentences sentences scores max_sentences)
  = (if (0 <=? max_sentences)%Z then Z.to_nat max_sentences `min` length scores
     else length scores - Z.to_nat (- max_sentences))%nat.
Proof.
  unfold top_sentences. rewrite (Permutation_length (sorted_perm _ false _)).
  unfold slice_to. pose proof (Permutation_length (sorted_perm snd true scores)) as Hlen.
  destruct (0 <=? max_sentences)%Z; rewrite length_take, Hlen; lia.
Qed.

(** X19: when the selection is reached, the number of selected
    sentences is [max_sentences] capped by the number of distinct
    sentences; a negative [max_sentences] leaves out that many of the
    distinct sentences instead. *)
Theorem summary_sentence_count U E transcript max_sentences sentences scores :
  reaches_selection U E transcript max_sentences sentences scores →
  let top := map fst (top_sentences sentences scores max_sentences) in
  let distinct := length (distinct_after [] sentences) in
  length top
  = (if (0 <=? max_sentences)%Z then Z.to_nat max_sentences `min` distinct
     else distinct - Z.to_nat (- max_sentences))%nat.
Proof.
  intros Hrun top distinct. subst top distinct.
  rewrite <- (reaches_selection_keys _ _ _ _ _ _ Hrun).
  rewrite !length_map. apply top_sentences_length.
Qed.

Lemma summary_sentence_count_witness :
  length (map fst (top_sentences pets_sentences pets_scores (-1))) = 3%nat.
Proof.
  apply (summary_sentence_count ascii_db no_nltk pets (-1) pets_sentences pets_scores).
  reaches_by_evaluation.
Defined.

(** X20: when the selection is reached and selects nothing, because
    [max_sentences] is 0 or so negative that it leaves out every
    distinct sentence, the result is the generation-failed marker, not
    an empty summary. *)
Theorem empty_selection_reported U E transcript max_sentences sentences scores :
  reaches_selection U E transcript max_sentences sentences scores →
  max_sentences = 0%Z
  ∨ (Z.of_nat (length (distinct_after [] sentences)) ≤ - max_sentences)%Z →
  summarize_text U E transcript max_sentences = GENERATION_FAILED.
Proof.
  intros Hrun Hnone. rewrite (summarize_text_selected _ _ _ _ _ _ Hrun). cbn zeta.
  assert (top_sentences sentences scores max_sentences = []) as ->; [|done].
  apply length_zero_iff_nil. rewrite top_sentences_length.
  rewrite <- (reaches_selection_keys _ _ _ _ _ _ Hrun), length_map in Hnone.
  destruct (Z.leb_spec 0 max_sentences); lia.
Qed.

Lemma empty_selection_reported_witness :
  summarize_text ascii_db no_nltk pets 0 = GENERATION_FAILED.
Proof.
  apply (empty_selection_reported ascii_db no_nltk pets 0 pets_sentences pets_scores).
  - reaches_by_evaluation.
  - by left.
Defined.

(** ** The order of the selection *)

Lemma StronglySorted_of_map {A B} (f : A → B) (R : relation B) (l : list A) :
  StronglySorted R (map f l) → StronglySorted (λ a b, R (f a) (f b)) l.
Proof.
  induction l as [|x l IH]; [constructor|]. cbn [map].
  intros [Hx Hl]%StronglySorted_cons. constructor; [by apply IH|].
  apply Forall_forall. intros y Hy. rewrite Forall_forall in Hx.
  apply Hx. by apply (list_elem_of_fmap_2 f).
Qed.

Lemma precedes_score sentences a b : precedes sentences a b → (b.2 ≤ a.2)%nat.
Proof. intros [?|[? _]]; lia. Qed.

(** Python's sort is stable, also with [reverse=True]: of two entries
    with the same score, the one that was first stays first. *)
Lemma sorted_insert_stable sentences (x : pystr * nat) l :
  StronglySorted (precedes sentences) l →
  Forall (λ y, list_index x.1 sentences < list_index y.1 sentences)%nat l →
  StronglySorted (precedes sentences) (sorted_insert snd true x l).
Proof.
  induction 1 as [|y l Hl IH Hy]; intros Hx; cbn [sorted_insert].
  - repeat constructor.
  - apply Forall_cons in Hx as [Hxy Hx].
    destruct (Nat.ltb_spec x.2 y.2) as [Hlt|Hge].
    + constructor; [by apply IH|].
      rewrite sorted_insert_perm. constructor; [by left | done].
    + constructor; [by constructor|].
      constructor; [unfold precedes; lia|].
      rewrite Forall_forall in Hy, Hx |- *. intros z Hz.
      pose proof (precedes_score _ _ _ (Hy z Hz)). specialize (Hx z Hz).
      unfold precedes. lia.
Qed.

Lemma sorted_stable sentences (l : list (pystr * nat)) :
  StronglySorted (λ a b, list_index a.1 sentences < list_index b.1 sentences)%nat l →
  StronglySorted (precedes sentences) (sorted snd true l).
Proof.
  induction 1 as [|x l Hl IH Hx]; [constructor|].
  unfold sorted in *. cbn [foldr]. apply sorted_insert_stable; [done|].
  fold (sorted snd true l). by rewrite sorted_perm.
Qed.

(** X21: the selection prefers the higher score and, among equal
    scores, the sentence that occurs first: every selected sentence
    precedes, in this order, every scored sentence that is not
    selected. *)
Theorem selection_prefers_score U E transcript max_sentences sentences scores a b :
  reaches_selection U E transcript max_sentences sentences scores →
  a ∈ top_sentences sentences scores max_sentences →
  b ∈ scores →
  b ∉ top_sentences sentences scores max_sentences →
  precedes sentences a b.
Proof.
  intros Hrun Ha Hb Hnb.
  pose proof (reaches_selection_keys _ _ _ _ _ _ Hrun) as Hkeys.
  assert (StronglySorted (precedes sentences) (sorted snd true scores)) as Hsorted.
  { apply sorted_stable.
    apply (StronglySorted_of_map fst
             (λ s t, list_index s sentences < list_index t sentences)%nat).
    rewrite Hkeys. apply distinct_ordered. }
  unfold top_sentences in Ha, Hnb. rewrite sorted_perm in Ha, Hnb.
  assert (∃ k, slice_to max_sentences (sorted snd true scores)
               = take k (sorted snd true scores)) as [k Hk].
  { unfold slice_to. destruct (0 <=? max_sentences)%Z; by eexists. }
  rewrite Hk in Ha, Hnb.
  rewrite <- (take_drop k (sorted snd true scores)) in Hsorted.
  apply (StronglySorted_app_1_elem_of _ _ _ _ _ Hsorted Ha).
  rewrite <- (sorted_perm snd true scores), <- (take_drop k (sorted snd true scores)) in Hb.
  apply elem_of_app in Hb as [Hb|Hb]; done.
Qed.

Lemma selection_prefers_score_witness :
  precedes pets_sentences (py "dog dog dog dog", 32%nat) (py "cat", 5%nat).
Proof.
  apply (selection_prefers_score ascii_db no_nltk pets 2 pets_sentences pets_scores).
  - reaches_by_evaluation.
  - apply (bool_decide_unpack _). by vm_compute.
  - apply (bool_decide_unpack _). by vm_compute.
  - apply (bool_decide_unpack _). by vm_compute.
Defined.

(** ** Errors of the lemmatizer *)

Lemma mapM_raises {A B} (f : A → result B) l1 x l2 e :
  Forall (λ y, ∃ z, f y = Ok z) l1 → f x = Raise e →
  mapM f (l1 ++ x :: l2) = Raise e.
Proof.
  intros Hl1 Hx. induction Hl1 as [|y l1 [z Hy] _ IH]; cbn [app mapM].
  - by rewrite Hx.
  - rewrite Hy. cbn [mbind result_bind]. by rewrite IH.
Qed.

Lemma mapM_returns {A B} (f : A → result B) l :
  Forall (λ y, ∃ z, f y = Ok z) l → ∃ zs, mapM f l = Ok zs.
Proof.
  induction 1 as [|y l [z Hy] _ [zs IH]]; cbn [mapM]; [by eexists|].
  rewrite Hy. cbn [mbind result_bind]. rewrite IH. by eexists.
Qed.

Lemma word_frequencies_raises U E stop_words lemmatizer word_freq before s after e :
  Forall (λ s', ∃ ws, content_words U E stop_words lemmatizer s' = Ok ws) before →
  content_words U E stop_words lemmatizer s = Raise e →
  word_frequencies U E stop_words lemmatizer word_freq (before ++ s :: after) = Raise e.
Proof.
  intros Hbefore Hs. revert word_freq.
  induction Hbefore as [|s' before [ws Hs'] _ IH]; intros word_freq;
    cbn [app word_frequencies].
  - by rewrite Hs.
  - rewrite Hs'. cbn [mbind result_bind]. apply IH.
Qed.

(** X22: an exception of the lemmatizer ends the summarization with its
    message.  When more than [max_sentences] sentences are found, the
    stopword list and the lemmatizer load, and the lemmatizer raises on
    a kept word of some sentence, having returned on every kept word
    before it, the result is the summarization-error marker followed by
    the message of the exception. *)
Theorem lemmatizer_error_reported U E transcript max_sentences stop_words
    before s after ws1 w ws2 e :
  ensure_nltk_data E = true →
  collapse_ws transcript ≠ [] →
  split_sentences E (collapse_ws transcript) = before ++ s :: after →
  (max_sentences < Z.of_nat (length (before ++ s :: after)))%Z →
  load_resources E = (stop_words, true) →
  Forall (λ s', Forall (lemmatizes E) (kept_words U E stop_words s')) before →
  kept_words U E stop_words s = ws1 ++ w :: ws2 →
  Forall (lemmatizes E) ws1 →
  lemmatize E w = Raise e →
  summarize_text U E transcript max_sentences = failed "Summarization error: " ++ e.
Proof.
  intros Hdata Ht Hs Hmax Hload Hbefore Hkept Hws1 Hw.
  unfold summarize_text, summarize_body.
  rewrite Hdata, (nonempty_true _ Ht), Hs, Hload. cbn [negb].
  destruct (Nat.eqb_spec (length (before ++ s :: after)) 0) as [Hlen|_].
  { rewrite length_app in Hlen. simpl in Hlen. lia. }
  destruct (Z.leb_spec (Z.of_nat (length (before ++ s :: after))) max_sentences);
    [lia|].
  rewrite (word_frequencies_raises U E stop_words true ∅ before s after e); [done| |].
  - eapply Forall_impl; [exact Hbefore|]. intros s' Hs'.
    unfold content_words. by apply mapM_returns.
  - unfold content_words. fold (kept_words U E stop_words s). rewrite Hkept.
    by apply mapM_raises.
Qed.

Lemma lemmatizer_error_reported_witness :
  summarize_text ascii_db missing_wordnet (py "The cat sat. The dog ran.") 1
  = failed "Summarization error: Resource wordnet not found.".
Proof.
  apply (lemmatizer_error_reported ascii_db missing_wordnet
           (py "The cat sat. The dog ran.") 1 fallback_stop_words
           [] (py "The cat sat") [py "The dog ran"]
           [] (py "cat") [py "sat"] (py "Resource wordnet not found.")).
  - reflexivity.
  - by vm_compute.
  - by vm_compute.
  - by vm_compute.
  - reflexivity.
  - constructor.
  - by vm_compute.
  - constructor.
  - reflexivity.
Defined.

(** ** Frequencies and scores *)

Lemma counter_get_update word_freq words w :
  counter_get (counter_update word_freq words) w
  = (counter_get word_freq w + occurrences w words)%nat.
Proof.
  revert word_freq. induction words as [|x words IH]; intros word_freq.
  - unfold occurrences. simpl. lia.
  - unfold counter_update in *. cbn [foldl]. rewrite IH.
    unfold counter_get, occurrences. rewrite lookup_insert.
    destruct (decide (x = w)) as [->|Hne].
    + rewrite filter_cons_True by done. simpl. lia.
    + by rewrite filter_cons_False by done.
Qed.

Lemma occurrences_app w l1 l2 :
  occurrences w (l1 ++ l2) = (occurrences w l1 + occurrences w l2)%nat.
Proof. unfold occurrences. by rewrite filter_app, length_app. Qed.

(** The first loop counts every content word of every sentence. *)
Lemma word_frequencies_counts U E stop_words lemmatizer word_freq0 sentences word_freq :
  word_frequencies U E stop_words lemmatizer word_freq0 sentences = Ok word_freq →
  ∃ wss, mapM (content_words U E stop_words lemmatizer) sentences = Ok wss
         ∧ ∀ w, counter_get word_freq w
                = (counter_get word_freq0 w + occurrences w (concat wss))%nat.
Proof.
  revert word_freq0. induction sentences as [|s l IH]; intros word_freq0 H.
  - injection H as <-. exists []. split; [done|]. intros w. unfold occurrences. simpl. lia.
  - cbn [word_frequencies] in H.
    destruct (content_words U E stop_words lemmatizer s) as [ws|e] eqn:Hs; [|done].
    cbn [mbind result_bind] in H. destruct (IH _ H) as (wss & Hwss & Hcount).
    exists (ws :: wss). cbn [mapM]. rewrite Hs. cbn [mbind result_bind]. rewrite Hwss.
    split; [done|]. intros w.
    rewrite Hcount, counter_get_update. cbn [concat]. rewrite occurrences_app. lia.
Qed.

Lemma dict_set_elem_of {V} (d : list (pystr * V)) k v x :
  x ∈ dict_set d k v → x = (k, v) ∨ x ∈ d.
Proof.
  induction d as [|[k' v'] d IH]; cbn [dict_set].
  - intros ->%list_elem_of_singleton. by left.
  - destruct (decide (k' = k)) as [->|Hne].
    + intros [->|Hx]%elem_of_cons; [by left | right; by right].
    + intros [->|Hx]%elem_of_cons; [right; by left|].
      destruct (IH Hx) as [->|?]; [by left | right; by right].
Qed.

(** The second loop gives each sentence the sum of the frequencies of
    its content words. *)
Lemma sentence_scores_sum U E stop_words lemmatizer word_freq scores0 sentences scores x :
  sentence_scores U E stop_words lemmatizer word_freq scores0 sentences = Ok scores →
  x ∈ scores →
  x ∈ scores0
  ∨ ∃ ws, content_words U E stop_words lemmatizer x.1 = Ok ws
          ∧ x.2 = foldr Nat.add 0%nat (map (counter_get word_freq) ws).
Proof.
  revert scores0. induction sentences as [|s l IH]; intros scores0 H Hx.
  - injection H as <-. by left.
  - cbn [sentence_scores] in H.
    destruct (content_words U E stop_words lemmatizer s) as [ws|e] eqn:Hs; [|done].
    cbn [mbind result_bind] in H. destruct (IH _ H Hx) as [Hin|?]; [|by right].
    apply dict_set_elem_of in Hin as [->|?]; [|by left].
    right. by exists ws.
Qed.

(** X23: the score of a sentence counts occurrences: it is the sum,
    over the content words of the sentence, of the number of times the
    word occurs among the content words of all sentences of the
    transcript, those of a repeated sentence counted once for each
    repetition. *)
Theorem score_counts_occurrences U E transcript max_sentences sentences scores s n :
  reaches_selection U E transcript max_sentences sentences scores →
  (s, n) ∈ scores →
  ∃ wss ws,
    mapM (content_words U E (load_resources E).1 (load_resources E).2) sentences = Ok wss
    ∧ content_words U E (load_resources E).1 (load_resources E).2 s = Ok ws
    ∧ n = foldr Nat.add 0%nat (map (λ w, occurrences w (concat wss)) ws).
Proof.
  intros (_ & _ & _ & _ & word_freq & Hfreq & _ & Hscores) Hs.
  destruct (word_frequencies_counts _ _ _ _ _ _ _ Hfreq) as (wss & Hwss & Hcount).
  destruct (sentence_scores_sum _ _ _ _ _ _ _ _ _ Hscores Hs)
    as [[]%elem_of_nil|(ws & Hws & Hn)].
  exists wss, ws. split_and!; [done..|]. cbn [fst snd] in Hn. rewrite Hn.
  f_equal. apply map_ext. intros w. rewrite Hcount. unfold counter_get.
  by rewrite lookup_empty.
Qed.

Lemma score_counts_occurrences_witness :
  ∃ wss ws,
    mapM (content_words ascii_db no_nltk (load_resources no_nltk).1
            (load_resources no_nltk).2) pets_sentences = Ok wss
    ∧ content_words ascii_db no_nltk (load_resources no_nltk).1
        (load_resources no_nltk).2 (py "cat cat cat") = Ok ws
    ∧ 15%nat = foldr Nat.add 0%nat (map (λ w, occurrences w (concat wss)) ws).
Proof.
  apply (score_counts_occurrences ascii_db no_nltk pets 2 pets_sentences pets_scores).
  - reaches_by_evaluation.
  - apply (bool_decide_unpack _). by vm_compute.
Defined.

(** ** The API summarizer *)

Lemma str_strip_blank s : Forall (λ c, isspace c = true) s → str_strip s = [].
Proof.
  intros Hs. pose proof (strip_unique s [] []) as H. rewrite !app_nil_r in H.
  by apply H.
Qed.

(** X24: without an API key, or with a transcript of whitespace only,
    [summarize_with_api] returns a failure marker and sends no
    request. *)
Theorem no_request_without_key_or_text O A transcript :
  getenv A = None ∨ getenv A = Some []
  ∨ Forall (λ c, isspace c = true) transcript →
  startswith [CROSS] (summarize_with_api O A transcript).1 = true
  ∧ (summarize_with_api O A transcript).2 = [].
Proof.
  intros Hcase. unfold summarize_with_api.
  destruct (load_dotenv A) as [_|e]; [|done].
  destruct Hcase as [->|[->|Hblank]]; [done..|].
  destruct (getenv A) as [API_KEY|]; [|done].
  destruct (nonempty API_KEY); [|done]. cbn [negb].
  by rewrite (str_strip_blank _ Hblank).
Qed.

Lemma no_request_without_key_or_text_witness :
  startswith [CROSS] (summarize_with_api latin1 no_api_key (py "A transcript.")).1 = true
  ∧ (summarize_with_api latin1 no_api_key (py "A transcript.")).2 = [].
Proof.
  apply (no_request_without_key_or_text latin1 no_api_key (py "A transcript.")).
  by left.
Defined.

Lemma after_print_all {B} O text (k : B + request_exception) :
  encodes_all O → after_print O text k = k.
Proof. intros HO. unfold after_print. by rewrite print_all. Qed.

(** With a standard output that takes every message, a request that
    brings no summary has been sent and the loop goes on. *)
Lemma try_models_fail_step O A API_KEY transcript model rest :
  encodes_all O → model_fails A API_KEY transcript model →
  try_models O A API_KEY transcript (model :: rest)
  = let '(r, later) := try_models O A API_KEY transcript rest in
    (r, model :: later).
Proof.
  intros HO Hm. cbn [try_models]. unfold try_model, model_fails in *.
  rewrite (print_all O) by done.
  destruct (try_models O A API_KEY transcript rest) as [r later].
  destruct (requests_post A API_KEY model transcript) as [response|e].
  - rewrite !after_print_all by done.
    destruct (Z.eqb_spec (status_code response) 200) as [Hok|_].
    + destruct (json_has_choices A response) as [[|]|e] eqn:Hjson.
      * destruct Hm as [?|[?|Hnone]]; [done..|].
        destruct (first_choice_content A response) as [content|e].
        -- by destruct (Hnone content).
        -- by rewrite print_all.
      * done.
      * by rewrite print_all.
    + by destruct (status_code response =? 404)%Z.
  - by rewrite print_all.
Qed.


Lemma try_models_first_answer O A API_KEY transcript pre model post response content :
  encodes_all O →
  Forall (model_fails A API_KEY transcript) pre →
  requests_post A API_KEY model transcript = inl response →
  status_code response = 200%Z →
  json_has_choices A response = inl true →
  first_choice_content A response = inl content →
  try_models O A API_KEY transcript (pre ++ model :: post)
  = (Ok (Some content), pre ++ [model]).
Proof.
  intros HO Hpre Hpost Hok Hjson Hcontent.
  induction Hpre as [|m pre Hm _ IH]; cbn [app].
  - cbn [try_models]. unfold try_model.
    rewrite (print_all O), Hpost, Hok, Hjson, after_print_all, Hcontent by done.
    done.
  - by rewrite try_models_fail_step, IH.
Qed.

(** X25: with a standard output that takes every message, the models
    are asked in their fixed order and the first answer is the
    summary: when the requests for the models before [model] bring
    nothing and the response for [model] is a 200 with a first choice
    whose content can be read, the result is that content, and no
    model after [model] is requested. *)
Theorem first_answer_returned O A API_KEY transcript pre model post response content :
  encodes_all O →
  load_dotenv A = Ok () →
  getenv A = Some API_KEY → API_KEY ≠ [] →
  str_strip transcript ≠ [] →
  models = pre ++ model :: post →
  Forall (model_fails A API_KEY transcript) pre →
  requests_post A API_KEY model transcript = inl response →
  status_code response = 200%Z →
  json_has_choices A response = inl true →
  first_choice_content A response = inl content →
  summarize_with_api O A transcript = (content, pre ++ [model]).
Proof.
  intros HO Hload Hkey Hne Ht Hms Hpre Hpost Hok Hjson Hcontent.
  unfold summarize_with_api.
  rewrite Hload, Hkey, (nonempty_true _ Hne), (nonempty_true _ Ht), Hms. cbn [negb].
  by rewrite (try_models_first_answer _ _ _ _ _ _ _ _ _ HO Hpre Hpost Hok Hjson Hcontent).
Qed.

Lemma first_answer_returned_witness :
  summarize_with_api utf8 third_model_answers (py "Cats are great. Cats sleep.")
  = (py "The video is about cats.",
     map py ["anthropic/claude-3-5-sonnet-20241022";
             "anthropic/claude-3-sonnet-20240229";
             "openai/gpt-4o"]%string).
Proof.
  apply (first_answer_returned utf8 third_model_answers (py "sk-or-v1-0123")
           (py "Cats are great. Cats sleep.")
           (map py ["anthropic/claude-3-5-sonnet-20241022";
                    "anthropic/claude-3-sonnet-20240229"]%string)
           (py "openai/gpt-4o") [py "openai/gpt-3.5-turbo"]
           {| status_code := 200; text := py "{}" |}).
  - done.
  - reflexivity.
  - reflexivity.
  - by vm_compute.
  - by vm_compute.
  - reflexivity.
  - constructor; [left; by vm_compute|].
    constructor; [left; by vm_compute|]. constructor.
  - reflexivity.
  - reflexivity.
  - reflexivity.
  - reflexivity.
Defined.



(** With a standard output in Latin-1 the message about the first
    timeout cannot be printed, nor can the message of the last
    handler: the loop is left after one request. *)
Lemma timeout_message_ends_loop :
  summarize_with_api latin1 api_times_out (py "Cats are great.")
  = (API_SUMMARIZATION_ERROR ++ cannot_encode_cross,
     [py "anthropic/claude-3-5-sonnet-20241022"]).
Proof. by vm_compute. Qed.

(** ** The application *)


Lemma clean_transcript_collapsed U x :
  collapse_ws (clean_transcript U x) = clean_transcript U x.
Proof.
  destruct (clean_transcript_sentences U x) as (us & -> & Hus & _).
  apply collapse_ws_fixed; [by apply sentences_single_spaced | by apply sentences_trimmed].
Qed.

(** What [get_transcript] returns without the failure marker in front
    is a normalized strategy result. *)
Lemma get_transcript_success U O net video_url r calls :
  get_transcript U O net video_url = (Ok r, calls) →
  startswith [CROSS] r = false →
  ∃ text, r = clean_transcript U text.
Proof.
  intros Hr Hsuccess.
  destruct (get_transcript_cases _ _ _ _ _ _ Hr) as [->|[->|[->|[?|[e ->]]]]];
    done.
Qed.

(** What every handler keeps: the stored transcript is an output of the
    normalizer and the stored summary is no failure marker. *)
Lemma handle_keeps U state e :
  (∃ x, transcript state = clean_transcript U x) →
  startswith [CROSS] (summary state) = false →
  (∃ x, transcript (handle U state e) = clean_transcript U x)
  ∧ startswith [CROSS] (summary (handle U state e)) = false.
Proof.
  intros Ht Hs. destruct e as [O net video_url|manual_transcript|O A]; cbn [handle].
  - unfold fetch_transcript. destruct (nonempty _); [|done].
    destruct (get_transcript U O net video_url) as [[r|e] calls] eqn:Hget;
      cbn [fst]; [|done].
    destruct (startswith [CROSS] r) eqn:Hr; [done|]. cbn [transcript summary].
    split; [|done]. by apply (get_transcript_success _ _ _ _ _ _ Hget).
  - unfold save_transcript. destruct (nonempty _); [|done].
    cbn [transcript summary]. split; [by eexists | done].
  - unfold generate_summary. destruct (nonempty _); [|done].
    destruct (summarize_with_api O A (transcript state)) as [summary_result requested].
    destruct (startswith _ summary_result) eqn:Hr; done.
Qed.

Lemma session_keeps U events :
  (∃ x, transcript (session U events) = clean_transcript U x)
  ∧ startswith [CROSS] (summary (session U events)) = false.
Proof.
  unfold session.
  assert (∀ state,
            (∃ x, transcript state = clean_transcript U x) →
            startswith [CROSS] (summary state) = false →
            (∃ x, transcript (fold_left (handle U) events state) = clean_transcript U x)
            ∧ startswith [CROSS] (summary (fold_left (handle U) events state)) = false)
    as Hall.
  { induction events as [|e events IH]; intros state Ht Hs; [done|].
    cbn [fold_left]. destruct (handle_keeps U state e Ht Hs). by apply IH. }
  apply Hall; [by exists [] | done].
Qed.

(** X27: whatever the user does and whatever the network answers, the
    stored transcript is normalized, with no span that matches the
    angle-bracket pattern and no whitespace to collapse, and the
    stored summary is never a failure marker. *)
Theorem session_keeps_normalized U events :
  let state := session U events in
  (∀ pre body post,
     transcript state = pre ++ [LT] ++ body ++ [GT] ++ post → GT ∉ body → body = [])
  ∧ collapse_ws (transcript state) = transcript state
  ∧ startswith [CROSS] (summary state) = false.
Proof.
  cbn zeta. destruct (session_keeps U events) as [[x ->] Hs]. split_and!; [|..|done].
  - intros pre body post. apply tag_free_spans, clean_transcript_tag_free.
  - apply clean_transcript_collapsed.
Qed.




(** X29: pasting text that is not blank but holds only markup,
    whitespace and sentence terminators replaces the stored transcript
    by the empty string; generating a summary then sends no request and
    changes nothing. *)
Theorem markup_only_paste_erases U O A manual_transcript state :
  str_strip manual_transcript ≠ [] →
  atoms (sub_tags manual_transcript) = [] →
  let state' := save_transcript U manual_transcript state in
  transcript state' = [] ∧ generate_summary O A state' = (state', []).
Proof.
  intros Hne Hnone. cbn zeta. unfold save_transcript.
  rewrite (nonempty_true _ Hne), (clean_transcript_no_atoms U _ Hnone). done.
Qed.

Lemma markup_only_paste_erases_witness :
  transcript (save_transcript ascii_db (py "<b>...</b>")
                {| transcript := py "Cats are great"; summary := [] |}) = [].
Proof.
  apply (markup_only_paste_erases ascii_db utf8 no_api_key (py "<b>...</b>")
           {| transcript := py "Cats are great"; summary := [] |}).
  - by vm_compute.
  - by vm_compute.
Defined.
